(** * Tensorforce core: normalization layers and the [Model] orchestrator

    A shallow embedding of [tensorforce/core/layers/normalization.py] and
    [tensorforce/core/models/model.py].

    - Tensors of the layers are lists: a batch is a list of rows, a row a
      list of features.
    - The bounds of [LinearNormalization] are [numpy] numbers: exact
      rationals, extended with the two infinities of [np.inf]. An array
      of them is a list, one number alone a list of one entry, and two
      arrays meet by broadcasting.
    - The tensors of the layers and the reward accumulator of [Model]
      hold IEEE 754 floats (the kernel's binary64 [float]), and the
      operations on them round as the format does.
    - The public entry points of [Model] ([act], [independent_act],
      [observe]) build a graph of operations ordered by declared data and
      control dependencies only; they are embedded as such a graph, and a
      property of an entry point is a property of every schedule the
      dependencies admit. *)

From Stdlib Require Import QArith Lqa Floats Uint63 Lia OrderedTypeEx.
From stdpp Require Import base list strings gmap pretty sorting.

(** ** Part I: the embedding *)

(** *** normalization.py: [LinearNormalization] *)

Module LinearNormalization.

(** A bound of a value range, as [numpy] holds it: a finite number or one
    of [-np.inf], [np.inf]. *)
Inductive bound : Type :=
| NegInf
| Finite (q : Q)
| PosInf.

(** [np.isinf] *)
Definition isinf (b : bound) : bool :=
  match b with
  | Finite _ => false
  | _ => true
  end.

(** [a >= b] on bounds. *)
Definition geq (a b : bound) : bool :=
  match a, b with
  | PosInf, _ => true
  | _, NegInf => true
  | Finite x, Finite y => Qle_bool y x
  | _, _ => false
  end.

(** The two fields of [TensorSpec] the layer reads. An array of bounds
    is a list; a bound given as one number is a list of one entry. *)
Record TensorSpec : Type := {
  spec_min_value : option (list bound);
  spec_max_value : option (list bound)
}.

Inductive TensorforceError : Type :=
| RequiredArgument (name argument : string)
| InvalidValue (name argument hint : string).

(** [ValueError]: operands that could not be broadcast together, with
    the lengths of the two. *)
Inductive ValueError : Type :=
| NotBroadcast (shape1 shape2 : nat).

(** What [__init__] raises: a [TensorforceError] of its own, the
    [AttributeError] of an attribute read from [None], the [ValueError]
    of a comparison of arrays that do not fit, or whatever the
    constructor of the base class raises. *)
Inductive Exception (E : Type) : Type :=
| Tensorforce (e : TensorforceError)
| AttributeError (attribute : string)
| Shapes (e : ValueError)
| FromLayer (e : E).
Arguments Tensorforce {E} _.
Arguments AttributeError {E} _.
Arguments Shapes {E} _.
Arguments FromLayer {E} _.

(** The layer: [self.min_value], [self.max_value]. *)
Record t : Type := {
  min_value : list bound;
  max_value : list bound
}.

(** The constructor of the base class [Layer], which is not part of the
    file: what it raises, if anything, for the layer that calls it with
    [name] and [input_spec]. *)
Class Layer (E : Type) : Type := {
  layer_init : t → option string → option TensorSpec → option E
}.

(** Broadcasting along an axis, as [numpy] and TensorFlow do it: two
    axes of the same length are paired entry by entry, an axis of length
    one is repeated along the other, and two axes of other lengths do
    not fit. *)
Definition broadcast {A B : Type} (a : list A) (b : list B)
    : ValueError + list (A * B) :=
  if decide (length a = length b) then inr (zip a b)
  else
    match a, b with
    | [x], _ => inr (pair x <$> b)
    | _, [y] => inr ((λ x, (x, y)) <$> a)
    | _, _ => inl (NotBroadcast (length a) (length b))
    end.

(** [(self.min_value >= self.max_value).any()] *)
Definition any_geq (lo hi : list bound) : ValueError + bool :=
  match broadcast lo hi with
  | inl e => inl e
  | inr pairs => inr (existsb (λ p, geq p.1 p.2) pairs)
  end.

(** [LinearNormalization.__init__] *)
Definition init {E : Type} `{!Layer E}
    (min_value max_value : option (list bound)) (name : option string)
    (input_spec : option TensorSpec) : Exception E + t :=
  match (match min_value, input_spec with
         | Some lo, _ => inr lo
         | None, None => inl (AttributeError "min_value")
         | None, Some spec =>
             match spec_min_value spec with
             | None =>
                 inl (Tensorforce
                        (RequiredArgument "LinearNormalization" "min_value"))
             | Some lo => inr lo
             end
         end) with
  | inl e => inl e
  | inr lo =>
      match (match max_value, input_spec with
             | Some hi, _ => inr hi
             | None, None => inl (AttributeError "max_value")
             | None, Some spec =>
                 match spec_max_value spec with
                 | None =>
                     inl (Tensorforce
                            (RequiredArgument "LinearNormalization"
                               "max_value"))
                 | Some hi => inr hi
                 end
             end) with
      | inl e => inl e
      | inr hi =>
          match any_geq lo hi with
          | inl e => inl (Shapes e)
          | inr true =>
              inl (Tensorforce
                     (InvalidValue "LinearNormalization" "min/max_value"
                        "not less than"))
          | inr false =>
              let self := {| min_value := lo; max_value := hi |} in
              match layer_init self name input_spec with
              | Some e => inl (FromLayer e)
              | None => inr self
              end
          end
      end
  end.

(** [is_inf = np.logical_or(np.isinf(self.min_value),
    np.isinf(self.max_value))], kept with the bounds it is about. *)
Definition is_inf (l : t) : ValueError + list (bool * (bound * bound)) :=
  match broadcast (min_value l) (max_value l) with
  | inl e => inl e
  | inr bounds => inr ((λ b, (isinf b.1 || isinf b.2, b)) <$> bounds)
  end.

(** [output_spec]: where a bound is infinite at some position, the bounds
    become -2 and 2 at the positions where both are finite and stay as
    they are at the others; where no bound is infinite, they become the
    two numbers -2 and 2. *)
Definition output_spec (l : t) : ValueError + TensorSpec :=
  match is_inf l with
  | inl e => inl e
  | inr mask =>
      if existsb fst mask then
        inr {| spec_min_value :=
                 Some ((λ m : bool * (bound * bound),
                          if m.1 then m.2.1 else Finite (-2)) <$> mask);
               spec_max_value :=
                 Some ((λ m : bool * (bound * bound),
                          if m.1 then m.2.2 else Finite 2) <$> mask) |}
      else
        inr {| spec_min_value := Some [Finite (-2)];
               spec_max_value := Some [Finite 2] |}
  end.

(** The float nearest to the quotient of two whole numbers, ties to the
    even mantissa: the quotient to enough binary places, then rounded
    as every operation of the format rounds its result. *)
Definition nearest (negative : bool) (n d : positive) : float :=
  let '(m, e, l) := SFdiv_core_binary prec emax (Z.pos n) 0 (Z.pos d) 0 in
  SF2Prim (binary_round_aux prec emax negative m e l).

(** [tf_util.constant(value=..., dtype='float')], one entry of it: the
    number as a float of the graph. [tf_util] is not part of the file;
    the conversion is TensorFlow's, to the nearest float. *)
Definition constant (b : bound) : float :=
  match b with
  | NegInf => neg_infinity
  | PosInf => infinity
  | Finite q =>
      match Qnum q with
      | Z0 => 0%float
      | Z.pos n => nearest false n (Qden q)
      | Z.neg n => nearest true n (Qden q)
      end
  end.

(** One entry of [apply]:
    [tf.where(is_inf, x, 4.0 * (x - min_value) / (max_value - min_value)
    - 2.0)], on floats. *)
Definition apply_element (lo hi : bound) (x : float) : float :=
  if isinf lo || isinf hi
  then x
  else (4 * (x - constant lo) / (constant hi - constant lo) - 2)%float.

(** A row of the batch against the bounds. *)
Definition apply_row (bounds : list (bound * bound)) (row : list float)
    : ValueError + list float :=
  match broadcast bounds row with
  | inl e => inl e
  | inr cells =>
      inr ((λ c : bound * bound * float, apply_element c.1.1 c.1.2 c.2)
             <$> cells)
  end.

(** The rows one after the other, up to the first that does not fit. *)
Fixpoint apply_rows (bounds : list (bound * bound))
    (x : list (list float)) : ValueError + list (list float) :=
  match x with
  | [] => inr []
  | row :: rest =>
      match apply_row bounds row with
      | inl e => inl e
      | inr out =>
          match apply_rows bounds rest with
          | inl e => inl e
          | inr outs => inr (out :: outs)
          end
      end
  end.

(** [LinearNormalization.apply] on a batch: a [ValueError] where the
    bounds do not fit each other or the rows of the batch. *)
Definition apply (l : t) (x : list (list float))
    : ValueError + list (list float) :=
  match broadcast (min_value l) (max_value l) with
  | inl e => inl e
  | inr bounds => apply_rows bounds x
  end.

End LinearNormalization.

(** *** normalization.py: [ExponentialNormalization] *)

Module ExponentialNormalization.

Local Open Scope float_scope.

(** The layer, for an input spec of shape [(features,)] and the default
    [axes]: [initialize] then sets [self.axes = ()] and gives the moving
    statistics the shape [(1, features)]. [epsilon] is [util.epsilon]. *)
Record t : Type := {
  decay : float;
  features : nat;
  epsilon : float
}.

(** The three persisted variables. *)
Record variables : Type := {
  moving_mean : list float;
  moving_variance : list float;
  after_first_call : bool
}.

(** [initialize]: all three variables start from [initializer='zeros']. *)
Definition initialize (l : t) : variables :=
  {| moving_mean := replicate (features l) 0;
     moving_variance := replicate (features l) 0;
     after_first_call := false |}.

(** [tf_util.cast(x=..., dtype='float')] of a size. *)
Definition cast (n : nat) : float :=
  PrimFloat.of_uint63 (Uint63.of_Z (Z.of_nat n)).

(** [tf.math.pow(x=decay, y=batch_size)] for the whole-number exponent a
    batch size is: the product of [n] factors, 1 for [n = 0]. *)
Fixpoint pow (d : float) (n : nat) : float :=
  match n with
  | O => 1
  | S m => d * pow d m
  end.

Definition reduce_sum (l : list float) : float :=
  foldl PrimFloat.add 0 l.

Definition column (j : nat) (x : list (list float)) : list float :=
  (λ row, nth j row 0) <$> x.

(** [tf.math.reduce_mean(input_tensor=x, axis=(0,), keepdims=True)]: per
    feature, the sum of the column divided by the number of rows. *)
Definition reduce_mean (n : nat) (x : list (list float)) : list float :=
  (λ j, reduce_sum (column j x) / cast (length x)) <$> seq 0 n.

(** [tf.math.squared_difference(x=x, y=mean)], [mean] broadcast over the
    batch axis. *)
Definition squared_difference (x : list (list float)) (mean : list float)
    : list (list float) :=
  (λ row, zip_with (λ v m, (v - m) * (v - m)) row mean) <$> x.

(** [decay * moving + (one - decay) * batch] *)
Definition blend (d : float) (moving batch : list float) : list float :=
  zip_with (λ m b, d * m + (1 - d) * b) moving batch.

(** [tf.maximum] *)
Definition maximum (x y : float) : float :=
  if PrimFloat.ltb x y then y else x.

(** [tf.math.rsqrt] *)
Definition rsqrt (x : float) : float := 1 / PrimFloat.sqrt x.

(** [(x - mean) * reciprocal_stddev], statistics broadcast over the
    batch. *)
Definition normalize (l : t) (x : list (list float))
    (mean variance : list float) : list (list float) :=
  let reciprocal_stddev := (λ v, rsqrt (maximum v (epsilon l))) <$> variance in
  (λ row, zip_with (λ d r, d * r) (zip_with PrimFloat.sub row mean)
            reciprocal_stddev) <$> x.

(** [ExponentialNormalization.apply]: the normalized batch and the
    variables as the call leaves them. *)
Definition apply (l : t) (vars : variables) (x : list (list float))
    (independent : bool) : list (list float) * variables :=
  if independent then
    (normalize l x (moving_mean vars) (moving_variance vars), vars)
  else
    let batch_size := length x in
    let decay := pow (decay l) batch_size in
    let condition := after_first_call vars || Nat.eqb batch_size 0 in
    let mean := reduce_mean (features l) x in
    let mean :=
      if condition then blend decay (moving_mean vars) mean else mean in
    let variance := reduce_mean (features l) (squared_difference x mean) in
    let variance :=
      if condition then blend decay (moving_variance vars) variance
      else variance in
    let value := after_first_call vars || Nat.ltb 0 batch_size in
    (normalize l x mean variance,
     {| moving_mean := mean;
        moving_variance := variance;
        after_first_call := value |}).

(** A sequence of calls on the same layer, each with its own batch and
    mode; the variables are threaded through. *)
Definition apply_all (l : t) (vars : variables)
    (calls : list (list (list float) * bool)) : variables :=
  foldl (λ v c, (apply l v c.1 c.2).2) vars calls.

(** The variance of the batch around its own mean. *)
Definition batch_variance (n : nat) (x : list (list float)) : list float :=
  reduce_mean n (squared_difference x (reduce_mean n x)).

End ExponentialNormalization.

(** *** Graph-mode execution

    A [tf_function] body does not run its statements: it declares
    operations, and an operation runs once everything it takes as a data
    or control input has run. Nothing else orders two operations. *)

Module Dataflow.

Section graph.

Context {Op St Err : Type}.

(** A numbering of the operations, to compare them. *)
Variable tag : Op → nat.
(** The operations an operation takes as data or control inputs. *)
Variable inputs : Op → list Op.
(** What running an operation does to the state, or the error it
    raises. *)
Variable exec : Op → St → Err + St.
(** The operations of the graph. *)
Variable ops : list Op.

Definition mem (o : Op) (l : list Op) : bool :=
  existsb (λ o', Nat.eqb (tag o) (tag o')) l.

(** [o] can run next: it belongs to the graph, has not run, and all
    its inputs have run. *)
Definition ready (done : list Op) (o : Op) : bool :=
  mem o ops && negb (mem o done) && forallb (λ i, mem i done) (inputs o).

(** [sched] is an order in which the engine may run the whole graph,
    [done] having run already. *)
Fixpoint admissible (done sched : list Op) : bool :=
  match sched with
  | [] => forallb (λ o, mem o done) ops
  | o :: rest => ready done o && admissible (o :: done) rest
  end.

Inductive outcome : Type :=
| Returned (s : St)
| Raised (o : Op) (e : Err) (s : St).

(** Run the operations in the order given; the first error ends the
    run, in the state the operations before it have left. *)
Fixpoint execute (sched : list Op) (s : St) : outcome :=
  match sched with
  | [] => Returned s
  | o :: rest =>
      match exec o s with
      | inl e => Raised o e s
      | inr s' => execute rest s'
      end
  end.

(** The states a run goes through, the initial one first. *)
Fixpoint trace (sched : list Op) (s : St) : list St :=
  s :: match sched with
       | [] => []
       | o :: rest =>
           match exec o s with
           | inl _ => []
           | inr s' => trace rest s'
           end
       end.

(** The state a run ends in, returned or not. *)
Definition final (r : outcome) : St :=
  match r with
  | Returned s => s
  | Raised _ _ s => s
  end.

(** The position of an operation in a schedule. *)
Fixpoint position (o : Op) (sched : list Op) : option nat :=
  match sched with
  | [] => None
  | o' :: rest =>
      if Nat.eqb (tag o) (tag o') then Some 0
      else S <$> position o rest
  end.

(** [a] runs before [b] in [sched]. *)
Definition before (a b : Op) (sched : list Op) : bool :=
  match position a sched, position b sched with
  | Some i, Some j => Nat.ltb i j
  | _, _ => false
  end.

End graph.

Arguments Returned {Op St Err} s.
Arguments Raised {Op St Err} o e s.

End Dataflow.

(** *** model.py: [Model] *)

Module Model.

Record Config : Type := {
  create_tf_assertions : bool;
  enable_int_action_masking : bool
}.

Inductive dtype : Type := Float | Int | Bool.

(** The fields of an action's [TensorSpec] the model reads. *)
Record ActionSpec : Type := {
  action_type : dtype;
  action_rank : nat;
  action_num_values : option nat
}.

(** [auxiliaries[name]['mask']]: per sample, per element of the action,
    one flag per value. *)
Definition Mask : Type := list (list (list bool)).

(** What an assertion, a lookup or a kernel reports. *)
Inductive failure : Type :=
| InvalidInput (what : string)
| NoValidAction (name : string)
| MoreThanOneTerminal
| TerminalNotLast
| InvalidAction
| ActionMaskCheck (name : string)
| KeyError (name : string)
| AssertionError (what : string)
| IndexOutOfRange
| StructureMismatch
| NotComputed.

(** The parts of a model that live outside [model.py]: the two hooks of
    the algorithm layer, and [tf_assert] of each [TensorSpec] /
    [TensorsSpec], which says whether a tensor has the shape, type and
    bounds of its spec for a batch size. *)
Class Hooks (States Actions V : Type) : Type := {
  core_act :
    States → gmap string (list V) → gmap string Mask → list nat → bool →
    Actions * gmap string (list V);
  core_observe : list nat → list float → nat → bool;
  states_assert : States → nat → bool;
  internals_assert : gmap string (list V) → nat → bool;
  auxiliaries_assert : gmap string Mask → nat → bool;
  parallel_assert : list nat → nat → bool;
  parallel_assert_unbatched : nat → bool;
  terminal_assert : list nat → nat → bool;
  reward_assert : list float → nat → bool;
  actions_assert : Actions → nat → bool;
  (** the values of an int action: per sample, per element *)
  int_action : Actions → string → list (list nat);
  (** [tf.shape(input=states.value())[0]] *)
  states_batch_size : States → nat
}.

Inductive unit_name : Type := UnitTimesteps | UnitEpisodes | UnitUpdates.

(** The saver as [initialize] reads it: [saver['directory']],
    [saver.get('filename', self.name)], [saver.get('unit', 'updates')]. *)
Record Saver : Type := {
  saver_directory : string;
  saver_filename : string;
  saver_unit : unit_name
}.

(** The model as [__init__] leaves it. [internals_init] holds, per
    internal variable, its initial value. *)
Record t (V : Type) : Type := {
  name : string;
  config : Config;
  actions_spec : list (string * ActionSpec);
  internals_init : gmap string V;
  parallel_interactions : nat;
  saver : option Saver
}.
Arguments name {V} _.
Arguments saver {V} _.
Arguments config {V} _.
Arguments actions_spec {V} _.
Arguments internals_init {V} _.
Arguments parallel_interactions {V} _.

(** The variables [core_initialize] creates. A buffer of
    [previous_internals] has one entry per slot. *)
Record variables (V : Type) : Type := {
  timesteps : Z;
  episodes : Z;
  updates : Z;
  episode_reward : list float;
  previous_internals : gmap string (list V)
}.
Arguments timesteps {V} _.
Arguments episodes {V} _.
Arguments updates {V} _.
Arguments episode_reward {V} _.
Arguments previous_internals {V} _.

(** How [self.variable] is called for each of them. *)
Inductive variable_ref : Type :=
| Timesteps
| Episodes
| Updates
| EpisodeReward
| Buffer (name : string).

Record declaration : Type := {
  variable_name : string;
  is_trainable : bool;
  is_saved : bool
}.

Definition slash : Ascii.ascii := Ascii.ascii_of_nat 47.
Definition underscore : Ascii.ascii := Ascii.ascii_of_nat 95.

(** [name.replace('/', '_')] *)
Fixpoint replace_slash (s : string) : string :=
  match s with
  | EmptyString => EmptyString
  | String c rest =>
      String (if Ascii.eqb c slash then underscore else c)
        (replace_slash rest)
  end.

(** The [name], [is_trainable] and [is_saved] arguments in
    [core_initialize]. *)
Definition declared (r : variable_ref) : declaration :=
  match r with
  | Timesteps =>
      {| variable_name := "timesteps"; is_trainable := false;
         is_saved := true |}
  | Episodes =>
      {| variable_name := "episodes"; is_trainable := false;
         is_saved := true |}
  | Updates =>
      {| variable_name := "updates"; is_trainable := false;
         is_saved := true |}
  | EpisodeReward =>
      {| variable_name := "episode-reward"; is_trainable := false;
         is_saved := false |}
  | Buffer name =>
      {| variable_name := replace_slash name +:+ "-buffer";
         is_trainable := false; is_saved := false |}
  end.

Definition check (passes : bool) (e : failure) : list failure :=
  if passes then [] else [e].

(** [tf.reduce_all(tf.math.reduce_any(mask, axis=(spec.rank + 1)))] *)
Definition mask_valid (mask : Mask) : bool :=
  forallb (forallb (existsb id)) mask.

(** [tf.math.count_nonzero(input=terminal)] *)
Definition count_nonzero (terminal : list nat) : nat :=
  length (filter (λ v, v ≠ 0) terminal).

(** [tf.concat(values=([zero], terminal), axis=0)[-1] > zero] *)
Definition is_terminal (terminal : list nat) : bool :=
  Nat.ltb 0 (List.last (0 :: terminal) 0).

(** [tf.math.reduce_any(tf.math.greater(x=terminal, y=zero))] *)
Definition any_terminal (terminal : list nat) : bool :=
  existsb (Nat.ltb 0) terminal.

(** [tf.math.reduce_sum(input_tensor=reward)] *)
Definition reduce_sum (reward : list float) : float :=
  foldl PrimFloat.add 0%float reward.

#[global] Instance float_inhabited : Inhabited float := populate 0%float.

Section entry_points.

Context {States Actions V : Type}.
Context `{!Hooks States Actions V} `{!Inhabited V}.

(** [core_initialize]: zero counters, a zero reward per slot, and per
    internal variable a buffer of [parallel_interactions] copies of its
    initial value ([np.tile]). *)
Definition core_initialize (m : t V) : variables V :=
  {| timesteps := 0;
     episodes := 0;
     updates := 0;
     episode_reward := replicate (parallel_interactions m) 0%float;
     previous_internals :=
       (λ initial, replicate (parallel_interactions m) initial)
         <$> internals_init m |}.

(** The shapes [core_initialize] gives the variables; no entry point
    changes them. *)
Definition well_formed (m : t V) (vars : variables V) : Prop :=
  length (episode_reward vars) = parallel_interactions m
  ∧ dom (previous_internals vars) = dom (internals_init m)
  ∧ map_Forall (λ _ buf, length buf = parallel_interactions m)
      (previous_internals vars).

(** The names of [self.auxiliaries_spec], as [__init__] derives them. *)
Definition auxiliaries_spec (m : t V) : list string :=
  omap (λ a : string * ActionSpec,
          if enable_int_action_masking (config m) then
            match action_type a.2, action_num_values a.2 with
            | Int, Some _ => Some a.1
            | _, _ => None
            end
          else None)
    (actions_spec m).

(** The "Mask assertions" loop of [act] and [independent_act]. *)
Definition mask_assertions (m : t V) (auxiliaries : gmap string Mask)
    : list failure :=
  if enable_int_action_masking (config m) then
    flat_map (λ a : string * ActionSpec,
                match action_type a.2 with
                | Int =>
                    match auxiliaries !! a.1 with
                    | Some mask => check (mask_valid mask) (NoValidAction a.1)
                    | None => [KeyError a.1]
                    end
                | _ => []
                end)
      (actions_spec m)
  else [].

(** The input assertions of [act] that do not hold. *)
Definition act_input_assertions (m : t V) (states : States)
    (auxiliaries : gmap string Mask) (parallel : list nat) : list failure :=
  let batch_size := length parallel in
  if create_tf_assertions (config m) then
    check (states_assert states batch_size) (InvalidInput "state")
    ++ check (auxiliaries_assert auxiliaries batch_size)
         (InvalidInput "auxiliaries")
    ++ check (parallel_assert parallel batch_size) (InvalidInput "parallel")
    ++ mask_assertions m auxiliaries
  else [].

(** [tf.gather(params=mask, indices=action, batch_dims=...)] followed by
    [tf.reduce_all]: every chosen value is flagged valid. *)
Definition chosen_valid (mask : Mask) (action : list (list nat)) : bool :=
  forallb (λ sample : list (list bool) * list nat,
             forallb (λ e : list bool * nat, default false (e.1 !! e.2))
               (zip sample.1 sample.2))
    (zip mask action).

(** The action assertions of [act] that do not hold. *)
Definition act_action_assertions (m : t V) (auxiliaries : gmap string Mask)
    (actions : Actions) (batch_size : nat) : list failure :=
  if create_tf_assertions (config m) then
    check (actions_assert actions batch_size) InvalidAction
    ++ (if enable_int_action_masking (config m) then
          flat_map (λ a : string * ActionSpec,
                      match action_type a.2 with
                      | Int =>
                          match auxiliaries !! a.1 with
                          | Some mask =>
                              check (chosen_valid mask (int_action actions a.1))
                                (ActionMaskCheck a.1)
                          | None => [KeyError a.1]
                          end
                      | _ => []
                      end)
            (actions_spec m)
        else [])
  else [].

(** [tf.gather(params=x, indices=parallel)] *)
Definition gather (buffer : list V) (parallel : list nat) : list V :=
  (λ p, buffer !!! p) <$> parallel.

(** [previous.scatter_update(tf.IndexedSlices(values, indices))]: the
    rows are written in turn, so the last one wins on a repeated
    index. *)
Definition scatter_update (buffer : list V) (parallel : list nat)
    (values : list V) : list V :=
  foldl (λ b (w : nat * V), <[w.1 := w.2]> b) buffer (zip parallel values).

Definition in_range (m : t V) (parallel : list nat) : bool :=
  forallb (λ p, Nat.ltb p (parallel_interactions m)) parallel.

(** **** [act] *)

(** The operations [act] declares. *)
Inductive act_op : Type :=
| ActInputAssertions
| ActGather
| ActCore
| ActActionAssertions
| ActScatter
| ActIncrement
| ActReturn.

Definition act_tag (o : act_op) : nat :=
  match o with
  | ActInputAssertions => 0
  | ActGather => 1
  | ActCore => 2
  | ActActionAssertions => 3
  | ActScatter => 4
  | ActIncrement => 5
  | ActReturn => 6
  end.

(** What each operation waits for:
    - the gather and [core_act] are declared under
      [tf.control_dependencies(assertions)];
    - the action assertions and the scatter-writes read tensors
      [core_act] returns;
    - the increment is declared under
      [tf.control_dependencies(actions.flatten() + internals.flatten())];
    - the returned tensors are declared under
      [tf.control_dependencies(dependencies + assertions)]. *)
Definition act_inputs (o : act_op) : list act_op :=
  match o with
  | ActInputAssertions => []
  | ActGather => [ActInputAssertions]
  | ActCore => [ActInputAssertions; ActGather]
  | ActActionAssertions => [ActCore]
  | ActScatter => [ActCore]
  | ActIncrement => [ActCore]
  | ActReturn => [ActCore; ActScatter; ActIncrement; ActActionAssertions]
  end.

(** The program order of the declarations. *)
Definition act_ops : list act_op :=
  [ActInputAssertions; ActGather; ActCore; ActActionAssertions;
   ActScatter; ActIncrement; ActReturn].

(** The variables and the tensors computed so far. *)
Record act_state : Type := {
  act_vars : variables V;
  act_gathered : option (gmap string (list V));
  act_core : option (Actions * gmap string (list V));
  act_result : option (Actions * Z)
}.

Definition act_start (vars : variables V) : act_state :=
  {| act_vars := vars; act_gathered := None; act_core := None;
     act_result := None |}.

Definition act_exec (m : t V) (states : States)
    (auxiliaries : gmap string Mask) (parallel : list nat)
    (o : act_op) (s : act_state) : list failure + act_state :=
  let batch_size := length parallel in
  match o with
  | ActInputAssertions =>
      match act_input_assertions m states auxiliaries parallel with
      | [] => inr s
      | violated => inl violated
      end
  | ActGather =>
      if in_range m parallel then
        inr {| act_vars := act_vars s;
               act_gathered :=
                 Some ((λ buffer, gather buffer parallel)
                         <$> previous_internals (act_vars s));
               act_core := act_core s;
               act_result := act_result s |}
      else inl [IndexOutOfRange]
  | ActCore =>
      match act_gathered s with
      | Some internals =>
          inr {| act_vars := act_vars s;
                 act_gathered := act_gathered s;
                 act_core :=
                   Some (core_act states internals auxiliaries parallel false);
                 act_result := act_result s |}
      | None => inl [NotComputed]
      end
  | ActActionAssertions =>
      match act_core s with
      | Some (actions, _) =>
          match act_action_assertions m auxiliaries actions batch_size with
          | [] => inr s
          | violated => inl violated
          end
      | None => inl [NotComputed]
      end
  | ActScatter =>
      match act_core s with
      | Some (_, internals) =>
          inr {| act_vars :=
                   {| timesteps := timesteps (act_vars s);
                      episodes := episodes (act_vars s);
                      updates := updates (act_vars s);
                      episode_reward := episode_reward (act_vars s);
                      previous_internals :=
                        map_zip_with
                          (λ previous internal,
                             scatter_update previous parallel internal)
                          (previous_internals (act_vars s)) internals |};
                 act_gathered := act_gathered s;
                 act_core := act_core s;
                 act_result := act_result s |}
      | None => inl [NotComputed]
      end
  | ActIncrement =>
      inr {| act_vars :=
               {| timesteps := timesteps (act_vars s) + Z.of_nat batch_size;
                  episodes := episodes (act_vars s);
                  updates := updates (act_vars s);
                  episode_reward := episode_reward (act_vars s);
                  previous_internals := previous_internals (act_vars s) |};
             act_gathered := act_gathered s;
             act_core := act_core s;
             act_result := act_result s |}
  | ActReturn =>
      match act_core s with
      | Some (actions, _) =>
          inr {| act_vars := act_vars s;
                 act_gathered := act_gathered s;
                 act_core := act_core s;
                 act_result := Some (actions, timesteps (act_vars s)) |}
      | None => inl [NotComputed]
      end
  end.

(** [sched] is an order in which the engine may run [act]. *)
Definition act_admissible (sched : list act_op) : bool :=
  Dataflow.admissible act_tag act_inputs act_ops [] sched.

(** [act] run in the order [sched]. *)
Definition act_run (m : t V) (vars : variables V) (states : States)
    (auxiliaries : gmap string Mask) (parallel : list nat)
    (sched : list act_op) : Dataflow.outcome :=
  Dataflow.execute (act_exec m states auxiliaries parallel) sched
    (act_start vars).

(** [Model.act], run in program order. *)
Definition act (m : t V) (vars : variables V) (states : States)
    (auxiliaries : gmap string Mask) (parallel : list nat)
    : Dataflow.outcome :=
  act_run m vars states auxiliaries parallel act_ops.

(** **** [independent_act] *)

Inductive independent_act_op : Type :=
| IndInputAssertions
| IndCore
| IndReturn.

Definition independent_act_tag (o : independent_act_op) : nat :=
  match o with
  | IndInputAssertions => 0
  | IndCore => 1
  | IndReturn => 2
  end.

(** [core_act] is declared under [tf.control_dependencies(assertions)];
    the returned tensors are its outputs. *)
Definition independent_act_inputs (o : independent_act_op)
    : list independent_act_op :=
  match o with
  | IndInputAssertions => []
  | IndCore => [IndInputAssertions]
  | IndReturn => [IndCore]
  end.

Definition independent_act_ops : list independent_act_op :=
  [IndInputAssertions; IndCore; IndReturn].

Record independent_act_state : Type := {
  ind_vars : variables V;
  ind_core : option (Actions * gmap string (list V));
  ind_result : option (Actions * option (gmap string (list V)))
}.

Definition independent_act_start (vars : variables V)
    : independent_act_state :=
  {| ind_vars := vars; ind_core := None; ind_result := None |}.

(** The input assertions of [independent_act] that do not hold. *)
Definition independent_act_input_assertions (m : t V) (states : States)
    (internals : gmap string (list V)) (auxiliaries : gmap string Mask)
    : list failure :=
  let batch_size := states_batch_size states in
  if create_tf_assertions (config m) then
    check (states_assert states batch_size) (InvalidInput "state")
    ++ check (internals_assert internals batch_size)
         (InvalidInput "internals")
    ++ check (auxiliaries_assert auxiliaries batch_size)
         (InvalidInput "auxiliaries")
    ++ mask_assertions m auxiliaries
  else [].

Definition independent_act_exec (m : t V) (states : States)
    (internals : gmap string (list V)) (auxiliaries : gmap string Mask)
    (o : independent_act_op) (s : independent_act_state)
    : list failure + independent_act_state :=
  match o with
  | IndInputAssertions =>
      match independent_act_input_assertions m states internals
              auxiliaries with
      | [] => inr s
      | violated => inl violated
      end
  | IndCore =>
      inr {| ind_vars := ind_vars s;
             ind_core :=
               Some (core_act states internals auxiliaries [0] true);
             ind_result := ind_result s |}
  | IndReturn =>
      match ind_core s with
      | Some (actions, internals') =>
          inr {| ind_vars := ind_vars s;
                 ind_core := ind_core s;
                 ind_result :=
                   Some (actions,
                         if Nat.ltb 0 (size (internals_init m))
                         then Some internals' else None) |}
      | None => inl [NotComputed]
      end
  end.

Definition independent_act_admissible (sched : list independent_act_op)
    : bool :=
  Dataflow.admissible independent_act_tag independent_act_inputs
    independent_act_ops [] sched.

(** The defaults of the optional arguments: [internals=None] asserts
    [len(self.internals_spec) == 0], [auxiliaries=None] asserts
    [len(self.auxiliaries_spec) == 0]. *)
Definition independent_act_arguments (m : t V)
    (internals : option (gmap string (list V)))
    (auxiliaries : option (gmap string Mask))
    : failure + gmap string (list V) * gmap string Mask :=
  match
    match internals with
    | Some i => inr i
    | None =>
        if Nat.eqb (size (internals_init m)) 0 then inr ∅
        else inl (AssertionError "internals")
    end
  with
  | inl e => inl e
  | inr i =>
      match auxiliaries with
      | Some a => inr (i, a)
      | None =>
          if Nat.eqb (length (auxiliaries_spec m)) 0 then inr (i, ∅)
          else inl (AssertionError "auxiliaries")
      end
  end.

(** [independent_act] run in the order [sched]. *)
Definition independent_act_run (m : t V) (vars : variables V)
    (states : States) (internals : option (gmap string (list V)))
    (auxiliaries : option (gmap string Mask))
    (sched : list independent_act_op) : failure + Dataflow.outcome :=
  match independent_act_arguments m internals auxiliaries with
  | inl e => inl e
  | inr (i, a) =>
      inr (Dataflow.execute (independent_act_exec m states i a) sched
             (independent_act_start vars))
  end.

(** [Model.independent_act], run in program order. *)
Definition independent_act (m : t V) (vars : variables V)
    (states : States) (internals : option (gmap string (list V)))
    (auxiliaries : option (gmap string Mask))
    : failure + Dataflow.outcome :=
  independent_act_run m vars states internals auxiliaries
    independent_act_ops.

(** **** [observe]

    The two summary writes of [observe] (the mean reward of the batch, and
    the episode reward on a terminal) go to the summarizer and touch no
    variable; they are not part of the embedding. *)

Inductive observe_op : Type :=
| ObsInputAssertions
| ObsEpisodeReward
| ObsCore
| ObsHandleTerminal
| ObsReturn.

Definition observe_tag (o : observe_op) : nat :=
  match o with
  | ObsInputAssertions => 0
  | ObsEpisodeReward => 1
  | ObsCore => 2
  | ObsHandleTerminal => 3
  | ObsReturn => 4
  end.

(** The reward update and [core_observe] are declared under
    [tf.control_dependencies(assertions)], the terminal handling under
    [tf.control_dependencies(dependencies)] (both of them), the
    returned tensors under
    [tf.control_dependencies((handle_terminal,))]. *)
Definition observe_inputs (o : observe_op) : list observe_op :=
  match o with
  | ObsInputAssertions => []
  | ObsEpisodeReward => [ObsInputAssertions]
  | ObsCore => [ObsInputAssertions]
  | ObsHandleTerminal => [ObsEpisodeReward; ObsCore]
  | ObsReturn => [ObsCore; ObsHandleTerminal]
  end.

Definition observe_ops : list observe_op :=
  [ObsInputAssertions; ObsEpisodeReward; ObsCore; ObsHandleTerminal;
   ObsReturn].

Record observe_state : Type := {
  obs_vars : variables V;
  obs_updated : option bool;
  obs_result : option (bool * Z * Z)
}.

Definition observe_start (vars : variables V) : observe_state :=
  {| obs_vars := vars; obs_updated := None; obs_result := None |}.

(** The input assertions of [observe] that do not hold. *)
Definition observe_input_assertions (m : t V) (terminal : list nat)
    (reward : list float) (parallel : nat) : list failure :=
  let batch_size := length terminal in
  if create_tf_assertions (config m) then
    check (terminal_assert terminal batch_size) (InvalidInput "terminal")
    ++ check (reward_assert reward batch_size) (InvalidInput "reward")
    ++ check (parallel_assert_unbatched parallel) (InvalidInput "parallel")
    ++ check (Nat.leb (count_nonzero terminal) 1) MoreThanOneTerminal
    ++ check (Bool.eqb (any_terminal terminal) (is_terminal terminal))
         TerminalNotLast
  else [].

(** "Update episode reward": [scatter_add] of the summed reward at the
    slot. *)
Definition add_episode_reward (reward : list float) (parallel : nat)
    (vars : variables V) : variables V :=
  {| timesteps := timesteps vars;
     episodes := episodes vars;
     updates := updates vars;
     episode_reward :=
       alter (λ r, PrimFloat.add r (reduce_sum reward)) parallel
         (episode_reward vars);
     previous_internals := previous_internals vars |}.

(** [fn_terminal]: the slot of every buffer goes back to the initial
    value, the slot of the reward to zero, and one episode is
    counted. *)
Definition fn_terminal (m : t V) (parallel : nat) (vars : variables V)
    : variables V :=
  {| timesteps := timesteps vars;
     episodes := episodes vars + 1;
     updates := updates vars;
     episode_reward := <[parallel := 0%float]> (episode_reward vars);
     previous_internals :=
       map_zip_with (λ previous initial, <[parallel := initial]> previous)
         (previous_internals vars) (internals_init m) |}.

Definition observe_exec (m : t V) (terminal : list nat)
    (reward : list float) (parallel : nat)
    (o : observe_op) (s : observe_state) : list failure + observe_state :=
  match o with
  | ObsInputAssertions =>
      match observe_input_assertions m terminal reward parallel with
      | [] => inr s
      | violated => inl violated
      end
  | ObsEpisodeReward =>
      if Nat.ltb parallel (parallel_interactions m) then
        inr {| obs_vars := add_episode_reward reward parallel (obs_vars s);
               obs_updated := obs_updated s;
               obs_result := obs_result s |}
      else inl [IndexOutOfRange]
  | ObsCore =>
      inr {| obs_vars := obs_vars s;
             obs_updated := Some (core_observe terminal reward parallel);
             obs_result := obs_result s |}
  | ObsHandleTerminal =>
      inr {| obs_vars :=
               if is_terminal terminal
               then fn_terminal m parallel (obs_vars s)
               else obs_vars s;
             obs_updated := obs_updated s;
             obs_result := obs_result s |}
  | ObsReturn =>
      match obs_updated s with
      | Some updated =>
          inr {| obs_vars := obs_vars s;
                 obs_updated := obs_updated s;
                 obs_result :=
                   Some (updated, episodes (obs_vars s),
                         updates (obs_vars s)) |}
      | None => inl [NotComputed]
      end
  end.

Definition observe_admissible (sched : list observe_op) : bool :=
  Dataflow.admissible observe_tag observe_inputs observe_ops [] sched.

(** [observe] run in the order [sched]. *)
Definition observe_run (m : t V) (vars : variables V)
    (terminal : list nat) (reward : list float) (parallel : nat)
    (sched : list observe_op) : Dataflow.outcome :=
  Dataflow.execute (observe_exec m terminal reward parallel) sched
    (observe_start vars).

(** [Model.observe], run in program order. *)
Definition observe (m : t V) (vars : variables V) (terminal : list nat)
    (reward : list float) (parallel : nat) : Dataflow.outcome :=
  observe_run m vars terminal reward parallel observe_ops.

(** [reset] *)
Definition reset (vars : variables V) : Z * Z * Z :=
  (timesteps vars, episodes vars, updates vars).

(** **** The orders the dependencies admit *)

(** [act]: the action assertions, the scatter-writes and the increment
    wait for [core_act] only, so they come in any order. *)
Definition act_orders : list (list act_op) :=
  [ [ActInputAssertions; ActGather; ActCore; ActActionAssertions;
     ActScatter; ActIncrement; ActReturn];
    [ActInputAssertions; ActGather; ActCore; ActActionAssertions;
     ActIncrement; ActScatter; ActReturn];
    [ActInputAssertions; ActGather; ActCore; ActScatter;
     ActActionAssertions; ActIncrement; ActReturn];
    [ActInputAssertions; ActGather; ActCore; ActScatter; ActIncrement;
     ActActionAssertions; ActReturn];
    [ActInputAssertions; ActGather; ActCore; ActIncrement;
     ActActionAssertions; ActScatter; ActReturn];
    [ActInputAssertions; ActGather; ActCore; ActIncrement; ActScatter;
     ActActionAssertions; ActReturn] ].

(** [observe]: the reward update and [core_observe] may swap. *)
Definition observe_orders : list (list observe_op) :=
  [ [ObsInputAssertions; ObsEpisodeReward; ObsCore; ObsHandleTerminal;
     ObsReturn];
    [ObsInputAssertions; ObsCore; ObsEpisodeReward; ObsHandleTerminal;
     ObsReturn] ].

(** What slot [j] holds: its accumulated reward and its entry in each
    buffer. *)
Definition slot (j : nat) (vars : variables V)
    : option float * gmap string (option V) :=
  (episode_reward vars !! j,
   (λ buffer : list V, buffer !! j) <$> previous_internals vars).

End entry_points.

(** **** [save] and [restore] *)

Section persistence.

Context {V : Type}.

(** The content of a variable. *)
Inductive value : Type :=
| IntValue (z : Z)
| FloatArray (l : list float)
| BufferValue (l : list V).

Definition read (r : variable_ref) (vars : variables V) : option value :=
  match r with
  | Timesteps => Some (IntValue (timesteps vars))
  | Episodes => Some (IntValue (episodes vars))
  | Updates => Some (IntValue (updates vars))
  | EpisodeReward => Some (FloatArray (episode_reward vars))
  | Buffer name => BufferValue <$> previous_internals vars !! name
  end.

(** [variable.assign(value=...)] *)
Definition assign (r : variable_ref) (v : value) (vars : variables V)
    : variables V :=
  match r, v with
  | Timesteps, IntValue z =>
      {| timesteps := z; episodes := episodes vars;
         updates := updates vars; episode_reward := episode_reward vars;
         previous_internals := previous_internals vars |}
  | Episodes, IntValue z =>
      {| timesteps := timesteps vars; episodes := z;
         updates := updates vars; episode_reward := episode_reward vars;
         previous_internals := previous_internals vars |}
  | Updates, IntValue z =>
      {| timesteps := timesteps vars; episodes := episodes vars;
         updates := z; episode_reward := episode_reward vars;
         previous_internals := previous_internals vars |}
  | EpisodeReward, FloatArray l =>
      {| timesteps := timesteps vars; episodes := episodes vars;
         updates := updates vars; episode_reward := l;
         previous_internals := previous_internals vars |}
  | Buffer name, BufferValue l =>
      {| timesteps := timesteps vars; episodes := episodes vars;
         updates := updates vars; episode_reward := episode_reward vars;
         previous_internals := <[name := l]> (previous_internals vars) |}
  | _, _ => vars
  end.

(** The variables of a model, in the order [core_initialize] creates
    them. *)
Definition all_variables (vars : variables V) : list variable_ref :=
  [Timesteps; Episodes; Updates; EpisodeReward]
  ++ (Buffer <$> (map_to_list (previous_internals vars)).*1).

(** Modelled from the spec: [Module.saved_variables], which [model.py]
    reads and the base class [Module] computes. The spec calls a
    variable persisted when it is a saved variable, and not persisted
    when it is declared with [is_saved=False]. *)
Definition saved_variables (vars : variables V) : list variable_ref :=
  filter (λ r, is_saved (declared r) = true) (all_variables vars).

(** What a checkpoint or an archive holds: variables with their
    content. *)
Definition snapshot : Type := list (variable_ref * value).

(** What the loops of the formats 'numpy' and 'hdf5' collect, over
    [self.saved_variables]: the content of every saved variable. *)
Definition take_snapshot (vars : variables V) : snapshot :=
  omap (λ r, pair r <$> read r vars) (saved_variables vars).

(** Modelled from the spec: what [self.checkpoint.save] writes, the
    engine's [tf.train.Checkpoint] built over the whole module, passed
    to it under its name (line 728). The spec calls the
    checkpoint a full recursive variable-tree snapshot: it holds the
    content of every variable of the module, whatever its [is_saved];
    [save] does not read [self.saved_variables] for it. *)
Definition take_checkpoint (vars : variables V) : snapshot :=
  omap (λ r, pair r <$> read r vars) (all_variables vars).

(** Modelled from the spec: [Module.restore] of the base class, called
    as [super().restore]: every variable of the snapshot is assigned
    its stored content. *)
Definition load_snapshot (snap : snapshot) (vars : variables V)
    : variables V :=
  foldl (λ v (e : variable_ref * value), assign e.1 e.2 v) vars snap.

Inductive TensorforceError : Type :=
| Required (name argument : string)
| Value (name argument value : string)
| Condition (name argument condition : string)
| NotFound (path : string).

(** What [save] leaves on disk. *)
Inductive file : Type :=
| CheckpointFile (snap : snapshot)
| ArchiveFile (snap : snapshot)
| SavedModelExport.

(** [os.path.join] *)
Definition join (directory filename : string) : string :=
  directory +:+ "/" +:+ filename.

(** [self.units[append]] *)
Definition units (vars : variables V) (u : unit_name) : Z :=
  match u with
  | UnitTimesteps => timesteps vars
  | UnitEpisodes => episodes vars
  | UnitUpdates => updates vars
  end.

(** [Model.save]: the path handed to the writer and what is written
    there. Without [directory] and [filename] the checkpoint format
    goes through the saver's [CheckpointManager], numbered by the
    saver's unit or by [append]. *)
Definition save (m : t V) (vars : variables V)
    (directory filename : option string) (format : string)
    (append : option unit_name) : TensorforceError + string * file :=
  match directory, filename, String.eqb format "checkpoint" with
  | None, None, true =>
      match saver m with
      | None => inl (Required "Model.save" "directory")
      | Some sv =>
          let number := units vars (default (saver_unit sv) append) in
          inr (join (saver_directory sv)
                 (saver_filename sv +:+ "-" +:+ pretty number),
               CheckpointFile (take_checkpoint vars))
      end
  | None, _, _ => inl (Required "Model.save" "directory")
  | Some directory, _, _ =>
      let filename := default (name m) filename in
      let filename :=
        match append with
        | Some u => filename +:+ "-" +:+ pretty (units vars u)
        | None => filename
        end in
      if String.eqb format "saved-model" then
        inr (join directory filename, SavedModelExport)
      else if String.eqb format "checkpoint" then
        inr (join directory filename, CheckpointFile (take_checkpoint vars))
      else if String.eqb format "numpy" then
        inr (join directory filename +:+ ".npz",
             ArchiveFile (take_snapshot vars))
      else if String.eqb format "hdf5" then
        inr (join directory filename +:+ ".hdf5",
             ArchiveFile (take_snapshot vars))
      else inl (Value "Model.save" "format" format)
  end.

(** [Model.restore]. [stored] is the content of the disk, [latest] the
    file name [tf.train.latest_checkpoint] finds in a directory. The
    result is the variables after the call and the three counters
    [reset] reads back. *)
Definition restore (m : t V) (vars : variables V)
    (stored : string → option file) (latest : string → option string)
    (directory filename : option string) (format : string)
    : TensorforceError + variables V * (Z * Z * Z) :=
  let finish (vars' : variables V) :=
    inr (vars', (timesteps vars', episodes vars', updates vars')) in
  if String.eqb format "checkpoint" then
    match (match directory with
           | Some d => Some d
           | None => saver_directory <$> saver m
           end) with
    | None => inl (Required "Model.save" "directory")
    | Some directory =>
        match (match filename with
               | Some f => Some f
               | None => latest directory
               end) with
        | None => inl (NotFound directory)
        | Some filename =>
            match stored (join directory filename) with
            | Some (CheckpointFile snap) => finish (load_snapshot snap vars)
            | _ => inl (NotFound (join directory filename))
            end
        end
    end
  else if String.eqb format "saved-model" then
    inl (Value "Model.load" "format" format)
  else if String.eqb format "numpy" then
    match directory, filename with
    | None, _ => inl (Condition "Model.load" "directory" "format is numpy")
    | _, None => inl (Condition "Model.load" "filename" "format is numpy")
    | Some directory, Some filename =>
        match stored (join directory filename +:+ ".npz") with
        | Some (ArchiveFile snap) => finish (load_snapshot snap vars)
        | _ => inl (NotFound (join directory filename +:+ ".npz"))
        end
    end
  else if String.eqb format "hdf5" then
    match directory, filename with
    | None, _ => inl (Condition "Model.load" "directory" "format is hdf5")
    | _, None => inl (Condition "Model.load" "filename" "format is hdf5")
    | Some directory, Some filename =>
        let path := join directory filename in
        let path :=
          match stored (path +:+ ".hdf5") with
          | Some _ => path +:+ ".hdf5"
          | None => path +:+ ".h5"
          end in
        match stored path with
        | Some (ArchiveFile snap) => finish (load_snapshot snap vars)
        | _ => inl (NotFound path)
        end
    end
  else inl (Value "Model.load" "format" format).

End persistence.

End Model.

(** *** The claims of the specification, as predicates *)

Module Spec.

Import Model.

(** More than one terminal flag is set in the batch. *)
Definition more_than_one_terminal (terminal : list nat) : Prop :=
  1 < count_nonzero terminal.

(** A terminal flag is set at a position that is not the last one. *)
Definition terminal_before_last (terminal : list nat) : Prop :=
  ∃ i v, terminal !! i = Some v ∧ v ≠ 0 ∧ S i < length terminal.

(** Some element of some sample of the mask has no valid value; a sample
    whose mask is all false is such a sample. *)
Definition no_valid_action (mask : Mask) : Prop :=
  ∃ sample row,
    sample ∈ mask ∧ row ∈ sample ∧ Forall (λ b : bool, b = false) row.


(** The stored variance a later call would leave if it blended in the
    variance of the batch around the batch mean. *)
Definition variance_blended_with_batch_variance
    (l : ExponentialNormalization.t)
    (vars : ExponentialNormalization.variables)
    (x : list (list float)) : list float :=
  ExponentialNormalization.blend
    (ExponentialNormalization.pow (ExponentialNormalization.decay l)
       (length x))
    (ExponentialNormalization.moving_variance vars)
    (ExponentialNormalization.batch_variance
       (ExponentialNormalization.features l) x).

End Spec.

(** *** An algorithm layer to run the model with

    States carry their batch size only; the one int action is always 0;
    every internal state counts the calls of its slot; every [tf_assert]
    passes. *)

Module Example.

Import Model.

#[global] Instance hooks : Hooks nat (list nat) nat := {|
  core_act := λ _ internals _ parallel _,
    (replicate (length parallel) 0, (λ l : list nat, S <$> l) <$> internals);
  core_observe := λ _ _ _, false;
  states_assert := λ _ _, true;
  internals_assert := λ _ _, true;
  auxiliaries_assert := λ _ _, true;
  parallel_assert := λ _ _, true;
  parallel_assert_unbatched := λ _, true;
  terminal_assert := λ _ _, true;
  reward_assert := λ _ _, true;
  actions_assert := λ _ _, true;
  int_action := λ actions _, (λ a, [a]) <$> actions;
  states_batch_size := λ n, n
|}.

Definition config_with (assertions : bool) : Config :=
  {| create_tf_assertions := assertions;
     enable_int_action_masking := true |}.

(** Two slots, one masked int action with three values, one internal
    variable starting from 0. *)
Definition model (assertions : bool) : t nat :=
  {| name := "agent";
     config := config_with assertions;
     actions_spec :=
       [("action",
         {| action_type := Int; action_rank := 0;
            action_num_values := Some 3 |})];
     internals_init := {["state" := 0]};
     parallel_interactions := 2;
     saver := None |}.


Definition all_valid : gmap string Mask :=
  {["action" := [[[true; true; true]]]]}.

Definition none_valid : gmap string Mask :=
  {["action" := [[[false; false; false]]]]}.

Definition layer : ExponentialNormalization.t :=
  {| ExponentialNormalization.decay := 0.5;
     ExponentialNormalization.features := 1;
     ExponentialNormalization.epsilon := 0x1p-20 |}.

(** A base class [Layer] whose constructor raises nothing. *)
#[global] Instance base : LinearNormalization.Layer Empty_set := {|
  LinearNormalization.layer_init := λ _ _ _, None
|}.


End Example.

(** *** Predicates for the properties of the layers *)

Module Range.

Import LinearNormalization.

(** A float, in the form [SpecFloat] specifies the operations on, that
    is neither a zero nor a NaN. *)
Definition SFnumber (x : spec_float) : Prop :=
  match x with
  | S754_finite _ _ _ | S754_infinity _ => True
  | _ => False
  end.

(** A float that is a zero or a finite number. *)
Definition SFfinite (x : spec_float) : Prop :=
  match x with
  | S754_zero _ | S754_finite _ _ _ => True
  | _ => False
  end.

(** The entry of an array that meets position [j] of an axis it is
    broadcast along: its only entry when it holds one, its entry at [j]
    otherwise. *)
Definition entry_at {A : Type} (a : list A) (j : nat) : option A :=
  match a with
  | [x] => Some x
  | _ => a !! j
  end.

(** The rows of a batch fit the bounds: each can be broadcast against
    them. *)
Definition fits (bounds : list (bound * bound)) (x : list (list float))
    : Prop :=
  Forall (λ row, ∃ cells, broadcast bounds row = inr cells) x.

(** [x] lies in the value range from [lo] to [hi], the bounds taken as
    floats of the graph. *)
Definition within (lo hi : bound) (x : float) : Prop :=
  PrimFloat.leb (constant lo) x = true ∧ PrimFloat.leb x (constant hi) = true.

(** The bounds a spec gives position [j]. *)
Definition bounds_at (spec : TensorSpec) (j : nat) : option (bound * bound) :=
  lo ← spec_min_value spec ≫= (λ b, entry_at b j);
  hi ← spec_max_value spec ≫= (λ b, entry_at b j);
  Some (lo, hi).

(** A call of [ExponentialNormalization.apply] commits statistics of its
    own batch: it runs in training mode on a batch that is not empty. *)
Definition commits (call : list (list float) * bool) : bool :=
  negb call.2 && Nat.ltb 0 (length call.1).

End Range.

(** *** What [Model] expects of the algorithm layer

    [core_act] "returns tensors matching [internals_spec]": an internal
    tensor for every internal variable. *)

Module Contract.

Import Model.

Section contract.

Context {States Actions V : Type}.
Context `{!Hooks States Actions V}.

(** [core_act] returns internals under the names it was given. *)
Definition keeps_names : Prop :=
  ∀ (states : States) (internals : gmap string (list V))
    (auxiliaries : gmap string Mask) (parallel : list nat)
    (independent : bool),
    dom (core_act states internals auxiliaries parallel independent).2
    = dom internals.

End contract.

End Contract.

(** *** What a call of [act] keeps *)

Module Frame.

Import Model.

Section frame.

Context {States Actions V : Type}.
Context `{!Hooks States Actions V} `{!Inhabited V}.

(** Relative to the variables [vars] a call of [act] started with: the
    episode counter, the update counter and the episode rewards are the
    same, and the timestep counter is not smaller. *)
Definition keeps_counters (vars : variables V) (s : @act_state Actions V) : Prop :=
  episodes (act_vars s) = episodes vars
  ∧ updates (act_vars s) = updates vars
  ∧ episode_reward (act_vars s) = episode_reward vars
  ∧ (timesteps vars ≤ timesteps (act_vars s))%Z.

(** Relative to [vars]: the same buffers exist, each with its length and
    with its entries at the slots outside [parallel]; the tensors computed
    so far carry the names of the buffers. *)
Definition keeps_buffers (vars : variables V) (parallel : list nat)
    (s : @act_state Actions V) : Prop :=
  dom (previous_internals (act_vars s)) = dom (previous_internals vars)
  ∧ (∀ name buffer,
       previous_internals (act_vars s) !! name = Some buffer →
       ∃ buffer0,
         previous_internals vars !! name = Some buffer0
         ∧ length buffer = length buffer0
         ∧ ∀ j, j ∉ parallel → buffer !! j = buffer0 !! j)
  ∧ (∀ gathered, act_gathered s = Some gathered →
       dom gathered = dom (previous_internals vars))
  ∧ (∀ core, act_core s = Some core →
       dom core.2 = dom (previous_internals vars)).

End frame.

End Frame.

(** *** model.py: [Model.initialize_api]

    [initialize] calls the three entry points once, on the empty tensors
    of their specs, for the engine to trace them. *)

Module Api.

Import Model.
Import Dataflow.

Section initialize_api.

Context {States Actions V : Type}.
Context `{!Hooks States Actions V} `{!Inhabited V}.

(** The order in which the engine runs the operations of each of the
    three functions. *)
Record orders : Type := {
  act_order : list (@act_op);
  independent_act_order : list (@independent_act_op);
  observe_order : list (@observe_op)
}.

(** The program order of each. *)
Definition program_orders : orders :=
  {| act_order := act_ops;
     independent_act_order := independent_act_ops;
     observe_order := observe_ops |}.

(** [initialize_api]. [states], [internals] and [auxiliaries] are
    [spec.empty(batched=True)] of the three specs; the batch of slots,
    of terminals and of rewards is empty, and the slot of [observe] is
    [parallel_spec.empty(batched=False)], slot 0. [independent_act] is
    given [internals] and [auxiliaries] only when the model has some.
    An error of one call ends [initialize_api]. The result is the
    variables at the end and the error raised, if any. (The graph
    summaries go to the summarizer and are not part of the
    embedding.) *)
Definition initialize_api (m : t V) (vars : variables V) (states : States)
    (internals : gmap string (list V)) (auxiliaries : gmap string Mask)
    (o : orders) : variables V * option (list failure) :=
  match act_run m vars states auxiliaries [] (act_order o) with
  | Raised _ e s => (act_vars s, Some e)
  | Returned s =>
      let vars := act_vars s in
      match
        independent_act_run m vars states
          (if Nat.ltb 0 (size (internals_init m)) then Some internals
           else None)
          (if Nat.ltb 0 (length (auxiliaries_spec m)) then Some auxiliaries
           else None)
          (independent_act_order o)
      with
      | inl e => (vars, Some [e])
      | inr (Raised _ e s) => (ind_vars s, Some e)
      | inr (Returned s) =>
          let vars := ind_vars s in
          match observe_run m vars [] [] 0 (observe_order o) with
          | Raised _ e s => (obs_vars s, Some e)
          | Returned s => (obs_vars s, None)
          end
      end
  end.

End initialize_api.

End Api.

(** *** model.py: [Model.__init__]

    The constructor checks its arguments one after the other and raises at
    the first that fails; the warnings it logs before that stay logged.
    The base class [Module] is not part of the file: of its constructor
    the embedding keeps that it stores the argument [l2_regularization]
    as [self.l2_regularization], [None] for [None], which the assertion
    of line 46 reads back. (The construction of the [TensorSpec] objects
    is not part of the embedding.) *)

Module ModelInit.

Import LinearNormalization.

(** A value of a [saver] or [summarizer] dict. *)
#[local] Unset Elimination Schemes.
Inductive pyvalue : Type :=
| PyNone
| PyBool (b : bool)
| PyInt (z : Z)
| PyStr (s : string)
| PySeq (l : list pyvalue).
#[local] Set Elimination Schemes.

(** A dict, its keys in insertion order. *)
Definition dict : Type := list (string * pyvalue).

(** [list(d)] *)
Definition keys (d : dict) : list string := d.*1.

(** [key in d] *)
Definition has_key (key : string) (d : dict) : bool :=
  bool_decide (key ∈ keys d).

(** [d.get(key, default)] *)
Fixpoint get (key : string) (default : pyvalue) (d : dict) : pyvalue :=
  match d with
  | [] => default
  | (k, v) :: rest => if String.eqb k key then v else get key default rest
  end.

(** The fields of a state's or an action's [TensorSpec] the constructor
    reads. A bound is an array; [None] is a bound not given. *)
Record TensorSpec : Type := {
  spec_type : Model.dtype;
  spec_shape : list nat;
  spec_min_value : option (list bound);
  spec_max_value : option (list bound);
  spec_num_values : option nat
}.

Inductive TensorforceError : Type :=
| Exists (name value : string)
| Message (text : string)
| Value (name argument : string) (value : pyvalue)
| Required (name argument : string)
| AssertionError
| TypeError.

(** [self.summary_labels]: the string 'all', or a frozenset. *)
Inductive labels : Type :=
| AllLabels
| Labels (which : gset string).

(** [self.summary_labels == 'all' or label in self.summary_labels], the
    test every summary of the model is written under. *)
Definition enabled (label : string) (l : labels) : bool :=
  match l with
  | AllLabels => true
  | Labels which => bool_decide (label ∈ which)
  end.

(** What the constructor leaves in the object. *)
Record built : Type := {
  value_names : gset string;
  states_spec : list (string * TensorSpec);
  actions_spec : list (string * TensorSpec);
  auxiliaries_spec : list (string * list nat);
  parallel_interactions : nat;
  saver : option dict;
  summarizer : option dict;
  summary_labels : labels
}.

(** [np.isinf(bound).any()] *)
Definition any_isinf (b : list bound) : bool := existsb isinf b.

(** The loop over the states: a float state without a finite bound is
    logged, the first finding only, and nothing is raised. *)
Definition state_warning (name : string) (spec : TensorSpec)
    : option string :=
  match spec_type spec with
  | Model.Float =>
      match spec_min_value spec with
      | None =>
          Some ("No min_value bound specified for state " +:+ name +:+ ".")
      | Some lo =>
          if any_isinf lo then
            Some ("Infinite min_value bound for state " +:+ name +:+ ".")
          else
            match spec_max_value spec with
            | None =>
                Some ("No max_value bound specified for state "
                      +:+ name +:+ ".")
            | Some hi =>
                if any_isinf hi then
                  Some ("Infinite max_value bound for state "
                        +:+ name +:+ ".")
                else None
            end
      end
  | _ => None
  end.

Definition states_warnings (states : list (string * TensorSpec))
    : list string :=
  omap (λ s : string * TensorSpec, state_warning s.1 s.2) states.

(** One turn of the loop over the actions: a bound not given is logged,
    an infinite bound is raised; as for the states, the branches are one
    [if]/[elif] chain. *)
Definition action_check (name : string) (spec : TensorSpec)
    : TensorforceError + option string :=
  match spec_type spec with
  | Model.Float =>
      match spec_min_value spec with
      | None => inr (Some ("No min_value specified for action "
                           +:+ name +:+ "."))
      | Some lo =>
          if any_isinf lo then
            inl (Message ("Infinite min_value bound for action "
                          +:+ name +:+ "."))
          else
            match spec_max_value spec with
            | None => inr (Some ("No max_value specified for action "
                                 +:+ name +:+ "."))
            | Some hi =>
                if any_isinf hi then
                  inl (Message ("Infinite max_value bound for action "
                                +:+ name +:+ "."))
                else inr None
            end
      end
  | _ => inr None
  end.

(** The loop over the actions: the warnings logged, and the error
    raised, if any. *)
Fixpoint actions_check (actions : list (string * TensorSpec))
    : list string * option TensorforceError :=
  match actions with
  | [] => ([], None)
  | (name, spec) :: rest =>
      match action_check name spec with
      | inl e => ([], Some e)
      | inr warning =>
          let '(log, raised) := actions_check rest in
          (option_list warning ++ log, raised)
      end
  end.

(** "Check for name collisions": each name in turn must be new, and is
    added. *)
Fixpoint add_names (names : list string) (value_names : gset string)
    : TensorforceError + gset string :=
  match names with
  | [] => inr value_names
  | name :: rest =>
      if bool_decide (name ∈ value_names) then
        inl (Exists "value name" name)
      else add_names rest ({[name]} ∪ value_names)
  end.

(** The names the constructor reserves before it reads the states. *)
Definition reserved : list string := ["terminal"; "reward"; "parallel"].

(** [self.auxiliaries_spec]: a mask for every int action with a number
    of values, when masking is enabled, of the shape of the action
    extended by the number of values. *)
Definition auxiliaries_of (config : Model.Config)
    (actions : list (string * TensorSpec)) : list (string * list nat) :=
  omap (λ a : string * TensorSpec,
          if Model.enable_int_action_masking config then
            match spec_type a.2, spec_num_values a.2 with
            | Model.Int, Some n => Some (a.1, spec_shape a.2 ++ [n])
            | _, _ => None
            end
          else None)
    actions.

Definition saver_keys : list string :=
  ["directory"; "filename"; "frequency"; "load"; "max_checkpoints";
   "max_hour_frequency"; "unit"].

Definition summarizer_keys : list string :=
  ["directory"; "flush"; "labels"; "max_summaries"].

(** [all(key in allowed for key in d)] *)
Definition all_keys_in (allowed : list string) (d : dict) : bool :=
  forallb (λ key, bool_decide (key ∈ allowed)) (keys d).

(** The saver argument. *)
Definition saver_check (saver : option dict)
    : TensorforceError + option dict :=
  match saver with
  | None => inr None
  | Some d =>
      if negb (all_keys_in saver_keys d) then
        inl (Value "agent" "saver" (PySeq (PyStr <$> keys d)))
      else if negb (has_key "directory" d) then
        inl (Required "agent" "saver[directory]")
      else if negb (has_key "frequency" d) then
        inl (Required "agent" "saver[frequency]")
      else inr (Some d)
  end.

(** [for label in summary_labels]: a string gives its characters, a
    sequence its elements; nothing else can be iterated. *)
Definition iterate (v : pyvalue) : option (list pyvalue) :=
  match v with
  | PyStr s =>
      Some ((λ c, PyStr (String c EmptyString)) <$> String.list_ascii_of_string s)
  | PySeq l => Some l
  | _ => None
  end.

(** [isinstance(label, str)], with the string. *)
Definition as_str (v : pyvalue) : option string :=
  match v with
  | PyStr s => Some s
  | _ => None
  end.

(** [summary_labels == 'all'] *)
Definition is_all (v : pyvalue) : bool :=
  match v with
  | PyStr s => String.eqb s "all"
  | _ => false
  end.

(** "Summary labels" *)
Definition labels_check (d : dict) : TensorforceError + labels :=
  let summary_labels := get "labels" (PySeq [PyStr "graph"]) d in
  if is_all summary_labels then inr AllLabels
  else
    match iterate summary_labels with
    | None => inl TypeError
    | Some elements =>
        match mapM as_str elements with
        | None => inl (Value "agent" "summarizer[labels]" summary_labels)
        | Some strings => inr (Labels (list_to_set strings))
        end
    end.

(** The summarizer argument. *)
Definition summarizer_check (summarizer : option dict)
    : TensorforceError + option dict * labels :=
  match summarizer with
  | None => inr (None, Labels ∅)
  | Some d =>
      if negb (all_keys_in summarizer_keys d) then
        inl (Value "agent" "summarizer" (PySeq (PyStr <$> keys d)))
      else if negb (has_key "directory" d) then
        inl (Required "agent" "summarizer[directory]")
      else
        match labels_check d with
        | inl e => inl e
        | inr l => inr (Some d, l)
        end
  end.

(** [Model.__init__]: the warnings logged, and the object built or the
    error raised. *)
Definition init (states actions : list (string * TensorSpec))
    (l2_regularization : option Q) (parallel_interactions : Z)
    (config : Model.Config) (saver summarizer : option dict)
    : list string * (TensorforceError + built) :=
  match l2_regularization with
  | None => ([], inl AssertionError)
  | Some _ =>
      let log := states_warnings states in
      match add_names (states.*1) (list_to_set reserved) with
      | inl e => (log, inl e)
      | inr names =>
          let '(warnings, raised) := actions_check actions in
          let log := log ++ warnings in
          match raised with
          | Some e => (log, inl e)
          | None =>
              match add_names (actions.*1) names with
              | inl e => (log, inl e)
              | inr names =>
                  if negb (Z.leb 1 parallel_interactions) then
                    (log, inl AssertionError)
                  else
                    match saver_check saver with
                    | inl e => (log, inl e)
                    | inr saver =>
                        match summarizer_check summarizer with
                        | inl e => (log, inl e)
                        | inr (summarizer, summary_labels) =>
                            (log,
                             inr {| value_names := names;
                                    states_spec := states;
                                    actions_spec := actions;
                                    auxiliaries_spec :=
                                      auxiliaries_of config actions;
                                    parallel_interactions :=
                                      Z.to_nat parallel_interactions;
                                    saver := saver;
                                    summarizer := summarizer;
                                    summary_labels := summary_labels |})
                        end
                    end
              end
          end
      end
  end.

(** The bounds of a float action that are in order: a lower bound that
    is given is finite, and so is then an upper bound that is given. *)
Definition bounds_pass (spec : TensorSpec) : Prop :=
  spec_type spec = Model.Float →
  ∀ lo, spec_min_value spec = Some lo →
    any_isinf lo = false
    ∧ ∀ hi, spec_max_value spec = Some hi → any_isinf hi = false.

End ModelInit.

(** *** model.py: [Model.initialize], the summary directories

    Before it creates the directory of the new summary, [initialize]
    removes the oldest summary directories of the summarizer directory,
    so that fewer than [max_summaries] are left. *)

Module Initialize.

Import ModelInit.

(** An entry of a summary directory. *)
Inductive kind : Type := IsFile | IsDirectory.

(** An entry of the summarizer directory; a directory with what
    [os.listdir] gives for it, in that order. *)
Inductive entry : Type :=
| File
| Directory (content : list (string * kind)).

(** The entries of the summarizer directory, by name. *)
Definition listing : Type := gmap string entry.

Inductive OSError : Type :=
| IndexError
| IsADirectoryError
| DirectoryNotEmpty
| FileNotFoundError
| TypeError.

(** The order of [sorted] on strings. *)
Definition string_le (a b : string) : Prop := String.leb a b = true.

#[global] Instance string_le_dec (a b : string) : Decision (string_le a b) :=
  decide (String.leb a b = true).

(** [os.path.isdir(os.path.join(directory, d)) and
    d.startswith('summary-')] *)
Definition is_summary (e : string * entry) : bool :=
  match e.2 with
  | Directory _ => String.prefix "summary-" e.1
  | File => false
  end.

(** [directories]: the summary directories, sorted by name. *)
Definition directories (fs : listing) : list string :=
  merge_sort string_le
    (filter (λ e, is_summary e = true) (map_to_list fs)).*1.

(** [self.summarizer.get('max_summaries', 5)], as the integer the
    comparison and the slice need. *)
Definition max_summaries (summarizer : dict) : option Z :=
  match get "max_summaries" (PyInt 5) summarizer with
  | PyInt z => Some z
  | PyBool b => Some (Z.b2z b)
  | _ => None
  end.

(** [directories[:len(directories) - max_summaries + 1]] under
    [if len(directories) > max_summaries - 1], and nothing otherwise. *)
Definition pruned (max_summaries : Z) (fs : listing) : list string :=
  let n := Z.of_nat (length (directories fs)) in
  if Z.ltb (max_summaries - 1) n then
    take (Z.to_nat (n - max_summaries + 1)) (directories fs)
  else [].

(** One turn of the loop: [os.remove] of the first entry listed in the
    subdirectory, then [os.rmdir] of the subdirectory. *)
Definition remove_summary (subdir : string) (fs : listing)
    : listing * option OSError :=
  match fs !! subdir with
  | Some (Directory content) =>
      match content with
      | [] => (fs, Some IndexError)
      | (_, IsDirectory) :: _ => (fs, Some IsADirectoryError)
      | (_, IsFile) :: rest =>
          match rest with
          | [] => (delete subdir fs, None)
          | _ :: _ =>
              (<[subdir := Directory rest]> fs, Some DirectoryNotEmpty)
          end
      end
  | _ => (fs, Some FileNotFoundError)
  end.

(** The loop: the first error ends it, with what has been removed
    before. *)
Fixpoint remove_summaries (subdirs : list string) (fs : listing)
    : listing * option OSError :=
  match subdirs with
  | [] => (fs, None)
  | subdir :: rest =>
      match remove_summary subdir fs with
      | (fs', None) => remove_summaries rest fs'
      | failed => failed
      end
  end.

(** The summarizer block of [initialize], up to the creation of the new
    directory: what is left of the summarizer directory, and the error
    raised, if any. A summarizer directory that does not exist ([None])
    is created empty. *)
Definition initialize (summarizer : dict) (fs : option listing)
    : listing * option OSError :=
  let fs := default ∅ fs in
  match max_summaries summarizer with
  | None => (fs, Some TypeError)
  | Some k => remove_summaries (pruned k fs) fs
  end.

End Initialize.

(** *** normalization.py: [InstanceNormalization] *)

Module InstanceNormalization.

Import ExponentialNormalization.
Local Open Scope float_scope.

(** The layer, for an input spec of shape [(features,)]: a batch is a
    list of rows. [axes] is the argument of [__init__]; [epsilon] is
    [util.epsilon]. *)
Record t : Type := {
  axes : option (list nat);
  epsilon : float
}.

(** [self.input_spec.rank] *)
Definition rank : nat := 1.

Inductive InvalidArgumentError : Type :=
| InvalidReductionDimension (axis : nat)
| DuplicateDimension (axis : nat).

(** The axes of [x] the moments are taken over:
    [tuple(range(1, self.input_spec.rank))] when [axes] is not given,
    [tuple(1 + axis for axis in self.axes)] when it is. *)
Definition reduction_axes (l : t) : list nat :=
  match axes l with
  | None => seq 1 (rank - 1)%nat
  | Some a => (λ axis, 1 + axis)%nat <$> a
  end.

(** The first axis that [x], of rank [1 + rank], does not have, or that
    is given twice. *)
Fixpoint invalid_axis (seen axes : list nat) : option InvalidArgumentError :=
  match axes with
  | [] => None
  | axis :: rest =>
      if Nat.ltb rank axis then Some (InvalidReductionDimension axis)
      else if bool_decide (axis ∈ seen) then Some (DuplicateDimension axis)
      else invalid_axis (axis :: seen) rest
  end.

(** The mean of a list: the sum divided by the number of entries. *)
Definition mean_of (values : list float) : float :=
  reduce_sum values / cast (length values).

(** [tf.math.reduce_mean(x, axis=axes, keepdims=True)], broadcast back
    over the axes it has reduced: over both axes the mean of all
    entries, over the batch axis the mean of each column, over the
    feature axis the mean of each row, and over no axis each entry
    itself. *)
Definition reduce_mean (axes : list nat) (x : list (list float))
    : list (list float) :=
  match bool_decide (0%nat ∈ axes), bool_decide (1%nat ∈ axes) with
  | true, true =>
      (λ row : list float, (λ _, mean_of (concat x)) <$> row) <$> x
  | true, false =>
      (λ row : list float,
         (λ j, mean_of (column j x)) <$> seq 0%nat (length row)) <$> x
  | false, true => (λ row : list float, (λ _, mean_of row) <$> row) <$> x
  | false, false => x
  end.

(** [tf.math.squared_difference], entry by entry. *)
Definition squared_difference (x y : list (list float))
    : list (list float) :=
  zip_with (zip_with (λ v m, (v - m) * (v - m))) x y.

(** [tf.nn.moments(x=x, axes=axes, keepdims=True)]: the mean, and the
    mean of the squared difference from it. *)
Definition moments (axes : list nat) (x : list (list float))
    : list (list float) * list (list float) :=
  let mean := reduce_mean axes x in
  (mean, reduce_mean axes (squared_difference x mean)).

(** [InstanceNormalization.apply] *)
Definition apply (l : t) (x : list (list float))
    : InvalidArgumentError + list (list float) :=
  match invalid_axis [] (reduction_axes l) with
  | Some e => inl e
  | None =>
      let '(mean, variance) := moments (reduction_axes l) x in
      let reciprocal_stddev :=
        (λ row : list float, (λ v, rsqrt (maximum v (epsilon l))) <$> row)
          <$> variance in
      inr (zip_with (zip_with PrimFloat.mul)
             (zip_with (zip_with PrimFloat.sub) x mean) reciprocal_stddev)
  end.

End InstanceNormalization.

(** *** Arguments to build the example model from

    One float state with an infinite upper bound; a masked int action
    and a float action with an upper bound only, an infinite one; a
    saver; a summarizer whose labels are given as one string; a
    summarizer directory with three summaries, a directory of another
    name and a file. *)

Module ExampleArguments.

Import LinearNormalization.
Import ModelInit.
Import Initialize.

Definition states : list (string * TensorSpec) :=
  [("position",
    {| spec_type := Model.Float; spec_shape := [2];
       spec_min_value := Some [Finite 0; Finite 0];
       spec_max_value := Some [Finite 1; PosInf];
       spec_num_values := None |})].

Definition actions : list (string * TensorSpec) :=
  [("action",
    {| spec_type := Model.Int; spec_shape := [];
       spec_min_value := None; spec_max_value := None;
       spec_num_values := Some 3 |});
   ("force",
    {| spec_type := Model.Float; spec_shape := [];
       spec_min_value := None; spec_max_value := Some [PosInf];
       spec_num_values := None |})].

(** No regularization: [l2_regularization=0.0]. *)
Definition l2_regularization : option Q := Some 0%Q.

Definition saver : dict :=
  [("directory", PyStr "checkpoints"); ("frequency", PyInt 10)].

Definition summarizer : dict :=
  [("directory", PyStr "summaries"); ("labels", PyStr "reward")].

Definition summaries : listing :=
  {[ "summary-20200103-120000" := Directory [("events", IsFile)];
     "summary-20200101-120000" := Directory [("events", IsFile)];
     "summary-20200102-120000" := Directory [("events", IsFile)];
     "checkpoints" := Directory [];
     "summary-notes" := File ]}.

End ExampleArguments.

(** ** Part II: properties *)

(** *** Floats

    What the properties of the layers need of the arithmetic of the
    floats, from its specification in [SpecFloat]. *)

Section float_facts.

Import Range.
Local Open Scope Z_scope.

Lemma digits2_pos_iter (m : positive) (n : positive) :
  digits2_pos (Pos.iter xO m n) = (digits2_pos m + n)%positive.
Proof.
  revert m. induction n as [n IH|n IH|]; intros m; simpl.
  - rewrite !IH. lia.
  - rewrite !IH. lia.
  - lia.
Qed.

Lemma shr_1_digits (s : shr_record) :
  0 ≤ shr_m s →
  0 ≤ shr_m (shr_1 s)
  ∧ Zdigits2 (shr_m (shr_1 s)) = Z.max 0 (Zdigits2 (shr_m s) - 1).
Proof.
  destruct s as [[|[p|p|]|p] r t]; simpl; lia.
Qed.

Lemma iter_shr_1_digits (n : positive) (s : shr_record) :
  0 ≤ shr_m s →
  0 ≤ shr_m (SpecFloat.iter_pos shr_1 n s)
  ∧ Zdigits2 (shr_m (SpecFloat.iter_pos shr_1 n s))
    = Z.max 0 (Zdigits2 (shr_m s) - Z.pos n).
Proof.
  revert s. induction n as [n IH|n IH|]; intros s Hs; simpl.
  - destruct (shr_1_digits s Hs) as [H1 E1].
    destruct (IH _ H1) as [H2 E2]. destruct (IH _ H2) as [H3 E3].
    split; [exact H3|]. rewrite E3, E2, E1. lia.
  - destruct (IH _ Hs) as [H2 E2]. destruct (IH _ H2) as [H3 E3].
    split; [exact H3|]. rewrite E3, E2. lia.
  - apply shr_1_digits. exact Hs.
Qed.

Lemma Zdigits2_pos (z : Z) : 0 ≤ z → 0 < Zdigits2 z → ∃ m, z = Z.pos m.
Proof. destruct z as [|m|m]; simpl; try lia. eauto. Qed.

(** Shifting a positive mantissa to its format leaves a positive one. *)
Lemma shr_fexp_pos (m : positive) (e : Z) (l : location) :
  emin ≤ e →
  ∃ m' r t e',
    shr_fexp prec emax (Z.pos m) e l
    = ({| shr_m := Z.pos m'; shr_r := r; shr_s := t |}, e')
    ∧ emin ≤ e'.
Proof.
  intros He. unfold shr_fexp, shr.
  assert (∃ r t, shr_record_of_loc (Z.pos m) l
                 = {| shr_m := Z.pos m; shr_r := r; shr_s := t |})
    as (r & t & ->) by (destruct l as [|[]]; simpl; eauto).
  destruct (fexp prec emax (Zdigits2 (Z.pos m) + e) - e) as [|n|n] eqn:Hn.
  - exists m, r, t, e. auto.
  - destruct (iter_shr_1_digits n
                {| shr_m := Z.pos m; shr_r := r; shr_s := t |})
      as [H0 Hd]; [simpl; lia|].
    cbn [shr_m Zdigits2] in Hd. unfold fexp in Hn. cbn [Zdigits2] in Hn.
    destruct (Zdigits2_pos _ H0) as [m' Hm'].
    { rewrite Hd. unfold prec, SpecFloat.emin in *. lia. }
    destruct (SpecFloat.iter_pos shr_1 n _) as [z r' t'].
    simpl in Hm'. subst z.
    exists m', r', t', (e + Z.pos n). split; [reflexivity|]. lia.
  - exists m, r, t, e. auto.
Qed.

Lemma round_nearest_even_pos (m : positive) (l : location) :
  ∃ m', round_nearest_even (Z.pos m) l = Z.pos m'.
Proof.
  destruct l as [|[]]; simpl; eauto.
  destruct m; simpl; eauto.
Qed.

Lemma binary_round_aux_number (s : bool) (m : positive) (e : Z)
    (l : location) :
  emin ≤ e →
  SFnumber (binary_round_aux prec emax s (Z.pos m) e l).
Proof.
  intros He. unfold binary_round_aux.
  destruct (shr_fexp_pos m e l He) as (m1 & r1 & t1 & e1 & -> & He1).
  cbn [shr_m].
  destruct (round_nearest_even_pos m1
              (loc_of_shr_record
                 {| shr_m := Z.pos m1; shr_r := r1; shr_s := t1 |}))
    as [m2 ->].
  destruct (shr_fexp_pos m2 e1 loc_Exact He1) as (m3 & r3 & t3 & e3 & -> & _).
  cbn [shr_m]. destruct (e3 <=? emax - prec); exact I.
Qed.

Lemma binary_round_number (s : bool) (m : positive) (e : Z) :
  emin ≤ e → SFnumber (binary_round prec emax s m e).
Proof.
  intros He. unfold binary_round, shl_align.
  set (e' := fexp prec emax (Z.pos (digits2_pos m) + e)).
  assert (emin ≤ e') by (unfold e', fexp; lia).
  destruct (e' - e); apply binary_round_aux_number; assumption.
Qed.

Lemma binary_normalize_number (z e : Z) (szero : bool) :
  z ≠ 0 → emin ≤ e →
  SFnumber (binary_normalize prec emax z e szero).
Proof.
  intros Hz He. destruct z; [congruence| |]; apply binary_round_number, He.
Qed.

Lemma valid_finite (s : bool) (m : positive) (e : Z) :
  valid_binary (S754_finite s m e) = true →
  fexp prec emax (Z.pos (digits2_pos m) + e) = e ∧ e ≤ emax - prec.
Proof.
  simpl. unfold bounded, canonical_mantissa. intros H.
  apply andb_prop in H as [H1 H2].
  apply Z.eqb_eq in H1. apply Z.leb_le in H2. auto.
Qed.

(** Two floats of the format that have the same mantissa once they are
    aligned are the same float. *)
Lemma shl_align_inj (mx my : positive) (ex ey : Z) :
  fexp prec emax (Z.pos (digits2_pos mx) + ex) = ex →
  fexp prec emax (Z.pos (digits2_pos my) + ey) = ey →
  (shl_align mx ex (Z.min ex ey)).1 = (shl_align my ey (Z.min ex ey)).1 →
  ex = ey ∧ mx = my.
Proof.
  unfold shl_align, fexp. intros Hx Hy.
  destruct (Z.min ex ey - ex) as [|d|d] eqn:Hdx;
    destruct (Z.min ex ey - ey) as [|d'|d'] eqn:Hdy; simpl; try lia.
  - intros ->. rewrite digits2_pos_iter in Hx. lia.
  - intros <-. rewrite digits2_pos_iter in Hy. lia.
Qed.

(** The difference of two distinct finite floats is a number: there is
    no underflow to zero. *)
Lemma SFsub_number (x y : spec_float) :
  valid_binary x = true → valid_binary y = true →
  SFfinite x → SFfinite y →
  SFltb y x = true →
  SFnumber (SFsub prec emax x y).
Proof.
  intros Hvx Hvy Hx Hy Hlt.
  destruct x as [sx|sx| |sx mx ex]; try destruct Hx;
    destruct y as [sy|sy| |sy my ey]; try destruct Hy.
  - discriminate Hlt.
  - exact I.
  - exact I.
  - apply valid_finite in Hvx as [Hcx _], Hvy as [Hcy _].
    cbn [SFsub]. apply binary_normalize_number.
    + intros Hzero.
      assert ((shl_align mx ex (Z.min ex ey)).1
              = (shl_align my ey (Z.min ex ey)).1 ∧ sx = sy) as [Heq ->].
      { destruct sx, sy; unfold cond_Zopp in Hzero; split;
          try reflexivity; lia. }
      destruct (shl_align_inj mx my ex ey Hcx Hcy Heq) as [-> ->].
      unfold SFltb, SFcompare in Hlt. rewrite Z.compare_refl in Hlt.
      rewrite Pos.compare_cont_refl in Hlt. destruct sy; discriminate Hlt.
    + unfold fexp in Hcx, Hcy. lia.
Qed.

Lemma is_finite_SFfinite (v : float) :
  is_finite v = true → SFfinite (Prim2SF v).
Proof.
  unfold is_finite, is_nan, is_infinity.
  rewrite !FloatAxioms.eqb_spec, FloatAxioms.abs_spec.
  destruct (Prim2SF v) as [s|s| |s m e]; try (intros _; exact I).
  - destruct s; discriminate.
  - discriminate.
Qed.

(** A finite float minus itself is [+0]. *)
Lemma sub_diag_finite (v : float) :
  PrimFloat.is_finite v = true → PrimFloat.sub v v = 0%float.
Proof.
  intros Hfinite. apply Prim2SF_inj. rewrite FloatAxioms.sub_spec.
  apply is_finite_SFfinite in Hfinite.
  destruct (Prim2SF v) as [s|s| |s m e]; try destruct Hfinite.
  - destruct s; reflexivity.
  - unfold SF64sub, SFsub. cbv zeta. rewrite Z.sub_diag. reflexivity.
Qed.

(** The difference of two finite floats, the smaller taken from the
    larger, is a number. *)
Lemma sub_number (lo hi : float) :
  is_finite lo = true → is_finite hi = true → PrimFloat.ltb lo hi = true →
  SFnumber (Prim2SF (hi - lo)).
Proof.
  intros Hlo Hhi Hlt. rewrite FloatAxioms.sub_spec.
  rewrite FloatAxioms.ltb_spec in Hlt.
  apply SFsub_number; auto using Prim2SF_valid, is_finite_SFfinite.
Qed.

(** The lower end of a range is mapped to -2. *)
Lemma affine_lower (lo hi : float) :
  is_finite lo = true → is_finite hi = true → PrimFloat.ltb lo hi = true →
  (4 * (lo - lo) / (hi - lo) - 2 = -2)%float.
Proof.
  intros Hlo Hhi Hlt. rewrite (sub_diag_finite lo Hlo).
  change (4 * 0)%float with 0%float.
  pose proof (sub_number lo hi Hlo Hhi Hlt) as Hd.
  apply Prim2SF_inj.
  rewrite FloatAxioms.sub_spec, FloatAxioms.div_spec.
  destruct (Prim2SF (hi - lo)) as [s|s| |s m e]; try destruct Hd.
  - destruct s; reflexivity.
  - destruct s; reflexivity.
Qed.

Lemma iter_shr_1_exact (n : positive) (m : positive) :
  SpecFloat.iter_pos shr_1 n
    {| shr_m := Z.pos (Pos.iter xO m n); shr_r := false; shr_s := false |}
  = {| shr_m := Z.pos m; shr_r := false; shr_s := false |}.
Proof.
  revert m. induction n as [n IH|n IH|]; intros m; simpl.
  - rewrite !IH. reflexivity.
  - rewrite !IH. reflexivity.
  - reflexivity.
Qed.

(** Four times a float of the format is exact: the mantissa is kept, up
    to [k] binary places that a subnormal number has left. *)
Lemma SFmul_4 (s : bool) (m : positive) (e : Z) :
  valid_binary (S754_finite s m e) = true →
  ∃ m' k,
    0 ≤ k ≤ 2
    ∧ Z.pos m' = Z.pos m * 2 ^ k
    ∧ Z.pos (digits2_pos m') = Z.pos (digits2_pos m) + k
    ∧ SFmul prec emax (Prim2SF 4) (S754_finite s m e)
      = if e + 2 - k <=? emax - prec
        then S754_finite s m' (e + 2 - k)
        else S754_infinity s.
Proof.
  intros Hv. apply valid_finite in Hv as [Hc He]. unfold fexp in Hc.
  assert (Z.pos (digits2_pos m) ≤ 53) as Hdigits
    by (unfold prec in Hc; lia).
  assert (∃ (n : positive) (m' : positive) (k : Z),
            Z.pos n = Z.max (Z.pos (digits2_pos m) - 1) 50
            ∧ k = 52 - Z.pos n
            ∧ Z.pos m' = Z.pos m * 2 ^ k
            ∧ Z.pos (digits2_pos m') = Z.pos (digits2_pos m) + k
            ∧ (4503599627370496 * m)%positive = Pos.iter xO m' n)
    as (n & m' & k & Hn & Hk & Hm' & Hd' & Hshift).
  { unfold prec, SpecFloat.emin, emax in Hc.
    destruct (Z.le_gt_cases (Z.pos (digits2_pos m)) 51) as [Hd|Hd];
      [|destruct (Z.eq_dec (Z.pos (digits2_pos m)) 52) as [Hd'|Hd']].
    - exists 50%positive, (m~0~0)%positive, 2.
      repeat split; simpl; lia.
    - exists 51%positive, (m~0)%positive, 1.
      repeat split; simpl; lia.
    - exists 52%positive, m, 0. repeat split; simpl; lia. }
  exists m', k. split; [lia|]. split; [exact Hm'|]. split; [exact Hd'|].
  change (Prim2SF 4) with (S754_finite false 4503599627370496 (-50)).
  cbn [SFmul xorb]. unfold binary_round_aux, shr_fexp.
  rewrite Hshift. cbn [Zdigits2]. rewrite digits2_pos_iter.
  unfold fexp.
  replace (Z.max (Z.pos (digits2_pos m' + n) + (-50 + e) - prec) emin
           - (-50 + e)) with (Z.pos n)
    by (unfold prec, SpecFloat.emin, emax in *; lia).
  cbn [shr shr_record_of_loc]. rewrite iter_shr_1_exact.
  cbn [shr_m loc_of_shr_record round_nearest_even Zdigits2
         shr_record_of_loc].
  replace (Z.max (Z.pos (digits2_pos m') + (-50 + e + Z.pos n) - prec) emin
           - (-50 + e + Z.pos n)) with 0
    by (unfold prec, SpecFloat.emin, emax in *; lia).
  cbn [shr shr_m].
  replace (-50 + e + Z.pos n) with (e + 2 - k) by lia.
  reflexivity.
Qed.

Lemma Z_div_eucl_mul (a b : Z) : b ≠ 0 → Z.div_eucl (b * a) b = (a, 0).
Proof.
  intros Hb.
  pose proof (Z.div_mul a b Hb) as Hq. pose proof (Z.mod_mul a b Hb) as Hr.
  rewrite (Z.mul_comm a b) in Hq, Hr.
  unfold Z.div, Z.modulo in Hq, Hr.
  destruct (Z.div_eucl (b * a) b) as [q r]. congruence.
Qed.

(** Four times a float, divided by the float, is four, unless the
    product overflows. *)
Lemma SFdiv_mul_4 (s : bool) (m : positive) (e : Z) :
  valid_binary (S754_finite s m e) = true →
  SFfinite (SFmul prec emax (Prim2SF 4) (S754_finite s m e)) →
  SFdiv prec emax (SFmul prec emax (Prim2SF 4) (S754_finite s m e))
    (S754_finite s m e)
  = Prim2SF 4.
Proof.
  intros Hv. destruct (SFmul_4 s m e Hv) as (m' & k & Hk & Hm' & Hd' & ->).
  destruct (e + 2 - k <=? emax - prec); [intros _|intros []].
  cbn [SFdiv]. unfold SFdiv_core_binary. cbn [Zdigits2]. rewrite Hd'.
  replace (Z.pos (digits2_pos m) + k + (e + 2 - k)
           - (Z.pos (digits2_pos m) + e)) with 2 by lia.
  replace (e + 2 - k - e) with (2 - k) by lia.
  change (fexp prec emax 2) with (-51).
  rewrite Z.min_l by lia.
  replace (2 - k - -51) with (53 - k) by lia.
  assert (Z.shiftl (Z.pos m') (53 - k) = Z.pos m * 2 ^ 53) as Hshift.
  { rewrite Z.shiftl_mul_pow2 by lia. rewrite Hm', <- Z.mul_assoc.
    rewrite <- Z.pow_add_r by lia. f_equal. f_equal. lia. }
  destruct (53 - k) as [|p|p] eqn:Hp; [lia| |lia].
  rewrite Hshift, Z_div_eucl_mul by discriminate.
  replace (xorb s s) with false by (destruct s; reflexivity).
  replace (new_location (Z.pos m) 0) with loc_Exact
    by (unfold new_location; destruct (Z.even (Z.pos m)); reflexivity).
  reflexivity.
Qed.

(** The upper end of a range is mapped to 2, unless four times the width
    of the range overflows. *)
Lemma affine_upper (lo hi : float) :
  is_finite lo = true → is_finite hi = true → PrimFloat.ltb lo hi = true →
  is_finite (4 * (hi - lo)) = true →
  (4 * (hi - lo) / (hi - lo) - 2 = 2)%float.
Proof.
  intros Hlo Hhi Hlt Hfour.
  pose proof (sub_number lo hi Hlo Hhi Hlt) as Hd.
  apply is_finite_SFfinite in Hfour.
  assert (4 * (hi - lo) / (hi - lo) = 4)%float as ->; [|reflexivity].
  apply Prim2SF_inj. rewrite FloatAxioms.div_spec.
  rewrite FloatAxioms.mul_spec in Hfour |- *.
  pose proof (Prim2SF_valid (hi - lo)) as Hv.
  destruct (Prim2SF (hi - lo)) as [s|s| |s m e]; try destruct Hd.
  - destruct s; destruct Hfour.
  - apply SFdiv_mul_4; assumption.
Qed.

End float_facts.

(** *** [LinearNormalization] *)

Section linear_normalization.

Import LinearNormalization.
Import Range.

(** Where two arrays are broadcast, an entry of the result at [j] holds
    the entries of the two that meet there. *)
Lemma broadcast_lookup {A B : Type} (a : list A) (b : list B) pairs j x y :
  broadcast a b = inr pairs → pairs !! j = Some (x, y) →
  entry_at a j = Some x ∧ entry_at b j = Some y.
Proof.
  unfold broadcast. destruct (decide (length a = length b)) as [Hlen|Hlen].
  - intros [= <-] Hj.
    apply lookup_zip_with_Some in Hj as (x' & y' & [= <- <-] & Ha & Hb).
    unfold entry_at.
    destruct a as [|a0 [|a1 a]], b as [|b0 [|b1 b]]; try discriminate Hlen;
      try (split; assumption).
    destruct j; [auto|discriminate Ha].
  - destruct a as [|a0 [|a1 a]].
    + destruct b as [|b0 [|b1 b]]; try discriminate.
      intros [= <-] Hj. destruct j; discriminate Hj.
    + intros Heq Hj. injection Heq as <-.
      apply (list_lookup_fmap_Some (pair a0) b) in Hj
        as (y' & [= <- <-] & Hb).
      split; [reflexivity|].
      unfold entry_at. destruct b as [|b0 [|b1 b]]; try exact Hb.
      simpl in Hlen. congruence.
    + destruct b as [|b0 [|b1 b]]; try discriminate.
      intros Heq Hj. injection Heq as <-.
      apply (list_lookup_fmap_Some (λ x, (x, b0)) (a0 :: a1 :: a)) in Hj
        as (x' & [= <- <-] & Ha).
      split; [exact Ha|reflexivity].
Qed.


(** On rows that fit the bounds [apply_rows] returns, and each row of
    the result holds [apply_element] of the cells of that row. *)
Lemma apply_rows_inr bounds x :
  fits bounds x →
  ∃ out,
    apply_rows bounds x = inr out
    ∧ ∀ i row cells,
        x !! i = Some row → broadcast bounds row = inr cells →
        out !! i
        = Some ((λ c : bound * bound * float,
                   apply_element c.1.1 c.1.2 c.2) <$> cells).
Proof.
  induction 1 as [|row x [cells Hcells] Hx (out & Hout & IH)].
  - exists []. split; [reflexivity|]. intros i row cells Hi.
    discriminate Hi.
  - eexists. cbn [apply_rows]. unfold apply_row. rewrite Hcells, Hout.
    split; [reflexivity|].
    intros [|i] row' cells' Hi Hcells'; simpl in Hi.
    + injection Hi as <-. rewrite Hcells in Hcells'.
      injection Hcells' as <-. reflexivity.
    + apply (IH i row' cells' Hi Hcells').
Qed.

(** [apply] works cell by cell: on a batch that fits, the entry of row
    [i] at [j] is [apply_element] of the bounds and the input that meet
    there. *)
Lemma apply_cell l x i j row bounds cells a b v :
  broadcast (min_value l) (max_value l) = inr bounds →
  fits bounds x →
  x !! i = Some row → broadcast bounds row = inr cells →
  cells !! j = Some (a, b, v) →
  ∃ out,
    apply l x = inr out
    ∧ out !! i ≫= (λ r, r !! j) = Some (apply_element a b v).
Proof.
  intros Hbounds Hfits Hrow Hcells Hcell. unfold apply. rewrite Hbounds.
  destruct (apply_rows_inr bounds x Hfits) as (out & Hout & Hlookup).
  exists out. split; [exact Hout|].
  rewrite (Hlookup i row cells Hrow Hcells). simpl.
  rewrite list_lookup_fmap, Hcell. reflexivity.
Qed.

(** [constant] gives a float for itself, rounds to the nearest float
    (3/10), a tie to the even mantissa ([2^53 + 1] down, [2^53 + 3] up),
    and overflows to an infinity. *)
Lemma constant_rounds :
  constant (Finite 3) = 3%float
  ∧ constant (Finite (- (1 # 4))) = (-0.25)%float
  ∧ constant (Finite (3 # 10)) = 0x1.3333333333333p-2%float
  ∧ constant (Finite (2 ^ 53 + 1)) = 0x1p53%float
  ∧ constant (Finite (2 ^ 53 + 3)) = 0x1.0000000000002p53%float
  ∧ constant (Finite (2 ^ 1024)) = infinity.
Proof. repeat split; vm_compute; reflexivity. Qed.

Lemma apply_element_infinite (lo hi : bound) (x : float) :
  isinf lo || isinf hi = true → apply_element lo hi x = x.
Proof. unfold apply_element. intros ->. reflexivity. Qed.

Lemma apply_element_finite (lo hi : bound) (x : float) :
  isinf lo || isinf hi = false →
  apply_element lo hi x
  = (4 * (x - constant lo) / (constant hi - constant lo) - 2)%float.
Proof. unfold apply_element. intros ->. reflexivity. Qed.


End linear_normalization.



(** *** [ExponentialNormalization] *)

Section exponential_normalization.

Import ExponentialNormalization.
Local Open Scope float_scope.

Lemma apply_independent l vars x : (apply l vars x true).2 = vars.
Proof. reflexivity. Qed.

(** C7. Calls with [independent=True] never change the moving mean, the
    moving variance or the after-first-call flag, however many there
    are. *)
Theorem exponential_independent_frame l vars (batches : list (list (list float))) :
  apply_all l vars ((λ x, (x, true)) <$> batches) = vars.
Proof.
  unfold apply_all. revert vars.
  induction batches as [|x batches IH]; intros vars; [reflexivity|].
  simpl. apply IH.
Qed.

(** C6, as the code has it. In training mode:
    - the first call, on a batch that is not empty, stores the mean and
      the variance of the batch as they are;
    - any later call (and any call on an empty batch) stores
      [decay^batch_size * stored + (1 - decay^batch_size) * batch], where
      the batch term of the mean is the batch mean and the batch term of
      the variance is the mean squared distance of the batch from the
      mean just stored;
    - the flag is set once a batch is not empty. *)
Theorem exponential_apply_training l vars x :
  let vars' := (apply l vars x false).2 in
  let d := pow (decay l) (length x) in
  (after_first_call vars = false → length x ≠ 0%nat →
     moving_mean vars' = reduce_mean (features l) x
     ∧ moving_variance vars' = batch_variance (features l) x)
  ∧ (after_first_call vars = true ∨ length x = 0%nat →
     moving_mean vars'
     = blend d (moving_mean vars) (reduce_mean (features l) x)
     ∧ moving_variance vars'
       = blend d (moving_variance vars)
           (reduce_mean (features l)
              (squared_difference x (moving_mean vars'))))
  ∧ after_first_call vars'
    = after_first_call vars || Nat.ltb 0 (length x).
Proof.
  intros vars' d. subst vars' d. unfold apply. cbn zeta.
  split; [|split].
  - intros Hflag Hx. rewrite Hflag.
    destruct x as [|row x]; [contradiction|].
    simpl. split; reflexivity.
  - intros H.
    assert (after_first_call vars || Nat.eqb (length x) 0 = true) as ->.
    { destruct H as [->| ->]; [reflexivity|apply orb_true_r]. }
    simpl. split; reflexivity.
  - reflexivity.
Qed.

(** C6 as stated fails on a later call: the stored variance is not
    blended with the variance of the batch. Stored mean and variance 0,
    decay 1/2, batch [[2]]: the batch variance is 0, so the claim gives
    0; the code stores the mean 1 and then the variance 1/2. *)
Lemma exponential_variance_counterexample :
  moving_variance
    (apply Example.layer
       {| moving_mean := [0]; moving_variance := [0];
          after_first_call := true |}
       [[2]] false).2
  ≠ Spec.variance_blended_with_batch_variance Example.layer
      {| moving_mean := [0]; moving_variance := [0];
         after_first_call := true |}
      [[2]].
Proof.
  intros H.
  apply (f_equal (λ v, match v with
                       | a :: _ => PrimFloat.eqb a 0.5
                       | [] => false
                       end)) in H.
  vm_compute in H. discriminate H.
Qed.

(** C10 at its failing input: in training mode on an empty batch the
    mean over no rows is 0/0, and weight zero times that is not zero:
    both moving statistics are stored as NaN. Only the flag is left as
    it was. *)
Example exponential_empty_batch :
  (apply Example.layer (initialize Example.layer) [] false).2
  = {| moving_mean := [nan]; moving_variance := [nan];
       after_first_call := false |}.
Proof. vm_compute. reflexivity. Qed.

(** On an empty batch the flag stays as it is, whatever is stored. *)
Lemma exponential_empty_batch_flag l vars :
  after_first_call (apply l vars [] false).2 = after_first_call vars.
Proof. simpl. apply orb_false_r. Qed.

End exponential_normalization.

(** *** [Model]: the terminal batch of [observe] *)

Section terminal_batch.

Import Model.

Lemma count_nonzero_app t1 t2 :
  count_nonzero (t1 ++ t2) = count_nonzero t1 + count_nonzero t2.
Proof. unfold count_nonzero. rewrite filter_app, length_app. reflexivity. Qed.

Lemma count_nonzero_singleton x :
  count_nonzero [x] = if Nat.ltb 0 x then 1 else 0.
Proof. destruct x; reflexivity. Qed.

Lemma any_terminal_lookup t :
  any_terminal t = true ↔ ∃ i v, t !! i = Some v ∧ v ≠ 0.
Proof.
  unfold any_terminal. rewrite existsb_exists. split.
  - intros (v & Hin & Hv). apply list_elem_of_In, list_elem_of_lookup in Hin.
    destruct Hin as [i Hi]. exists i, v. split; [exact Hi|].
    apply Nat.ltb_lt in Hv. lia.
  - intros (i & v & Hi & Hv). exists v. split.
    + apply list_elem_of_In, list_elem_of_lookup. eauto.
    + apply Nat.ltb_lt. lia.
Qed.

Lemma any_terminal_count t :
  any_terminal t = false → count_nonzero t = 0.
Proof.
  induction t as [|x t IH]; [reflexivity|].
  simpl. intros H. apply orb_false_elim in H as [Hx Ht].
  destruct x; [|discriminate Hx].
  change (count_nonzero (0 :: t)) with (count_nonzero t). auto.
Qed.

Lemma count_nonzero_any t :
  any_terminal t = true → 0 < count_nonzero t.
Proof.
  induction t as [|x t IH]; [discriminate|].
  simpl. intros H. destruct x.
  - change (count_nonzero (0 :: t)) with (count_nonzero t). auto.
  - change (count_nonzero (S x :: t)) with (S (count_nonzero t)). lia.
Qed.

Lemma is_terminal_snoc t x : is_terminal (t ++ [x]) = Nat.ltb 0 x.
Proof.
  unfold is_terminal. rewrite app_comm_cons, last_last. reflexivity.
Qed.

Lemma any_terminal_snoc t x :
  any_terminal (t ++ [x]) = any_terminal t || Nat.ltb 0 x.
Proof.
  unfold any_terminal. rewrite existsb_app. simpl.
  rewrite orb_false_r. reflexivity.
Qed.

(** The two terminal assertions hold exactly on the batches the
    specification calls valid. *)
Lemma terminal_checks t :
  Nat.leb (count_nonzero t) 1
  && Bool.eqb (any_terminal t) (is_terminal t) = true
  ↔ ¬ (Spec.more_than_one_terminal t ∨ Spec.terminal_before_last t).
Proof.
  unfold Spec.more_than_one_terminal, Spec.terminal_before_last.
  destruct t as [|x t _] using rev_ind.
  - split; [|reflexivity].
    intros _ [H|(i & v & H & _)]; [|discriminate H].
    unfold count_nonzero in H. simpl in H. lia.
  - rewrite count_nonzero_app, count_nonzero_singleton,
      is_terminal_snoc, any_terminal_snoc, length_app.
    simpl length.
    destruct (any_terminal t) eqn:Hany.
    + pose proof (count_nonzero_any t Hany) as Hpos.
      apply any_terminal_lookup in Hany as (i & v & Hi & Hv).
      split.
      * intros Hc. exfalso.
        apply andb_true_iff in Hc as [Hle Heq]. apply Nat.leb_le in Hle.
        destruct (Nat.ltb 0 x); simpl in Heq; [lia|discriminate Heq].
      * intros Hn. exfalso. apply Hn. right. exists i, v.
        pose proof (lookup_lt_Some _ _ _ Hi) as Hlt.
        split; [|split; [exact Hv|lia]].
        rewrite lookup_app_l; assumption.
    + pose proof (any_terminal_count t Hany) as Hzero.
      split.
      * intros _ [H|(i & v & Hi & Hv & Hlt)].
        -- destruct (Nat.ltb 0 x); lia.
        -- rewrite lookup_app_l in Hi by lia.
           assert (any_terminal t = true) as Habs; [|congruence].
           apply any_terminal_lookup. eauto.
      * intros _. rewrite Hzero. simpl.
        destruct (Nat.ltb 0 x); reflexivity.
Qed.

Lemma more_than_one_terminal_check t :
  Nat.leb (count_nonzero t) 1 = false ↔ Spec.more_than_one_terminal t.
Proof.
  unfold Spec.more_than_one_terminal. rewrite Nat.leb_gt. reflexivity.
Qed.

End terminal_batch.

(** *** [Model.observe] *)

Section observe_facts.

Import Model.
Import Dataflow.

Context {States Actions V : Type}.
Context `{!Hooks States Actions V} `{!Inhabited V}.

Lemma observe_admissible_orders sched :
  observe_admissible sched = true → In sched observe_orders.
Proof.
  unfold observe_admissible. intros H.
  do 6 (destruct sched as [|[] sched]; simpl in H; try discriminate H).
  all: simpl; tauto.
Qed.

Lemma observe_orders_admissible sched :
  In sched observe_orders → observe_admissible sched = true.
Proof. simpl. intros [<-|[<-|[]]]; reflexivity. Qed.

(** [core_initialize] gives the variables their shapes. *)
Lemma core_initialize_well_formed (m : t V) :
  well_formed m (core_initialize m).
Proof.
  split; [|split]; simpl.
  - apply length_replicate.
  - apply dom_fmap_L.
  - intros name buffer. rewrite lookup_fmap.
    destruct (internals_init m !! name); [|discriminate].
    simpl. intros [= <-]. apply length_replicate.
Qed.

(** Every operation of [observe] keeps the shapes of the variables. *)
Lemma fn_terminal_well_formed (m : t V) parallel vars :
  well_formed m vars → well_formed m (fn_terminal m parallel vars).
Proof.
  intros (Hr & Hd & Hl). split; [|split]; simpl.
  - rewrite length_insert. exact Hr.
  - rewrite dom_map_zip_with_L, Hd. apply (idemp_L (∩)).
  - intros name buffer. rewrite map_lookup_zip_with.
    destruct (previous_internals vars !! name) as [previous|] eqn:Hp;
      [|discriminate].
    destruct (internals_init m !! name); [|discriminate].
    simpl. intros [= <-]. rewrite length_insert. exact (Hl _ _ Hp).
Qed.

Lemma add_episode_reward_well_formed (m : t V) reward parallel vars :
  well_formed m vars → well_formed m (add_episode_reward reward parallel vars).
Proof.
  intros (Hr & Hd & Hl). split; [|split]; simpl; [|assumption..].
  rewrite length_alter. exact Hr.
Qed.

Lemma observe_exec_well_formed (m : t V) terminal reward parallel o s s' :
  observe_exec m terminal reward parallel o s = inr s' →
  well_formed m (obs_vars s) → well_formed m (obs_vars s').
Proof.
  destruct o; simpl.
  - destruct (observe_input_assertions _ _ _ _); [|discriminate].
    intros [= <-]. auto.
  - destruct (Nat.ltb _ _); [|discriminate]. intros [= <-]. simpl.
    apply add_episode_reward_well_formed.
  - intros [= <-]. auto.
  - intros [= <-]. simpl. destruct (is_terminal terminal); [|auto].
    apply fn_terminal_well_formed.
  - destruct (obs_updated s); [|discriminate]. intros [= <-]. auto.
Qed.

(** [observe] keeps the shapes of the variables, in whatever order it
    runs and whether it returns or raises. *)
Lemma observe_run_well_formed (m : t V) vars terminal reward parallel sched :
  well_formed m vars →
  well_formed m
    (obs_vars (final (observe_run m vars terminal reward parallel sched))).
Proof.
  unfold observe_run.
  change vars with (obs_vars (observe_start vars)) at 1.
  generalize (observe_start vars).
  induction sched as [|o sched IH]; intros s Hwf; [exact Hwf|].
  simpl.
  destruct (observe_exec m terminal reward parallel o s) as [e|s'] eqn:He;
    [exact Hwf|].
  apply IH. eapply observe_exec_well_formed; eauto.
Qed.

Lemma fn_terminal_slot (m : t V) i j vars :
  i ≠ j → well_formed m vars →
  slot j (fn_terminal m i vars) = slot j vars.
Proof.
  intros Hij (Hr & Hd & Hl). unfold slot. simpl. f_equal.
  - apply list_lookup_insert_ne. exact Hij.
  - apply map_eq. intros name.
    rewrite !lookup_fmap, map_lookup_zip_with.
    destruct (previous_internals vars !! name) as [previous|] eqn:Hp;
      [|reflexivity].
    assert (is_Some (internals_init m !! name)) as [initial ->].
    { rewrite <- elem_of_dom, <- Hd, elem_of_dom. eauto. }
    simpl. f_equal. apply list_lookup_insert_ne. exact Hij.
Qed.

Lemma add_episode_reward_slot reward i j (vars : variables V) :
  i ≠ j → slot j (add_episode_reward reward i vars) = slot j vars.
Proof.
  intros Hij. unfold slot. simpl. f_equal.
  apply list_lookup_alter_ne. exact Hij.
Qed.

Lemma observe_exec_slot (m : t V) terminal reward i j o s s' :
  i ≠ j → well_formed m (obs_vars s) →
  observe_exec m terminal reward i o s = inr s' →
  slot j (obs_vars s') = slot j (obs_vars s).
Proof.
  intros Hij Hwf. destruct o; simpl.
  - destruct (observe_input_assertions _ _ _ _); [|discriminate].
    intros [= <-]. reflexivity.
  - destruct (Nat.ltb _ _); [|discriminate]. intros [= <-]. simpl.
    apply add_episode_reward_slot. exact Hij.
  - intros [= <-]. reflexivity.
  - intros [= <-]. simpl. destruct (is_terminal terminal); [|reflexivity].
    apply fn_terminal_slot; assumption.
  - destruct (obs_updated s); [|discriminate]. intros [= <-]. reflexivity.
Qed.

(** C5. An [observe] on slot [i], terminal or not, leaves the
    accumulated reward and the buffer entries of every other slot [j] as
    they were: in whatever order the operations run, and whether the
    call returns or raises. *)
Theorem observe_slot_frame (m : t V) vars terminal reward i j sched :
  i ≠ j → well_formed m vars →
  slot j (obs_vars (final (observe_run m vars terminal reward i sched)))
  = slot j vars.
Proof.
  intros Hij Hwf. unfold observe_run.
  change vars with (obs_vars (observe_start vars)) at 2.
  change vars with (obs_vars (observe_start vars)) in Hwf.
  generalize dependent (observe_start vars).
  induction sched as [|o sched IH]; intros s Hwf; [reflexivity|].
  simpl. destruct (observe_exec m terminal reward i o s) as [e|s'] eqn:He;
    [reflexivity|].
  rewrite IH by (eapply observe_exec_well_formed; eauto).
  eapply observe_exec_slot; eauto.
Qed.

Lemma elem_of_check b e e' : e' ∈ check b e ↔ b = false ∧ e' = e.
Proof.
  destruct b; simpl.
  - rewrite elem_of_nil. split; [tauto|]. intros [[=] _].
  - rewrite list_elem_of_singleton. tauto.
Qed.

Lemma terminal_not_last t :
  Bool.eqb (any_terminal t) (is_terminal t) = false →
  Spec.terminal_before_last t.
Proof.
  destruct t as [|x t _] using rev_ind; [discriminate|].
  rewrite is_terminal_snoc, any_terminal_snoc.
  destruct (Nat.ltb 0 x); [rewrite orb_true_r; discriminate|].
  rewrite orb_false_r. destruct (any_terminal t) eqn:Hany; [|discriminate].
  intros _. apply any_terminal_lookup in Hany as (i & v & Hi & Hv).
  exists i, v. pose proof (lookup_lt_Some _ _ _ Hi) as Hlt.
  rewrite lookup_app_l, length_app by assumption. simpl. auto with lia.
Qed.

Lemma observe_input_assertions_enabled (m : t V) terminal reward parallel :
  create_tf_assertions (config m) = true →
  terminal_assert terminal (length terminal) = true →
  reward_assert reward (length terminal) = true →
  parallel_assert_unbatched parallel = true →
  observe_input_assertions m terminal reward parallel
  = check (Nat.leb (count_nonzero terminal) 1) MoreThanOneTerminal
    ++ check (Bool.eqb (any_terminal terminal) (is_terminal terminal))
         TerminalNotLast.
Proof.
  unfold observe_input_assertions. intros -> -> -> ->. reflexivity.
Qed.

(** A call whose input assertions hold, on a slot that exists, returns,
    in both orders and with the same result. *)
Lemma observe_run_returns (m : t V) vars terminal reward parallel sched :
  observe_input_assertions m terminal reward parallel = [] →
  parallel < parallel_interactions m →
  observe_admissible sched = true →
  observe_run m vars terminal reward parallel sched
  = Returned
      (let vars' :=
         if is_terminal terminal
         then fn_terminal m parallel (add_episode_reward reward parallel vars)
         else add_episode_reward reward parallel vars in
       {| obs_vars := vars';
          obs_updated := Some (core_observe terminal reward parallel);
          obs_result :=
            Some (core_observe terminal reward parallel, episodes vars',
                  updates vars') |}).
Proof.
  intros Hv Hp Hs. apply Nat.ltb_lt in Hp.
  apply observe_admissible_orders in Hs as [<-|[<-|[]]];
    unfold observe_run; cbn [execute observe_exec];
    rewrite Hv; cbn [execute observe_exec obs_vars obs_updated obs_result observe_start];
    rewrite Hp; reflexivity.
Qed.

(** A call whose input assertions do not hold raises at once, with
    nothing run. *)
Lemma observe_run_raises (m : t V) vars terminal reward parallel sched :
  observe_input_assertions m terminal reward parallel ≠ [] →
  observe_admissible sched = true →
  observe_run m vars terminal reward parallel sched
  = Raised ObsInputAssertions
      (observe_input_assertions m terminal reward parallel)
      (observe_start vars).
Proof.
  intros Hv Hs.
  apply observe_admissible_orders in Hs as [<-|[<-|[]]];
    unfold observe_run; cbn [execute observe_exec];
    destruct (observe_input_assertions m terminal reward parallel);
    congruence.
Qed.

(** C3, as the code has it. With [config.create_tf_assertions] set and
    inputs that have the shape, type and range of their specs, on a slot
    that exists: [observe] raises, at its input assertions and with
    nothing run, exactly when more than one terminal flag is set or one
    is set before the last position; it returns exactly when neither is
    the case. The assertion "more than one terminal" is among those
    violated exactly when more than one flag is set, and "terminal is
    not the last input timestep" only when a flag is set before the
    last position. *)
Theorem observe_terminal_assertions (m : t V) vars terminal reward parallel
    sched :
  create_tf_assertions (config m) = true →
  terminal_assert terminal (length terminal) = true →
  reward_assert reward (length terminal) = true →
  parallel_assert_unbatched parallel = true →
  parallel < parallel_interactions m →
  observe_admissible sched = true →
  let run := observe_run m vars terminal reward parallel sched in
  ((∃ violated, run = Raised ObsInputAssertions violated (observe_start vars))
     ↔ Spec.more_than_one_terminal terminal
       ∨ Spec.terminal_before_last terminal)
  ∧ ((∃ s, run = Returned s)
     ↔ ¬ (Spec.more_than_one_terminal terminal
          ∨ Spec.terminal_before_last terminal))
  ∧ (∀ o violated s, run = Raised o violated s →
       (MoreThanOneTerminal ∈ violated
          ↔ Spec.more_than_one_terminal terminal)
       ∧ (TerminalNotLast ∈ violated → Spec.terminal_before_last terminal)).
Proof.
  intros Hcfg Ht Hr Hpa Hp Hs run. subst run.
  pose proof (observe_input_assertions_enabled m terminal reward parallel
                Hcfg Ht Hr Hpa) as Hv.
  pose proof (terminal_checks terminal) as Hchk.
  pose proof (more_than_one_terminal_check terminal) as Hmore.
  pose proof (terminal_not_last terminal) as Hlast.
  set (b1 := Nat.leb (count_nonzero terminal) 1) in *.
  set (b2 := Bool.eqb (any_terminal terminal) (is_terminal terminal)) in *.
  destruct (b1 && b2) eqn:Hb.
  - (* both assertions hold *)
    apply andb_true_iff in Hb as [Hb1 Hb2]. rewrite Hb1, Hb2 in Hv.
    rewrite (observe_run_returns m vars terminal reward parallel sched)
      by assumption.
    split; [|split].
    + split; [intros [? [=]]|].
      intros Hbad. exfalso. apply Hchk; [reflexivity|exact Hbad].
    + split; [intros _; apply Hchk; reflexivity|eauto].
    + intros ? ? ? [=].
  - (* one of them does not *)
    assert (Spec.more_than_one_terminal terminal
            ∨ Spec.terminal_before_last terminal) as Hbad.
    { apply andb_false_iff in Hb as [Hb|Hb]; [left|right]; auto.
      apply Hmore. exact Hb. }
    rewrite (observe_run_raises m vars terminal reward parallel sched);
      [|rewrite Hv; destruct b1, b2; discriminate|assumption].
    split; [|split].
    + split; [intros _; exact Hbad|eauto].
    + split; [intros [? [=]]|intros Hn; destruct (Hn Hbad)].
    + intros o violated s [= <- <- <-]. rewrite Hv.
      rewrite !elem_of_app, !elem_of_check. split.
      * rewrite <- Hmore. split.
        -- intros [[Hf _]|[_ [=]]]. exact Hf.
        -- intros Hf. left. split; [exact Hf|reflexivity].
      * intros [[_ [=]]|[Hf _]]. apply Hlast. exact Hf.
Qed.




End observe_facts.

(** The example model in its initial state. *)

Lemma example_well_formed b :
  Model.well_formed (Example.model b) (Model.core_initialize (Example.model b)).
Proof. apply core_initialize_well_formed. Qed.

Lemma observe_terminal_assertions_witness :
  (∃ s, Model.observe_run (Example.model true)
          (Model.core_initialize (Example.model true)) [0; 1] [1; 2]%float 0
          Model.observe_ops = Dataflow.Returned s)
  ↔ ¬ (Spec.more_than_one_terminal [0; 1]
       ∨ Spec.terminal_before_last [0; 1]).
Proof.
  apply (observe_terminal_assertions (Example.model true)
           (Model.core_initialize (Example.model true)) [0; 1] [1; 2]%float 0
           Model.observe_ops); try reflexivity.
  simpl. lia.
Defined.

(** C3 as stated fails when [config.create_tf_assertions] is off: no
    assertion is declared, and a batch with two terminal flags goes
    through. *)
Lemma observe_terminal_assertions_counterexample :
  Spec.more_than_one_terminal [1; 1]
  ∧ ∃ s, Model.observe (Example.model false)
           (Model.core_initialize (Example.model false)) [1; 1] [1; 2]%float 0
         = Dataflow.Returned s.
Proof.
  split.
  - unfold Spec.more_than_one_terminal. vm_compute. lia.
  - eexists. vm_compute. reflexivity.
Qed.



Lemma observe_slot_frame_witness :
  Model.slot 1
    (Model.obs_vars
       (Dataflow.final
          (Model.observe_run (Example.model true)
             (Model.core_initialize (Example.model true)) [0; 1] [1; 2]%float
             0 Model.observe_ops)))
  = Model.slot 1 (Model.core_initialize (Example.model true)).
Proof.
  apply (observe_slot_frame (Example.model true)).
  - lia.
  - apply example_well_formed.
Defined.

(** *** [Model.act] and [Model.independent_act] *)

Section act_facts.

Import Model.
Import Dataflow.

Context {States Actions V : Type}.
Context `{!Hooks States Actions V} `{!Inhabited V}.

Lemma act_admissible_orders sched :
  act_admissible sched = true → In sched act_orders.
Proof.
  unfold act_admissible. intros H.
  do 8 (destruct sched as [|[] sched]; simpl in H; try discriminate H).
  all: simpl; tauto.
Qed.

Lemma act_orders_admissible sched :
  In sched act_orders → act_admissible sched = true.
Proof.
  simpl. intros H. repeat (destruct H as [<-|H]; [reflexivity|]). destruct H.
Qed.

Lemma independent_act_admissible_order sched :
  independent_act_admissible sched = true → sched = independent_act_ops.
Proof.
  unfold independent_act_admissible. intros H.
  do 4 (destruct sched as [|[] sched]; simpl in H; try discriminate H).
  reflexivity.
Qed.

(** Every order starts with the input assertions: when one of them does
    not hold the run ends there, with nothing computed and no variable
    written. *)
Lemma act_run_raises (m : t V) vars states auxiliaries parallel sched :
  act_input_assertions m states auxiliaries parallel ≠ [] →
  act_admissible sched = true →
  act_run m vars states auxiliaries parallel sched
  = Raised ActInputAssertions
      (act_input_assertions m states auxiliaries parallel) (act_start vars).
Proof.
  intros Hv Hs.
  apply act_admissible_orders in Hs.
  repeat (destruct Hs as [<-|Hs]); [..|destruct Hs];
    unfold act_run; cbn [execute act_exec];
    destruct (act_input_assertions m states auxiliaries parallel);
    congruence.
Qed.

Lemma independent_act_run_raises (m : t V) vars states internals
    auxiliaries sched :
  independent_act_input_assertions m states internals auxiliaries ≠ [] →
  independent_act_admissible sched = true →
  execute (independent_act_exec m states internals auxiliaries) sched
    (independent_act_start vars)
  = Raised IndInputAssertions
      (independent_act_input_assertions m states internals auxiliaries)
      (independent_act_start vars).
Proof.
  intros Hv Hs. apply independent_act_admissible_order in Hs as ->.
  cbn [execute independent_act_ops independent_act_exec].
  destruct (independent_act_input_assertions m states internals auxiliaries);
    congruence.
Qed.

Lemma no_valid_action_mask_valid mask :
  Spec.no_valid_action mask → mask_valid mask = false.
Proof.
  intros (sample & row & Hs & Hr & Hall).
  destruct (mask_valid mask) eqn:Hvalid; [|reflexivity]. exfalso.
  unfold mask_valid in Hvalid.
  rewrite forallb_forall in Hvalid.
  apply list_elem_of_In in Hs. specialize (Hvalid _ Hs).
  rewrite forallb_forall in Hvalid.
  apply list_elem_of_In in Hr. specialize (Hvalid _ Hr).
  apply existsb_exists in Hvalid as (b & Hb & Hid).
  rewrite Forall_forall in Hall. apply list_elem_of_In in Hb.
  rewrite (Hall _ Hb) in Hid. discriminate Hid.
Qed.

Lemma mask_assertions_no_valid_action (m : t V) auxiliaries name spec mask :
  enable_int_action_masking (config m) = true →
  (name, spec) ∈ actions_spec m →
  action_type spec = Int →
  auxiliaries !! name = Some mask →
  Spec.no_valid_action mask →
  NoValidAction name ∈ mask_assertions m auxiliaries.
Proof.
  intros Hcfg Hin Hty Hmask Hno. unfold mask_assertions. rewrite Hcfg.
  apply list_elem_of_In, in_flat_map. exists (name, spec).
  split; [apply list_elem_of_In; exact Hin|].
  simpl. rewrite Hty, Hmask, (no_valid_action_mask_valid _ Hno).
  simpl. auto.
Qed.

(** C9, as the code has it. With [config.create_tf_assertions] set: when
    the mask of an int action has a sample with no valid value, [act]
    and [independent_act] raise at their input assertions, the
    assertion "at least one action has to be valid" being among those
    violated, in every admissible order; [core_act] has not run and the
    variables are those the call started with. *)
Theorem act_rejects_empty_mask (m : t V) vars states auxiliaries parallel
    name spec mask :
  create_tf_assertions (config m) = true →
  enable_int_action_masking (config m) = true →
  (name, spec) ∈ actions_spec m →
  action_type spec = Int →
  auxiliaries !! name = Some mask →
  Spec.no_valid_action mask →
  (∀ sched, act_admissible sched = true →
     ∃ violated s,
       act_run m vars states auxiliaries parallel sched
       = Raised ActInputAssertions violated s
       ∧ NoValidAction name ∈ violated
       ∧ act_core s = None
       ∧ act_vars s = vars)
  ∧ (∀ internals sched, independent_act_admissible sched = true →
       (∃ violated s,
          independent_act_run m vars states internals (Some auxiliaries)
            sched
          = inr (Raised IndInputAssertions violated s)
          ∧ NoValidAction name ∈ violated
          ∧ ind_core s = None
          ∧ ind_vars s = vars)
       ∨ independent_act_run m vars states internals (Some auxiliaries)
           sched
         = inl (AssertionError "internals")).
Proof.
  intros Hcfg Hmasking Hin Hty Hmask Hno.
  pose proof (mask_assertions_no_valid_action m auxiliaries name spec mask
                Hmasking Hin Hty Hmask Hno) as Helem.
  split.
  - intros sched Hs.
    assert (NoValidAction name
            ∈ act_input_assertions m states auxiliaries parallel) as Hv.
    { unfold act_input_assertions. rewrite Hcfg.
      rewrite !elem_of_app. auto. }
    exists (act_input_assertions m states auxiliaries parallel),
      (act_start vars).
    split; [|auto].
    apply act_run_raises; [|exact Hs].
    intros Hnil. rewrite Hnil in Hv. apply elem_of_nil in Hv. exact Hv.
  - intros internals sched Hs.
    assert (∀ i, NoValidAction name
                 ∈ independent_act_input_assertions m states i auxiliaries)
      as Hv.
    { intros i. unfold independent_act_input_assertions. rewrite Hcfg.
      rewrite !elem_of_app. auto. }
    assert (∀ i, independent_act_input_assertions m states i auxiliaries
                 ≠ []) as Hne.
    { intros i Hnil. specialize (Hv i). rewrite Hnil in Hv.
      apply elem_of_nil in Hv. exact Hv. }
    unfold independent_act_run, independent_act_arguments.
    destruct internals as [i|];
      [|destruct (Nat.eqb (size (internals_init m)) 0); [|right; reflexivity]].
    all: left; eexists _, (independent_act_start vars).
    all: split; [f_equal; apply independent_act_run_raises;
                 [apply Hne|exact Hs]|auto].
Qed.

(** One step of the symbolic run of [act]: unfold the next operation and
    use what is known of its guard. *)
Ltac act_step Hin Hrange Hcore Hact :=
  cbn [execute trace act_exec act_vars act_gathered act_core act_result
       act_start timesteps episodes updates episode_reward
       previous_internals];
  rewrite ?Hin, ?Hrange, ?Hcore, ?Hact.

(** C2, as the code has it. On a call whose assertions hold, for slots
    that exist, in every admissible order: [act] returns; the timestep
    counter has grown by exactly the batch size and the buffers hold the
    scatter-written internals; the increment runs after [core_act], and
    the returned tensors after both the scatter-writes and the
    increment; whenever the counter differs from its value at the start
    of the call, [core_act] has produced its tensors. (The order of the
    increment and the scatter-writes is not fixed.) *)
Theorem act_increments_timesteps (m : t V) vars states auxiliaries parallel
    sched :
  let gathered :=
    (λ buffer, gather buffer parallel) <$> previous_internals vars in
  let core := core_act states gathered auxiliaries parallel false in
  act_input_assertions m states auxiliaries parallel = [] →
  in_range m parallel = true →
  act_action_assertions m auxiliaries core.1 (length parallel) = [] →
  act_admissible sched = true →
  ∃ s,
    act_run m vars states auxiliaries parallel sched = Returned s
    ∧ timesteps (act_vars s)
      = (timesteps vars + Z.of_nat (length parallel))%Z
    ∧ previous_internals (act_vars s)
      = map_zip_with
          (λ previous internal, scatter_update previous parallel internal)
          (previous_internals vars) core.2
    ∧ act_result s
      = Some (core.1, (timesteps vars + Z.of_nat (length parallel))%Z)
    ∧ before act_tag ActCore ActIncrement sched = true
    ∧ before act_tag ActScatter ActReturn sched = true
    ∧ before act_tag ActIncrement ActReturn sched = true
    ∧ ∀ mid,
        mid ∈ trace (act_exec m states auxiliaries parallel) sched
                (act_start vars) →
        timesteps (act_vars mid) ≠ timesteps vars →
        act_core mid = Some core.
Proof.
  intros gathered core Hin Hrange Hact Hs. subst gathered.
  destruct core as [actions internals] eqn:Hcore. subst core.
  cbn [fst snd] in *.
  apply act_admissible_orders in Hs.
  repeat (destruct Hs as [<-|Hs]); [..|destruct Hs].
  all: eexists; split;
    [unfold act_run; do 8 act_step Hin Hrange Hcore Hact; reflexivity|].
  all: cbn [act_vars act_result timesteps previous_internals].
  all: repeat (split; [reflexivity|]).
  all: do 8 act_step Hin Hrange Hcore Hact.
  all: intros mid Hmid Hne.
  all: repeat (apply elem_of_cons in Hmid as [->|Hmid]);
    [..|apply elem_of_nil in Hmid; destruct Hmid].
  all: cbn [act_vars act_core timesteps act_start] in *; congruence.
Qed.

End act_facts.

Lemma act_increments_timesteps_witness :
  ∃ s,
    Model.act (Example.model true) (Model.core_initialize (Example.model true))
      1 Example.all_valid [0]
    = Dataflow.Returned s
    ∧ Model.timesteps (Model.act_vars s) = 1%Z.
Proof.
  destruct (act_increments_timesteps (Example.model true)
              (Model.core_initialize (Example.model true)) 1 Example.all_valid
              [0] Model.act_ops)
    as (s & Hrun & Htime & _); try reflexivity.
  exists s. split; [exact Hrun|exact Htime].
Defined.

(** C2 as stated fails: nothing orders the increment after the
    scatter-writes. In the admissible order that runs the increment first,
    the run goes through a state where the counter already counts the call
    while the buffer of the slot still holds the old internal state, which
    the scatter-write then replaces. *)
Lemma act_increment_before_scatter_counterexample :
  let m := Example.model true in
  let vars := Model.core_initialize m in
  let sched :=
    [Model.ActInputAssertions; Model.ActGather; Model.ActCore;
     Model.ActIncrement; Model.ActScatter; Model.ActActionAssertions;
     Model.ActReturn] in
  Model.act_admissible sched = true
  ∧ ∃ mid s,
      Dataflow.trace (Model.act_exec m 1 Example.all_valid [0]) sched
        (Model.act_start vars) !! 4 = Some mid
      ∧ Model.act_run m vars 1 Example.all_valid [0] sched
        = Dataflow.Returned s
      ∧ Model.timesteps vars = 0%Z
      ∧ Model.timesteps (Model.act_vars mid) = 1%Z
      ∧ Model.previous_internals vars !! "state" = Some [0; 0]
      ∧ Model.previous_internals (Model.act_vars mid) !! "state"
        = Some [0; 0]
      ∧ Model.previous_internals (Model.act_vars s) !! "state"
        = Some [1; 0].
Proof.
  split; [reflexivity|].
  eexists _, _. split; [vm_compute; reflexivity|].
  split; [vm_compute; reflexivity|].
  repeat split; vm_compute; reflexivity.
Qed.

Lemma act_rejects_empty_mask_witness :
  ∃ violated s,
    Model.act_run (Example.model true)
      (Model.core_initialize (Example.model true)) 1 Example.none_valid [0]
      Model.act_ops
    = Dataflow.Raised Model.ActInputAssertions violated s
    ∧ Model.NoValidAction "action" ∈ violated
    ∧ Model.act_core s = None
    ∧ Model.act_vars s = Model.core_initialize (Example.model true).
Proof.
  destruct (act_rejects_empty_mask (Example.model true)
              (Model.core_initialize (Example.model true)) 1
              Example.none_valid [0] "action"
              {| Model.action_type := Model.Int; Model.action_rank := 0;
                 Model.action_num_values := Some 3 |}
              [[[false; false; false]]]) as [Hact _].
  - reflexivity.
  - reflexivity.
  - simpl. apply list_elem_of_here.
  - reflexivity.
  - reflexivity.
  - exists [[false; false; false]], [false; false; false].
    split; [apply list_elem_of_here|].
    split; [apply list_elem_of_here|].
    repeat constructor.
  - exact (Hact Model.act_ops eq_refl).
Defined.

(** C9 as stated fails when [config.create_tf_assertions] is off: no
    input assertion is declared, [core_act] runs on the mask without a
    valid value, and the call counts a timestep. *)
Lemma act_rejects_empty_mask_counterexample :
  Spec.no_valid_action [[[false; false; false]]]
  ∧ Example.none_valid !! "action" = Some [[[false; false; false]]]
  ∧ ∃ s,
      Model.act (Example.model false)
        (Model.core_initialize (Example.model false)) 1 Example.none_valid [0]
      = Dataflow.Returned s
      ∧ Model.timesteps (Model.act_vars s) = 1%Z
      ∧ Model.act_core s ≠ None.
Proof.
  split.
  - exists [[false; false; false]], [false; false; false].
    split; [apply list_elem_of_here|].
    split; [apply list_elem_of_here|].
    repeat constructor.
  - split; [reflexivity|].
    eexists. split; [vm_compute; reflexivity|].
    split; [reflexivity|]. discriminate.
Qed.

(** *** [Model.save] and [Model.restore] *)

Section persistence_facts.

Import Model.

Context {V : Type}.

(** [core_initialize] declares the buffers the way it declares the
    episode reward, not trainable and not saved: whatever rule on these
    two flags decides what is persisted treats them alike. *)
Lemma buffer_declared_like_episode_reward name :
  is_trainable (declared (Buffer name)) = is_trainable (declared EpisodeReward)
  ∧ is_saved (declared (Buffer name)) = is_saved (declared EpisodeReward)
  ∧ is_saved (declared (Buffer name)) = false.
Proof. repeat split. Qed.

Lemma filter_saved_buffers (names : list string) :
  filter (λ r, is_saved (declared r) = true) (Buffer <$> names) = [].
Proof.
  induction names as [|name names IH]; [reflexivity|].
  rewrite fmap_cons, filter_cons_False; [exact IH|].
  simpl. discriminate.
Qed.

(** The saved variables are the three counters. *)
Lemma saved_variables_counters (vars : variables V) :
  saved_variables vars = [Timesteps; Episodes; Updates].
Proof.
  unfold saved_variables, all_variables.
  rewrite filter_app, filter_saved_buffers, app_nil_r. reflexivity.
Qed.

Lemma take_snapshot_counters (vars : variables V) :
  take_snapshot vars
  = [(Timesteps, IntValue (timesteps vars));
     (Episodes, IntValue (episodes vars));
     (Updates, IntValue (updates vars))].
Proof.
  unfold take_snapshot. rewrite saved_variables_counters. reflexivity.
Qed.







End persistence_facts.



(** *** More on [LinearNormalization] *)

Section linear_normalization_more.

Import LinearNormalization.
Import Range.
Local Open Scope Q_scope.

Context {E : Type} `{!Layer E}.





(** X2. When [__init__] fails it is for one of these reasons, checked in
    this order. For the lower bound, left out of the arguments: no input
    spec to read it from (the [AttributeError] of [None]), or an input
    spec without it. For the upper bound, the same. Then, for the two
    bounds found: arrays that cannot be broadcast against each other
    (the [ValueError] of the comparison), or a position at which the
    lower bound is at or above the upper bound. Last, whatever the
    constructor of the base class raises. *)
Theorem linear_init_rejects min_value' max_value' name' input_spec e :
  init min_value' max_value' name' input_spec = inl e →
  (min_value' = None ∧ input_spec = None ∧ e = AttributeError "min_value")
  ∨ (min_value' = None ∧ input_spec ≠ None
     ∧ input_spec ≫= spec_min_value = None
     ∧ e = Tensorforce (RequiredArgument "LinearNormalization" "min_value"))
  ∨ ∃ lo,
      Some lo = match min_value' with
                | Some lo => Some lo
                | None => input_spec ≫= spec_min_value
                end
      ∧ ((max_value' = None ∧ input_spec = None
          ∧ e = AttributeError "max_value")
         ∨ (max_value' = None ∧ input_spec ≠ None
            ∧ input_spec ≫= spec_max_value = None
            ∧ e = Tensorforce
                    (RequiredArgument "LinearNormalization" "max_value"))
         ∨ ∃ hi,
             Some hi = match max_value' with
                       | Some hi => Some hi
                       | None => input_spec ≫= spec_max_value
                       end
             ∧ ((∃ shapes, broadcast lo hi = inl shapes ∧ e = Shapes shapes)
                ∨ (∃ pairs a b,
                     broadcast lo hi = inr pairs
                     ∧ (a, b) ∈ pairs ∧ geq a b = true
                     ∧ e = Tensorforce
                             (InvalidValue "LinearNormalization"
                                "min/max_value" "not less than"))
                ∨ (∃ e',
                     any_geq lo hi = inr false
                     ∧ layer_init {| min_value := lo; max_value := hi |}
                         name' input_spec = Some e'
                     ∧ e = FromLayer e'))).
Proof.
  unfold init. intros Hinit.
  destruct min_value' as [lo|], input_spec as [spec|];
    cbn [mbind option_bind];
    [| |destruct (spec_min_value spec) as [lo|];
        [|right; left; injection Hinit as <-; auto 10]
      |left; injection Hinit as <-; auto].
  all: right; right; exists lo; split; [reflexivity|].
  all: destruct max_value' as [hi|];
    [|try (left; injection Hinit as <-; split; [reflexivity|];
           split; reflexivity)].
  all: try (destruct (spec_max_value spec) as [hi|];
            [|right; left; injection Hinit as <-; auto 10]).
  all: right; right; exists hi; split; [reflexivity|].
  all: unfold any_geq in *.
  all: destruct (broadcast lo hi) as [shapes|pairs] eqn:Hpairs;
    [left; injection Hinit as <-; eauto|right].
  all: destruct (existsb _ pairs) eqn:Hany;
    [left; injection Hinit as <-;
     apply existsb_exists in Hany as ([a b] & Hin & Hg);
     apply list_elem_of_In in Hin; exists pairs, a, b; auto|right].
  all: destruct (layer_init _ _ _) as [e'|] eqn:Hlayer;
    [|discriminate Hinit].
  all: injection Hinit as <-; exists e'; auto.
Qed.


Lemma entry_at_fmap {A B : Type} (f : A → B) (a : list A) (j : nat) :
  entry_at (f <$> a) j = f <$> entry_at a j.
Proof.
  destruct a as [|x [|y a]]; [reflexivity..|].
  unfold entry_at. rewrite list_lookup_fmap. reflexivity.
Qed.

(** Where no position of the mask is set, none is set where an entry
    meets position [j]. *)
Lemma entry_at_existsb_false {A : Type} (f : A → bool) (a : list A) j x :
  existsb f a = false → entry_at a j = Some x → f x = false.
Proof.
  intros Hnone Hx. destruct (f x) eqn:Hf; [|reflexivity].
  assert (existsb f a = true) as Habs; [|congruence].
  apply existsb_exists. exists x. split; [|exact Hf].
  apply list_elem_of_In.
  destruct a as [|y [|z a]]; simpl in Hx.
  - discriminate Hx.
  - injection Hx as ->. apply list_elem_of_here.
  - apply list_elem_of_lookup. eauto.
Qed.

(** The bounds [output_spec] declares at a position: those of the layer
    where one of them is infinite, -2 and 2 where both are finite. *)
Lemma output_spec_bounds_at l bounds j a b :
  broadcast (min_value l) (max_value l) = inr bounds →
  entry_at bounds j = Some (a, b) →
  ∃ spec,
    output_spec l = inr spec
    ∧ bounds_at spec j
      = Some (if isinf a || isinf b then (a, b)
              else (Finite (-2), Finite 2)).
Proof.
  intros Hbounds Hentry. unfold output_spec, is_inf. rewrite Hbounds.
  set (mask := (λ b : bound * bound, (isinf b.1 || isinf b.2, b))
                 <$> bounds).
  assert (entry_at mask j = Some (isinf a || isinf b, (a, b))) as Hmask
    by (unfold mask; rewrite entry_at_fmap, Hentry; reflexivity).
  destruct (existsb fst mask) eqn:Hany; eexists; (split; [reflexivity|]).
  - unfold bounds_at. cbn [spec_min_value spec_max_value mbind option_bind].
    rewrite !entry_at_fmap, Hmask. simpl.
    destruct (isinf a || isinf b); reflexivity.
  - pose proof (entry_at_existsb_false fst mask j _ Hany Hmask) as Hfinite.
    simpl in Hfinite. rewrite Hfinite. reflexivity.
Qed.

(** X3. [output_spec] declares, position by position, what [apply] does
    there. Where it keeps the bounds of the layer, one of them infinite,
    [apply] returns the entry as it is, so an entry within the bounds
    stays within them. Where it declares -2 and 2, and the two bounds
    are finite as floats of the graph and in order, [apply] maps the
    lower bound to the declared -2 and, unless four times the width of
    the range overflows, the upper bound to the declared 2. *)
Theorem linear_apply_within_output_spec l x i j row bounds cells a b v :
  broadcast (min_value l) (max_value l) = inr bounds →
  fits bounds x →
  x !! i = Some row → broadcast bounds row = inr cells →
  cells !! j = Some (a, b, v) →
  ∃ out w spec lo' hi',
    apply l x = inr out
    ∧ out !! i ≫= (λ r, r !! j) = Some w
    ∧ output_spec l = inr spec
    ∧ bounds_at spec j = Some (lo', hi')
    ∧ if isinf a || isinf b
      then (lo', hi') = (a, b) ∧ (within a b v → within lo' hi' w)
      else (lo', hi') = (Finite (-2), Finite 2)
           ∧ (is_finite (constant a) = true →
              is_finite (constant b) = true →
              PrimFloat.ltb (constant a) (constant b) = true →
              (v = constant a → w = constant lo')
              ∧ (v = constant b →
                 is_finite (4 * (constant b - constant a)) = true →
                 w = constant hi')).
Proof.
  intros Hbounds Hfits Hrow Hcells Hcell.
  destruct (apply_cell l x i j row bounds cells a b v Hbounds Hfits Hrow
              Hcells Hcell) as (out & Hout & Hw).
  destruct (broadcast_lookup bounds row cells j (a, b) v Hcells Hcell)
    as [Hentry _].
  destruct (output_spec_bounds_at l bounds j a b Hbounds Hentry)
    as (spec & Hspec & Hat).
  exists out, (apply_element a b v), spec.
  destruct (isinf a || isinf b) eqn:Hinf.
  - exists a, b. repeat (split; [assumption|]).
    split; [reflexivity|].
    rewrite (apply_element_infinite a b v Hinf). auto.
  - exists (Finite (-2)), (Finite 2). repeat (split; [assumption|]).
    split; [reflexivity|]. intros Ha Hb Hlt.
    rewrite (apply_element_finite a b v Hinf). split.
    + intros ->. apply affine_lower; assumption.
    + intros -> Hfour. apply affine_upper; assumption.
Qed.

End linear_normalization_more.


Lemma linear_init_rejects_witness :
  ∃ shapes,
    LinearNormalization.broadcast
      [LinearNormalization.Finite 0; LinearNormalization.Finite 0]
      [LinearNormalization.Finite 1; LinearNormalization.Finite 1;
       LinearNormalization.Finite 1]
    = inl shapes
    ∧ LinearNormalization.init (E := Empty_set)
        (Some [LinearNormalization.Finite 0; LinearNormalization.Finite 0])
        (Some [LinearNormalization.Finite 1; LinearNormalization.Finite 1;
               LinearNormalization.Finite 1]) None None
      = inl (LinearNormalization.Shapes shapes).
Proof.
  destruct (@linear_init_rejects Empty_set Example.base
              (Some [LinearNormalization.Finite 0;
                     LinearNormalization.Finite 0])
              (Some [LinearNormalization.Finite 1;
                     LinearNormalization.Finite 1;
                     LinearNormalization.Finite 1]) None None
              (LinearNormalization.Shapes
                 (LinearNormalization.NotBroadcast 2 3)) eq_refl)
    as [(H & _)|[(H & _)|(lo & [= ->] & [(H & _)|[(H & _)|H]])]];
    try discriminate H.
  destruct H as (hi & [= ->] & [(shapes & Hshapes & Hvalue)
                               |[(pairs & a & b & H & _)|(e' & H & _)]]);
    try discriminate H.
  exists shapes. split; [exact Hshapes|]. rewrite <- Hvalue. reflexivity.
Defined.

Lemma linear_apply_within_output_spec_witness :
  ∃ out spec,
    LinearNormalization.apply
      {| LinearNormalization.min_value :=
           [LinearNormalization.Finite 0; LinearNormalization.Finite 0];
         LinearNormalization.max_value :=
           [LinearNormalization.Finite 10; LinearNormalization.PosInf] |}
      [[10; 7]]%float
    = inr out
    ∧ LinearNormalization.output_spec
        {| LinearNormalization.min_value :=
             [LinearNormalization.Finite 0; LinearNormalization.Finite 0];
           LinearNormalization.max_value :=
             [LinearNormalization.Finite 10; LinearNormalization.PosInf] |}
      = inr spec
    ∧ Range.bounds_at spec 0
      = Some (LinearNormalization.Finite (-2), LinearNormalization.Finite 2)
    ∧ out !! 0%nat ≫= (λ r, r !! 0%nat) = Some 2%float.
Proof.
  destruct (linear_apply_within_output_spec
              {| LinearNormalization.min_value :=
                   [LinearNormalization.Finite 0;
                    LinearNormalization.Finite 0];
                 LinearNormalization.max_value :=
                   [LinearNormalization.Finite 10;
                    LinearNormalization.PosInf] |}
              [[10; 7]]%float 0 0 [10; 7]%float
              [(LinearNormalization.Finite 0, LinearNormalization.Finite 10);
               (LinearNormalization.Finite 0, LinearNormalization.PosInf)]
              [(LinearNormalization.Finite 0, LinearNormalization.Finite 10,
                10%float);
               (LinearNormalization.Finite 0, LinearNormalization.PosInf,
                7%float)]
              (LinearNormalization.Finite 0) (LinearNormalization.Finite 10)
              10%float eq_refl)
    as (out & w & spec & lo' & hi' & Hout & Hw & Hspec & Hat & Hends).
  - repeat constructor. eexists. reflexivity.
  - reflexivity.
  - reflexivity.
  - reflexivity.
  - cbn [LinearNormalization.isinf orb] in Hends.
    destruct Hends as [[= -> ->] Hends].
    destruct (Hends eq_refl eq_refl eq_refl) as [_ Hupper].
    exists out, spec. split; [exact Hout|]. split; [exact Hspec|].
    split; [exact Hat|]. rewrite Hw, (Hupper eq_refl eq_refl). reflexivity.
Defined.

(** *** More on [ExponentialNormalization] *)

Section exponential_normalization_more.

Import ExponentialNormalization.
Import Range.
Local Open Scope float_scope.

Lemma apply_all_cons l vars call calls :
  apply_all l vars (call :: calls)
  = apply_all l (apply l vars call.1 call.2).2 calls.
Proof. reflexivity. Qed.

Lemma apply_flag l vars x independent :
  after_first_call (apply l vars x independent).2
  = after_first_call vars || commits (x, independent).
Proof.
  unfold apply, commits. destruct independent; simpl.
  - rewrite orb_false_r. reflexivity.
  - reflexivity.
Qed.

(** X4. Over any sequence of calls, in either mode, the after-first-call
    flag is set at the end exactly when it was set at the start or some
    call ran in training mode on a batch that is not empty; once set it
    is never cleared. *)
Theorem exponential_flag l vars calls :
  after_first_call (apply_all l vars calls)
  = after_first_call vars || existsb commits calls.
Proof.
  revert vars. induction calls as [|[x independent] calls IH]; intros vars.
  - simpl. rewrite orb_false_r. reflexivity.
  - rewrite apply_all_cons, IH, apply_flag. simpl.
    rewrite orb_assoc. reflexivity.
Qed.

Lemma length_reduce_mean n x : length (reduce_mean n x) = n.
Proof. unfold reduce_mean. rewrite length_fmap. apply length_seq. Qed.

Lemma length_blend d moving batch :
  length (blend d moving batch) = Nat.min (length moving) (length batch).
Proof. unfold blend. apply length_zip_with. Qed.

Lemma apply_shape l vars x independent :
  length (moving_mean vars) = features l →
  length (moving_variance vars) = features l →
  length (moving_mean (apply l vars x independent).2) = features l
  ∧ length (moving_variance (apply l vars x independent).2) = features l.
Proof.
  intros Hm Hv. unfold apply. destruct independent; simpl; [auto|].
  destruct (after_first_call vars || Nat.eqb (length x) 0).
  - rewrite !length_blend, !length_reduce_mean, Hm, Hv. lia.
  - rewrite !length_reduce_mean. auto.
Qed.

(** X5. From [initialize] on, whatever the calls, the moving mean and the
    moving variance keep one entry per feature (the shape
    [(1, features)] [initialize] gives them). *)
Theorem exponential_shape l calls :
  length (moving_mean (apply_all l (initialize l) calls)) = features l
  ∧ length (moving_variance (apply_all l (initialize l) calls)) = features l.
Proof.
  assert (length (moving_mean (initialize l)) = features l
          ∧ length (moving_variance (initialize l)) = features l) as Hinit.
  { simpl. rewrite !length_replicate. auto. }
  revert Hinit. generalize (initialize l).
  induction calls as [|[x independent] calls IH]; intros vars [Hm Hv].
  - auto.
  - rewrite apply_all_cons. apply IH. apply apply_shape; assumption.
Qed.

(** X6. While the flag is not set, a training call on a batch that is not
    empty depends on the batch alone: whatever the moving statistics hold
    before (zeros, or what a call on an empty batch has left there), the
    output and the variables after the call are the same. *)
Theorem exponential_first_batch l vars vars' x :
  after_first_call vars = false →
  after_first_call vars' = false →
  x ≠ [] →
  apply l vars x false = apply l vars' x false.
Proof.
  intros Hf Hf' Hx. unfold apply. rewrite Hf, Hf'.
  destruct x as [|row x]; [contradiction|]. reflexivity.
Qed.

Lemma exponential_first_batch_witness :
  apply Example.layer
    (apply Example.layer (initialize Example.layer) [] false).2 [[2]; [4]] false
  = apply Example.layer (initialize Example.layer) [[2]; [4]] false.
Proof.
  apply exponential_first_batch.
  - reflexivity.
  - reflexivity.
  - discriminate.
Defined.

End exponential_normalization_more.

(** *** Scatter-writes and gathers *)

Section scatter_gather.

Import Model.

Context {V : Type} `{!Inhabited V}.

Lemma length_scatter_update (buffer : list V) parallel values :
  length (scatter_update buffer parallel values) = length buffer.
Proof.
  unfold scatter_update. generalize (zip parallel values). intros writes.
  revert buffer. induction writes as [|w writes IH]; intros buffer;
    [reflexivity|].
  simpl. rewrite IH. apply length_insert.
Qed.

Lemma lookup_writes_other (buffer : list V) (writes : list (nat * V)) j :
  j ∉ writes.*1 →
  foldl (λ b (w : nat * V), <[w.1 := w.2]> b) buffer writes !! j
  = buffer !! j.
Proof.
  revert buffer. induction writes as [|[p v] writes IH]; intros buffer Hj;
    [reflexivity|].
  simpl in *. apply not_elem_of_cons in Hj as [Hne Hj].
  rewrite IH by exact Hj. apply list_lookup_insert_ne. auto.
Qed.

Lemma lookup_writes_last (buffer : list V) (before after : list (nat * V))
    p v :
  p ∉ after.*1 → p < length buffer →
  foldl (λ b (w : nat * V), <[w.1 := w.2]> b) buffer
    (before ++ (p, v) :: after) !! p
  = Some v.
Proof.
  intros Hafter Hp. rewrite foldl_app. simpl.
  rewrite lookup_writes_other by exact Hafter.
  apply list_lookup_insert_eq.
  fold (scatter_update buffer before.*1 before.*2).
  clear -Hp. revert buffer Hp.
  induction before as [|w before IH]; intros buffer Hp; [exact Hp|].
  simpl. apply IH. rewrite length_insert. exact Hp.
Qed.

Lemma lookup_scatter_update_other (buffer : list V) parallel values j :
  j ∉ parallel →
  scatter_update buffer parallel values !! j = buffer !! j.
Proof.
  intros Hj. apply lookup_writes_other. intros Hin. apply Hj.
  apply list_elem_of_fmap in Hin as ([p v] & -> & Hin).
  apply elem_of_zip_l in Hin. exact Hin.
Qed.

Lemma lookup_scatter_update_last (buffer : list V) parallel values k p v :
  parallel !! k = Some p →
  values !! k = Some v →
  p < length buffer →
  (∀ k', k < k' → parallel !! k' ≠ Some p) →
  scatter_update buffer parallel values !! p = Some v.
Proof.
  intros Hp Hv Hlen Hlast. unfold scatter_update.
  assert (zip parallel values !! k = Some (p, v)) as Hk.
  { apply lookup_zip_with_Some. eauto. }
  rewrite <- (take_drop_middle _ _ _ Hk).
  apply lookup_writes_last; [|exact Hlen].
  intros Hin. apply list_elem_of_fmap in Hin as ([p' v'] & Heq & Hin).
  simpl in Heq. subst p'.
  apply list_elem_of_lookup in Hin as [i Hi].
  rewrite lookup_drop in Hi.
  apply lookup_zip_with_Some in Hi as (p' & v'' & [= <- <-] & Hi & _).
  apply (Hlast (S k + i)); [lia|exact Hi].
Qed.

(** Gathering after a scatter-write, shared by the properties of the
    lists and of [act]. *)
Lemma gather_scatter_update_same (buffer : list V) parallel values :
  NoDup parallel →
  length values = length parallel →
  Forall (λ p, p < length buffer) parallel →
  gather (scatter_update buffer parallel values) parallel = values.
Proof.
  intros Hnodup Hlen Hrange. apply list_eq. intros k. unfold gather.
  rewrite list_lookup_fmap.
  destruct (parallel !! k) as [p|] eqn:Hp; simpl.
  - assert (is_Some (values !! k)) as [v Hv].
    { apply lookup_lt_is_Some. rewrite Hlen.
      eapply lookup_lt_Some. exact Hp. }
    rewrite Hv. f_equal. apply list_lookup_total_correct.
    apply (lookup_scatter_update_last buffer parallel values k p v);
      [exact Hp|exact Hv| |].
    + rewrite Forall_forall in Hrange. apply Hrange.
      apply list_elem_of_lookup. eauto.
    + intros k' Hk' Hp'.
      pose proof (NoDup_lookup _ _ _ _ Hnodup Hp Hp'). lia.
  - symmetry. apply lookup_ge_None. rewrite Hlen.
    apply lookup_ge_None in Hp. exact Hp.
Qed.

(** X7. A slot that is not among the indices keeps its entry through a
    scatter-write, and the buffer keeps its length. *)
Theorem scatter_update_other (buffer : list V) parallel values j :
  j ∉ parallel →
  scatter_update buffer parallel values !! j = buffer !! j
  ∧ length (scatter_update buffer parallel values) = length buffer.
Proof.
  intros Hj. split.
  - apply lookup_scatter_update_other. exact Hj.
  - apply length_scatter_update.
Qed.

(** X8. Last writer wins: when a slot occurs several times among the
    indices of one scatter-write, the buffer ends with the row written
    for its last occurrence, whatever has been written to it before. *)
Theorem scatter_update_last_writer (buffer : list V) before after
    values_before values_after p v :
  length values_before = length before →
  p ∉ after →
  p < length buffer →
  scatter_update buffer (before ++ p :: after)
    (values_before ++ v :: values_after) !! p
  = Some v.
Proof.
  intros Hlen Hafter Hp. unfold scatter_update.
  rewrite zip_with_app by (symmetry; exact Hlen). simpl.
  apply lookup_writes_last; [|exact Hp].
  intros Hin. apply Hafter.
  apply list_elem_of_fmap in Hin as ([p' v'] & -> & Hin).
  apply elem_of_zip_l in Hin. exact Hin.
Qed.

(** X9. Round trip: after a scatter-write of one row per index, at
    distinct slots that exist, gathering the same indices gives back the
    rows written. *)
Theorem gather_scatter_update (buffer : list V) parallel values :
  NoDup parallel →
  length values = length parallel →
  Forall (λ p, p < length buffer) parallel →
  gather (scatter_update buffer parallel values) parallel = values.
Proof.
  apply gather_scatter_update_same.
Qed.

End scatter_gather.

Lemma scatter_update_other_witness :
  Model.scatter_update [10; 20; 30] [0; 2] [1; 3] !! 1 = Some 20.
Proof.
  destruct (scatter_update_other [10; 20; 30] [0; 2] [1; 3] 1) as [H _].
  - intros Hin. apply list_elem_of_In in Hin. simpl in Hin.
    destruct Hin as [Hin|[Hin|[]]]; discriminate Hin.
  - exact H.
Defined.

Lemma scatter_update_last_writer_witness :
  Model.scatter_update [10; 20; 30] [1; 1] [7; 8] !! 1 = Some 8.
Proof.
  apply (scatter_update_last_writer [10; 20; 30] [1] [] [7] [] 1 8).
  - reflexivity.
  - apply not_elem_of_nil.
  - simpl. lia.
Defined.

Lemma gather_scatter_update_witness :
  Model.gather (Model.scatter_update [10; 20; 30] [2; 0] [7; 8]) [2; 0] = [7; 8].
Proof.
  apply gather_scatter_update.
  - apply NoDup_cons. split; [|apply NoDup_singleton].
    intros Hin. apply list_elem_of_In in Hin. simpl in Hin.
    destruct Hin as [Hin|[]]. discriminate Hin.
  - reflexivity.
  - repeat constructor; simpl; lia.
Defined.

(** *** More on [Model.act] and [Model.independent_act] *)

Section act_more.

Import Model.
Import Dataflow.
Import Contract.
Import Frame.

Context {States Actions V : Type}.
Context `{!Hooks States Actions V} `{!Inhabited V}.

Lemma act_exec_keeps_counters (m : t V) vars states auxiliaries parallel o
    s s' :
  keeps_counters vars s →
  act_exec m states auxiliaries parallel o s = inr s' →
  keeps_counters vars s'.
Proof.
  intros (He & Hu & Hr & Ht). unfold keeps_counters. destruct o; simpl.
  - destruct (act_input_assertions _ _ _ _); [|discriminate].
    intros [= <-]. auto.
  - destruct (in_range m parallel); [|discriminate]. intros [= <-]. auto.
  - destruct (act_gathered s); [|discriminate]. intros [= <-]. auto.
  - destruct (act_core s) as [[actions internals]|]; [|discriminate].
    destruct (act_action_assertions _ _ _ _); [|discriminate].
    intros [= <-]. auto.
  - destruct (act_core s) as [[actions internals]|]; [|discriminate].
    intros [= <-]. simpl. auto.
  - intros [= <-]. simpl. repeat split; auto. lia.
  - destruct (act_core s) as [[actions internals]|]; [|discriminate].
    intros [= <-]. auto.
Qed.

Lemma act_execute_keeps_counters (m : t V) vars states auxiliaries parallel
    sched s :
  keeps_counters vars s →
  keeps_counters vars
    (final (execute (act_exec m states auxiliaries parallel) sched s)).
Proof.
  revert s. induction sched as [|o sched IH]; intros s Hs; [exact Hs|].
  simpl.
  destruct (act_exec m states auxiliaries parallel o s) as [e|s'] eqn:He;
    [exact Hs|].
  apply IH. eapply act_exec_keeps_counters; eauto.
Qed.

(** X10. Whatever the order of its operations, and whether it returns or
    raises, [act] leaves the episode counter, the update counter and the
    episode rewards as they are, and never decreases the timestep
    counter. *)
Theorem act_counters (m : t V) vars states auxiliaries parallel sched :
  keeps_counters vars
    (final (act_run m vars states auxiliaries parallel sched)).
Proof.
  unfold act_run. apply act_execute_keeps_counters.
  unfold keeps_counters. simpl. repeat split; auto. lia.
Qed.

Lemma act_exec_keeps_buffers (m : t V) vars states auxiliaries parallel o
    s s' :
  keeps_names →
  keeps_buffers vars parallel s →
  act_exec m states auxiliaries parallel o s = inr s' →
  keeps_buffers vars parallel s'.
Proof.
  intros Hnames Hkeeps. pose proof Hkeeps as (Hd & Hb & Hg & Hc).
  unfold keeps_buffers. destruct o; simpl.
  - destruct (act_input_assertions _ _ _ _); [|discriminate].
    intros [= <-]. exact Hkeeps.
  - destruct (in_range m parallel); [|discriminate]. intros [= <-]. simpl.
    split; [exact Hd|]. split; [exact Hb|]. split; [|exact Hc].
    intros gathered [= <-]. rewrite dom_fmap_L. exact Hd.
  - destruct (act_gathered s) as [gathered|] eqn:Hgs; [|discriminate].
    intros [= <-]. simpl.
    split; [exact Hd|]. split; [exact Hb|]. split; [exact Hg|].
    intros core [= <-]. rewrite Hnames. apply Hg. reflexivity.
  - destruct (act_core s) as [[actions internals]|] eqn:Hcs; [|discriminate].
    destruct (act_action_assertions _ _ _ _); [|discriminate].
    intros [= <-].
    first [exact Hkeeps|exact (conj Hd (conj Hb (conj Hg Hc)))].
  - destruct (act_core s) as [[actions internals]|] eqn:Hcs; [|discriminate].
    intros [= <-]. simpl.
    pose proof (Hc _ eq_refl) as Hdi. simpl in Hdi.
    split; [|split; [|split; [exact Hg|]]].
    + rewrite dom_map_zip_with_L, Hd, Hdi. apply (idemp_L (∩)).
    + intros name buffer. rewrite map_lookup_zip_with.
      destruct (previous_internals (act_vars s) !! name) as [previous|]
        eqn:Hp; [|discriminate].
      destruct (internals !! name) as [internal|]; [|discriminate].
      simpl. intros [= <-].
      destruct (Hb _ _ Hp) as (buffer0 & H0 & Hlen & Hslots).
      exists buffer0. split; [exact H0|].
      split; [rewrite length_scatter_update; exact Hlen|].
      intros j Hj.
      rewrite (lookup_scatter_update_other previous parallel internal j Hj).
      apply Hslots. exact Hj.
    + exact Hc.
  - intros [= <-]. simpl. exact Hkeeps.
  - destruct (act_core s) as [[actions internals]|] eqn:Hcs; [|discriminate].
    intros [= <-]. simpl.
    first [exact Hkeeps|exact (conj Hd (conj Hb (conj Hg Hc)))].
Qed.

Lemma act_run_keeps_buffers (m : t V) vars states auxiliaries parallel sched :
  keeps_names →
  keeps_buffers vars parallel
    (final (act_run m vars states auxiliaries parallel sched)).
Proof.
  intros Hnames. unfold act_run.
  assert (keeps_buffers vars parallel (@act_start Actions V vars)) as Hstart.
  { unfold keeps_buffers. simpl. split; [reflexivity|].
    split; [eauto|]. split; intros ? [=]. }
  revert Hstart. generalize (@act_start Actions V vars).
  induction sched as [|o sched IH]; intros s Hs; [exact Hs|].
  simpl.
  destruct (act_exec m states auxiliaries parallel o s) as [e|s'] eqn:He;
    [exact Hs|].
  apply IH. eapply act_exec_keeps_buffers; eauto.
Qed.

(** X11. With a [core_act] that returns internals under the names it is
    given: whatever the order of its operations, and whether it returns
    or raises, [act] on the slots [parallel] leaves every other slot as it
    was, its episode reward and its entry in each buffer. *)
Theorem act_slot_frame (m : t V) vars states auxiliaries parallel sched j :
  keeps_names →
  j ∉ parallel →
  slot j (act_vars (final (act_run m vars states auxiliaries parallel sched)))
  = slot j vars.
Proof.
  intros Hnames Hj.
  assert (keeps_counters vars
            (final (act_run m vars states auxiliaries parallel sched)))
    as (_ & _ & Hr & _).
  { apply act_execute_keeps_counters. unfold keeps_counters. simpl.
    repeat split; auto. lia. }
  pose proof (act_run_keeps_buffers m vars states auxiliaries parallel sched
                Hnames) as (Hd & Hb & _).
  unfold slot. rewrite Hr. f_equal.
  apply map_eq. intros name. rewrite !lookup_fmap.
  destruct (previous_internals
              (act_vars
                 (final (act_run m vars states auxiliaries parallel sched)))
              !! name) as [buffer|] eqn:Hbuf.
  - destruct (Hb _ _ Hbuf) as (buffer0 & -> & _ & Hslots).
    simpl. f_equal. apply Hslots. exact Hj.
  - apply not_elem_of_dom in Hbuf. rewrite Hd in Hbuf.
    apply not_elem_of_dom in Hbuf. rewrite Hbuf. reflexivity.
Qed.

(** X12. With such a [core_act], [act] keeps the shapes [core_initialize]
    gives the variables: one reward and one entry of every buffer per
    slot, one buffer per internal variable. *)
Theorem act_well_formed (m : t V) vars states auxiliaries parallel sched :
  keeps_names →
  well_formed m vars →
  well_formed m
    (act_vars (final (act_run m vars states auxiliaries parallel sched))).
Proof.
  intros Hnames (Hr & Hd & Hl).
  assert (keeps_counters vars
            (final (act_run m vars states auxiliaries parallel sched)))
    as (_ & _ & Hr' & _).
  { apply act_execute_keeps_counters. unfold keeps_counters. simpl.
    repeat split; auto. lia. }
  pose proof (act_run_keeps_buffers m vars states auxiliaries parallel sched
                Hnames) as (Hd' & Hb & _).
  split; [|split].
  - rewrite Hr'. exact Hr.
  - rewrite Hd'. exact Hd.
  - intros name buffer Hbuf.
    destruct (Hb _ _ Hbuf) as (buffer0 & H0 & Hlen & _).
    rewrite Hlen. exact (Hl _ _ H0).
Qed.

Lemma independent_act_exec_vars (m : t V) states internals auxiliaries o
    s s' :
  independent_act_exec m states internals auxiliaries o s = inr s' →
  ind_vars s' = ind_vars s.
Proof.
  destruct o; simpl.
  - destruct (independent_act_input_assertions _ _ _ _); [|discriminate].
    intros [= <-]. reflexivity.
  - intros [= <-]. reflexivity.
  - destruct (ind_core s) as [[actions internals']|]; [|discriminate].
    intros [= <-]. reflexivity.
Qed.

Lemma independent_act_execute_vars (m : t V) states internals auxiliaries
    sched s :
  ind_vars
    (final (execute (independent_act_exec m states internals auxiliaries)
              sched s))
  = ind_vars s.
Proof.
  revert s. induction sched as [|o sched IH]; intros s; [reflexivity|].
  simpl.
  destruct (independent_act_exec m states internals auxiliaries o s)
    as [e|s'] eqn:He; [reflexivity|].
  rewrite IH. eapply independent_act_exec_vars; eauto.
Qed.

(** X13. [independent_act] writes no variable: whatever its arguments and
    the order of its operations, and whether it returns or raises at an
    assertion, the variables at the end are those at the start. *)
Theorem independent_act_frame (m : t V) vars states internals auxiliaries
    sched run :
  independent_act_run m vars states internals auxiliaries sched = inr run →
  ind_vars (final run) = vars.
Proof.
  unfold independent_act_run.
  destruct (independent_act_arguments m internals auxiliaries)
    as [e|[i a]]; [discriminate|].
  intros [= <-]. apply independent_act_execute_vars.
Qed.

End act_more.

Lemma example_keeps_names :
  @Contract.keeps_names nat (list nat) nat Example.hooks.
Proof.
  intros states internals auxiliaries parallel independent. simpl.
  apply dom_fmap_L.
Qed.

Lemma act_slot_frame_witness :
  Model.slot 1
    (Model.act_vars
       (Dataflow.final
          (Model.act_run (Example.model true)
             (Model.core_initialize (Example.model true)) 1
             Example.all_valid [0] Model.act_ops)))
  = Model.slot 1 (Model.core_initialize (Example.model true)).
Proof.
  apply (act_slot_frame (Example.model true)).
  - exact example_keeps_names.
  - intros Hin. apply list_elem_of_In in Hin. simpl in Hin.
    destruct Hin as [Hin|[]]. discriminate Hin.
Defined.

Lemma act_well_formed_witness :
  Model.well_formed (Example.model true)
    (Model.act_vars
       (Dataflow.final
          (Model.act_run (Example.model true)
             (Model.core_initialize (Example.model true)) 1
             Example.all_valid [0] Model.act_ops))).
Proof.
  apply (act_well_formed (Example.model true)).
  - exact example_keeps_names.
  - apply example_well_formed.
Defined.

Lemma independent_act_frame_witness :
  ∃ run,
    Model.independent_act (Example.model true)
      (Model.core_initialize (Example.model true)) 1
      (Some {["state" := [5]]}) (Some Example.all_valid)
    = inr run
    ∧ Model.ind_vars (Dataflow.final run)
      = Model.core_initialize (Example.model true).
Proof.
  eexists. split; [reflexivity|].
  apply (independent_act_frame (Example.model true)
           (Model.core_initialize (Example.model true)) 1
           (Some {["state" := [5]]}) (Some Example.all_valid)
           Model.independent_act_ops).
  reflexivity.
Defined.

(** *** Runs of the entry points *)

Section runs.

Import Model.
Import Dataflow.
Import Contract.
Import Frame.
Import Api.

Context {States Actions V : Type}.
Context `{!Hooks States Actions V} `{!Inhabited V}.

(** One step of a symbolic run of [act]. *)
Ltac act_next Hin Hrange Hcore Hact :=
  cbn [execute act_exec act_vars act_gathered act_core act_result
       act_start timesteps episodes updates episode_reward
       previous_internals];
  rewrite ?Hin, ?Hrange, ?Hcore, ?Hact.

(** A call of [act] whose assertions hold, on slots that exist, returns,
    in every admissible order and with the same state at the end. *)
Lemma act_run_returns (m : t V) vars states auxiliaries parallel sched :
  let gathered :=
    (λ buffer, gather buffer parallel) <$> previous_internals vars in
  let core := core_act states gathered auxiliaries parallel false in
  act_input_assertions m states auxiliaries parallel = [] →
  in_range m parallel = true →
  act_action_assertions m auxiliaries core.1 (length parallel) = [] →
  act_admissible sched = true →
  act_run m vars states auxiliaries parallel sched
  = Returned
      {| act_vars :=
           {| timesteps := timesteps vars + Z.of_nat (length parallel);
              episodes := episodes vars;
              updates := updates vars;
              episode_reward := episode_reward vars;
              previous_internals :=
                map_zip_with
                  (λ previous internal,
                     scatter_update previous parallel internal)
                  (previous_internals vars) core.2 |};
         act_gathered := Some gathered;
         act_core := Some core;
         act_result :=
           Some (core.1, (timesteps vars + Z.of_nat (length parallel))%Z) |}.
Proof.
  intros gathered core Hin Hrange Hact Hs. subst gathered.
  destruct core as [actions internals] eqn:Hcore. subst core.
  cbn [fst snd] in *.
  apply act_admissible_orders in Hs.
  repeat (destruct Hs as [<-|Hs]); [..|destruct Hs].
  all: unfold act_run; do 8 act_next Hin Hrange Hcore Hact; reflexivity.
Qed.

(** X14. Round trip through the buffers: after a call of [act] that
    returns, on distinct slots and with a [core_act] that gives one row
    per sample for every internal variable, gathering the same slots
    gives back exactly the internals [core_act] returned: what the next
    call on these slots will hand to [core_act]. *)
Theorem act_then_gather (m : t V) vars states auxiliaries parallel sched :
  let gathered :=
    (λ buffer, gather buffer parallel) <$> previous_internals vars in
  let core := core_act states gathered auxiliaries parallel false in
  well_formed m vars →
  NoDup parallel →
  act_input_assertions m states auxiliaries parallel = [] →
  in_range m parallel = true →
  act_action_assertions m auxiliaries core.1 (length parallel) = [] →
  dom core.2 = dom (previous_internals vars) →
  map_Forall (λ (_ : string) (rows : list V), length rows = length parallel)
    core.2 →
  act_admissible sched = true →
  ∃ s,
    act_run m vars states auxiliaries parallel sched = Returned s
    ∧ (λ buffer, gather buffer parallel) <$> previous_internals (act_vars s)
      = core.2.
Proof.
  intros gathered core (Hr & Hd & Hl) Hnodup Hin Hrange Hact Hdom Hrows Hs.
  eexists. split;
    [exact (act_run_returns m vars states auxiliaries parallel sched
              Hin Hrange Hact Hs)|].
  cbn [act_vars previous_internals]. fold gathered. fold core.
  apply map_eq. intros name.
  rewrite lookup_fmap, map_lookup_zip_with.
  destruct (core.2 !! name) as [rows|] eqn:Hrow.
  - assert (is_Some (previous_internals vars !! name)) as [buffer Hbuf].
    { apply elem_of_dom. rewrite <- Hdom. apply elem_of_dom. eauto. }
    rewrite Hbuf. simpl. f_equal.
    apply gather_scatter_update_same; [exact Hnodup| |].
    + exact (Hrows _ _ Hrow).
    + rewrite (Hl _ _ Hbuf). apply Forall_forall. intros p Hp.
      unfold in_range in Hrange. rewrite forallb_forall in Hrange.
      apply Nat.ltb_lt, Hrange, list_elem_of_In. exact Hp.
  - destruct (previous_internals vars !! name); reflexivity.
Qed.

(** X15. The action assertions do not guard the writes. On a call whose
    input assertions hold, on slots that exist, and whose actions fail an
    action assertion, [act] raises at the action assertions and returns
    no action; but the scatter-writes and the increment wait for
    [core_act] only, so the buffers have been written and the timesteps
    counted exactly in the orders that run them before the assertions.
    The program order runs them after; an admissible order runs both
    before. *)
Theorem act_action_assertions_raise (m : t V) vars states auxiliaries
    parallel sched :
  let gathered :=
    (λ buffer, gather buffer parallel) <$> previous_internals vars in
  let core := core_act states gathered auxiliaries parallel false in
  act_input_assertions m states auxiliaries parallel = [] →
  in_range m parallel = true →
  act_action_assertions m auxiliaries core.1 (length parallel) ≠ [] →
  act_admissible sched = true →
  (∃ s,
     act_run m vars states auxiliaries parallel sched
     = Raised ActActionAssertions
         (act_action_assertions m auxiliaries core.1 (length parallel)) s
     ∧ act_result s = None
     ∧ timesteps (act_vars s)
       = (if before act_tag ActIncrement ActActionAssertions sched
          then timesteps vars + Z.of_nat (length parallel)
          else timesteps vars)%Z
     ∧ previous_internals (act_vars s)
       = if before act_tag ActScatter ActActionAssertions sched
         then map_zip_with
                (λ previous internal,
                   scatter_update previous parallel internal)
                (previous_internals vars) core.2
         else previous_internals vars)
  ∧ before act_tag ActScatter ActActionAssertions act_ops = false
  ∧ before act_tag ActIncrement ActActionAssertions act_ops = false
  ∧ ∃ sched',
      act_admissible sched' = true
      ∧ before act_tag ActScatter ActActionAssertions sched' = true
      ∧ before act_tag ActIncrement ActActionAssertions sched' = true.
Proof.
  intros gathered core Hin Hrange Hact Hs. subst gathered.
  destruct core as [actions internals] eqn:Hcore. subst core.
  cbn [fst snd] in *.
  split; [|split; [reflexivity|split; [reflexivity|]]].
  - destruct (act_action_assertions m auxiliaries actions (length parallel))
      as [|e violated] eqn:Hv; [congruence|].
    apply act_admissible_orders in Hs.
    repeat (destruct Hs as [<-|Hs]); [..|destruct Hs].
    all: eexists; split;
      [unfold act_run; do 8 act_next Hin Hrange Hcore Hv; reflexivity|].
    all: repeat split; reflexivity.
  - exists [ActInputAssertions; ActGather; ActCore; ActScatter; ActIncrement;
            ActActionAssertions; ActReturn].
    repeat split; reflexivity.
Qed.

(** X16. [observe] writes nothing when it raises: in both admissible
    orders, a call that raises does so at its input assertions, or at the
    reward update for a slot that does not exist, with the variables as
    they were at the start and no result. *)
Theorem observe_raise_frame (m : t V) vars terminal reward parallel sched
    o e s :
  observe_admissible sched = true →
  observe_run m vars terminal reward parallel sched = Raised o e s →
  obs_vars s = vars
  ∧ obs_result s = None
  ∧ (o = ObsInputAssertions
     ∧ e = observe_input_assertions m terminal reward parallel
     ∨ o = ObsEpisodeReward ∧ parallel_interactions m ≤ parallel).
Proof.
  intros Hs.
  apply observe_admissible_orders in Hs as [<-|[<-|[]]];
    unfold observe_run; cbn [execute observe_exec].
  all: destruct (observe_input_assertions m terminal reward parallel)
    as [|v violated] eqn:Hv;
    [|intros [= <- <- <-]; simpl; auto].
  all: cbn [execute observe_exec obs_vars obs_updated obs_result
            observe_start].
  all: destruct (Nat.ltb parallel (parallel_interactions m)) eqn:Hp;
    [discriminate|].
  all: apply Nat.ltb_ge in Hp.
  all: intros [= <- <- <-]; simpl; auto.
Qed.

(** X17. [independent_act] on a call whose assertions hold: an argument
    left out stands for an empty dict, which is accepted only when the
    model has no such inputs; [core_act] is run for slot 0 in
    independent mode; the actions are returned, with the internals only
    when the model has internal variables. *)
Theorem independent_act_returns (m : t V) vars states internals auxiliaries
    sched :
  let i := default ∅ internals in
  let a := default ∅ auxiliaries in
  let core := core_act states i a [0] true in
  (internals = None → size (internals_init m) = 0) →
  (auxiliaries = None → length (auxiliaries_spec m) = 0) →
  independent_act_input_assertions m states i a = [] →
  independent_act_admissible sched = true →
  ∃ s,
    independent_act_run m vars states internals auxiliaries sched
    = inr (Returned s)
    ∧ ind_result s
      = Some (core.1,
              if Nat.ltb 0 (size (internals_init m)) then Some core.2
              else None).
Proof.
  intros i a core Hi Ha Hv Hs. subst i a.
  apply independent_act_admissible_order in Hs as ->.
  unfold independent_act_run, independent_act_arguments.
  assert (match internals with
          | Some i => inr i
          | None =>
              if Nat.eqb (size (internals_init m)) 0
              then inr (∅ : gmap string (list V))
              else inl (AssertionError "internals")
          end = inr (default ∅ internals)) as ->.
  { destruct internals as [i|]; [reflexivity|].
    rewrite (Hi eq_refl). reflexivity. }
  assert (match auxiliaries with
          | Some a => inr (default ∅ internals, a)
          | None =>
              if Nat.eqb (length (auxiliaries_spec m)) 0
              then inr (default ∅ internals, (∅ : gmap string Mask))
              else inl (AssertionError "auxiliaries")
          end = inr (default ∅ internals, default ∅ auxiliaries)) as ->.
  { destruct auxiliaries as [a|]; [reflexivity|].
    rewrite (Ha eq_refl). reflexivity. }
  subst core.
  destruct (core_act states (default ∅ internals) (default ∅ auxiliaries)
              [0] true) as [actions internals'] eqn:Hcore.
  eexists. split.
  - cbn [execute independent_act_ops independent_act_exec]. rewrite Hv.
    cbn [execute independent_act_exec ind_core ind_vars ind_result
         independent_act_start].
    rewrite Hcore. reflexivity.
  - reflexivity.
Qed.

End runs.

(** *** [initialize_api] *)

Section initialize_api_facts.

Import Model.
Import Dataflow.
Import Contract.
Import Api.

Context {States Actions V : Type}.
Context `{!Hooks States Actions V} `{!Inhabited V}.

Lemma map_zip_with_scatter_nothing (buffers internals : gmap string (list V)) :
  dom internals = dom buffers →
  map_zip_with (λ previous internal, scatter_update previous [] internal)
    buffers internals
  = buffers.
Proof.
  intros Hdom. apply map_eq. intros name. rewrite map_lookup_zip_with.
  destruct (buffers !! name) as [buffer|] eqn:Hbuf; [|reflexivity].
  assert (is_Some (internals !! name)) as [rows ->].
  { apply elem_of_dom. rewrite Hdom. apply elem_of_dom. eauto. }
  reflexivity.
Qed.

(** On an empty batch of slots every operation of [act] leaves the
    variables as they are. *)
Lemma act_exec_nothing (m : t V) vars states auxiliaries o s s' :
  keeps_names →
  act_vars s = vars
  ∧ (∀ gathered, act_gathered s = Some gathered →
       dom gathered = dom (previous_internals vars))
  ∧ (∀ core, act_core s = Some core →
       dom core.2 = dom (previous_internals vars)) →
  act_exec m states auxiliaries [] o s = inr s' →
  act_vars s' = vars
  ∧ (∀ gathered, act_gathered s' = Some gathered →
       dom gathered = dom (previous_internals vars))
  ∧ (∀ core, act_core s' = Some core →
       dom core.2 = dom (previous_internals vars)).
Proof.
  intros Hnames (Hv & Hg & Hc). destruct o; simpl.
  - destruct (act_input_assertions _ _ _ _); [|discriminate].
    intros [= <-]. auto.
  - intros [= <-]. simpl.
    split; [exact Hv|]. split; [|exact Hc].
    intros gathered [= <-]. rewrite dom_fmap_L, Hv. reflexivity.
  - destruct (act_gathered s) as [gathered|] eqn:Hgs; [|discriminate].
    intros [= <-]. simpl. split; [exact Hv|]. split; [exact Hg|].
    intros core [= <-]. rewrite Hnames. apply Hg. reflexivity.
  - destruct (act_core s) as [[actions internals]|] eqn:Hcs; [|discriminate].
    destruct (act_action_assertions _ _ _ _); [|discriminate].
    intros [= <-]. split; [exact Hv|]. split; [exact Hg|].
    intros core Hcore. apply Hc. congruence.
  - destruct (act_core s) as [[actions internals]|] eqn:Hcs; [|discriminate].
    intros [= <-]. simpl.
    split; [|split; [exact Hg|intros core Hcore; apply Hc; congruence]].
    pose proof (Hc _ eq_refl) as Hdom. simpl in Hdom.
    rewrite map_zip_with_scatter_nothing by (rewrite Hv; exact Hdom).
    rewrite <- Hv. destruct (act_vars s). reflexivity.
  - intros [= <-]. simpl. split; [|split; [exact Hg|exact Hc]].
    rewrite Z.add_0_r. rewrite <- Hv. destruct (act_vars s). reflexivity.
  - destruct (act_core s) as [[actions internals]|] eqn:Hcs; [|discriminate].
    intros [= <-]. simpl. split; [exact Hv|]. split; [exact Hg|].
    intros core Hcore. apply Hc. congruence.
Qed.

Lemma act_run_nothing (m : t V) vars states auxiliaries sched :
  keeps_names →
  act_vars (final (act_run m vars states auxiliaries [] sched)) = vars.
Proof.
  intros Hnames. unfold act_run.
  assert (act_vars (@act_start Actions V vars) = vars
          ∧ (∀ gathered,
               act_gathered (@act_start Actions V vars) = Some gathered →
               dom gathered = dom (previous_internals vars))
          ∧ (∀ core, act_core (@act_start Actions V vars) = Some core →
               dom core.2 = dom (previous_internals vars))) as Hstart.
  { simpl. split; [reflexivity|]. split; intros ? [=]. }
  revert Hstart. generalize (@act_start Actions V vars).
  induction sched as [|o sched IH]; intros s Hs; [apply Hs|].
  simpl.
  destruct (act_exec m states auxiliaries [] o s) as [e|s'] eqn:He;
    [apply Hs|].
  apply IH. eapply act_exec_nothing; eauto.
Qed.

Lemma add_nothing_initial (m : t V) :
  add_episode_reward [] 0 (core_initialize m) = core_initialize m.
Proof.
  unfold add_episode_reward, core_initialize. simpl. f_equal.
  destruct (parallel_interactions m) as [|n]; reflexivity.
Qed.

(** On an empty batch, for slot 0, every operation of [observe] leaves
    the variables [core_initialize] has created as they are. *)
Lemma observe_exec_nothing (m : t V) o s s' :
  obs_vars s = core_initialize m →
  observe_exec m [] [] 0 o s = inr s' →
  obs_vars s' = core_initialize m.
Proof.
  intros Hv. destruct o; simpl.
  - destruct (observe_input_assertions _ _ _ _); [|discriminate].
    intros [= <-]. exact Hv.
  - destruct (Nat.ltb 0 (parallel_interactions m)); [|discriminate].
    intros [= <-]. simpl. rewrite Hv. apply add_nothing_initial.
  - intros [= <-]. exact Hv.
  - intros [= <-]. exact Hv.
  - destruct (obs_updated s); [|discriminate]. intros [= <-]. exact Hv.
Qed.

Lemma observe_run_nothing (m : t V) sched :
  obs_vars (final (observe_run m (core_initialize m) [] [] 0 sched))
  = core_initialize m.
Proof.
  unfold observe_run.
  assert (obs_vars (observe_start (core_initialize m)) = core_initialize m)
    as Hstart by reflexivity.
  revert Hstart. generalize (observe_start (core_initialize m)).
  induction sched as [|o sched IH]; intros s Hs; [exact Hs|].
  simpl.
  destruct (observe_exec m [] [] 0 o s) as [e|s'] eqn:He; [exact Hs|].
  apply IH. eapply observe_exec_nothing; eauto.
Qed.

(** X18. Tracing the API does not disturb the variables: with a
    [core_act] that returns internals under the names it is given,
    [initialize_api] run on the variables [core_initialize] has created
    leaves every one of them as created, in whatever order the operations
    of the three functions run, and whether or not one of them raises. *)
Theorem initialize_api_frame (m : t V) states internals auxiliaries o :
  keeps_names →
  (initialize_api m (core_initialize m) states internals auxiliaries o).1
  = core_initialize m.
Proof.
  intros Hnames. unfold initialize_api.
  pose proof (act_run_nothing m (core_initialize m) states auxiliaries
                (act_order o) Hnames) as Hact.
  destruct (act_run m (core_initialize m) states auxiliaries []
              (act_order o)) as [sa|oa ea sa]; simpl in Hact;
    [|exact Hact].
  rewrite Hact.
  unfold independent_act_run.
  destruct (independent_act_arguments m _ _) as [e|[i a]]; [reflexivity|].
  pose proof (independent_act_execute_vars m states i a
                (independent_act_order o)
                (independent_act_start (core_initialize m))) as Hind.
  destruct (execute (independent_act_exec m states i a)
              (independent_act_order o)
              (independent_act_start (core_initialize m)))
    as [si|oi ei si]; simpl in Hind; [|exact Hind].
  rewrite Hind.
  pose proof (observe_run_nothing m (observe_order o)) as Hobs.
  destruct (observe_run m (core_initialize m) [] [] 0 (observe_order o))
    as [so|oo eo so]; exact Hobs.
Qed.

(** X19. With [config.create_tf_assertions] unset and at least one slot,
    [initialize_api] raises nothing, in any admissible order:
    [independent_act] is given the internals and the auxiliaries exactly
    when its argument checks ask for them. *)
Theorem initialize_api_returns (m : t V) vars states internals auxiliaries
    o :
  create_tf_assertions (config m) = false →
  0 < parallel_interactions m →
  act_admissible (act_order o) = true →
  independent_act_admissible (independent_act_order o) = true →
  observe_admissible (observe_order o) = true →
  (initialize_api m vars states internals auxiliaries o).2 = None.
Proof.
  intros Hoff Hslot Ha Hi Ho. unfold initialize_api.
  rewrite (act_run_returns m vars states auxiliaries [] (act_order o)).
  - apply independent_act_admissible_order in Hi as ->.
    unfold independent_act_run, independent_act_arguments.
    destruct (size (internals_init m)) as [|n]; simpl;
      destruct (length (auxiliaries_spec m)) as [|k]; simpl.
    all: unfold independent_act_input_assertions; rewrite Hoff; simpl.
    all: match goal with
         | |- context [core_act ?s ?i ?a ?p ?b] =>
             destruct (core_act s i a p b) as [actions internals']
         end; simpl.
    all: rewrite (observe_run_returns m _ [] [] 0 (observe_order o));
      [reflexivity| |exact Hslot|exact Ho].
    all: unfold observe_input_assertions; rewrite Hoff; reflexivity.
  - unfold act_input_assertions. rewrite Hoff. reflexivity.
  - reflexivity.
  - unfold act_action_assertions. rewrite Hoff. reflexivity.
  - exact Ha.
Qed.

End initialize_api_facts.

Lemma initialize_api_frame_witness :
  Api.initialize_api (Example.model true)
    (Model.core_initialize (Example.model true)) 0 {["state" := []]}
    {["action" := []]} Api.program_orders
  = (Model.core_initialize (Example.model true), None).
Proof.
  apply injective_projections; [|reflexivity].
  apply (initialize_api_frame (Example.model true) 0 {["state" := []]}
           {["action" := []]} Api.program_orders).
  exact example_keeps_names.
Defined.

Lemma initialize_api_returns_witness :
  (Api.initialize_api (Example.model false)
     (Model.core_initialize (Example.model false)) 0 {["state" := []]}
     {["action" := []]} Api.program_orders).2
  = None.
Proof.
  apply (initialize_api_returns (Example.model false)).
  - reflexivity.
  - simpl. lia.
  - reflexivity.
  - reflexivity.
  - reflexivity.
Defined.

(** *** The properties above, on the example model *)

Lemma act_then_gather_witness :
  ∃ s,
    Model.act_run (Example.model true)
      (Model.core_initialize (Example.model true)) 1 Example.all_valid [0]
      Model.act_ops
    = Dataflow.Returned s
    ∧ (λ buffer, Model.gather buffer [0])
        <$> Model.previous_internals (Model.act_vars s)
      = {["state" := [1]]}.
Proof.
  destruct (act_then_gather (Example.model true)
              (Model.core_initialize (Example.model true)) 1
              Example.all_valid [0] Model.act_ops) as (s & Hrun & Hgather).
  - apply example_well_formed.
  - apply NoDup_singleton.
  - reflexivity.
  - reflexivity.
  - reflexivity.
  - simpl. rewrite !dom_fmap_L. reflexivity.
  - simpl. intros name rows. rewrite !lookup_fmap.
    destruct (({["state" := 0]} : gmap string nat) !! name); [|discriminate].
    simpl. intros [= <-]. reflexivity.
  - reflexivity.
  - exists s. split; [exact Hrun|]. rewrite Hgather. simpl.
    rewrite !map_fmap_singleton. reflexivity.
Defined.

Lemma act_action_assertions_raise_witness :
  ∃ s,
    Model.act_run (Example.model true)
      (Model.core_initialize (Example.model true)) 1
      {["action" := [[[false; true; true]]]]} [0]
      [Model.ActInputAssertions; Model.ActGather; Model.ActCore;
       Model.ActScatter; Model.ActIncrement; Model.ActActionAssertions;
       Model.ActReturn]
    = Dataflow.Raised Model.ActActionAssertions
        [Model.ActionMaskCheck "action"] s
    ∧ Model.act_result s = None
    ∧ Model.timesteps (Model.act_vars s) = 1%Z.
Proof.
  destruct (act_action_assertions_raise (Example.model true)
              (Model.core_initialize (Example.model true)) 1
              {["action" := [[[false; true; true]]]]} [0]
              [Model.ActInputAssertions; Model.ActGather; Model.ActCore;
               Model.ActScatter; Model.ActIncrement;
               Model.ActActionAssertions; Model.ActReturn])
    as ((s & Hrun & Hresult & Htimesteps & _) & _).
  - reflexivity.
  - reflexivity.
  - discriminate.
  - reflexivity.
  - exists s. split; [exact Hrun|]. split; [exact Hresult|].
    exact Htimesteps.
Defined.

Lemma observe_raise_frame_witness :
  Model.obs_vars
    (Model.observe_start (Model.core_initialize (Example.model true)))
  = Model.core_initialize (Example.model true)
  ∧ Model.obs_result
      (Model.observe_start (Model.core_initialize (Example.model true)))
    = None.
Proof.
  destruct (observe_raise_frame (Example.model true)
              (Model.core_initialize (Example.model true)) [1; 0]
              [1; 1]%float 0 Model.observe_ops Model.ObsInputAssertions
              [Model.TerminalNotLast]
              (Model.observe_start
                 (Model.core_initialize (Example.model true))))
    as (Hvars & Hresult & _).
  - reflexivity.
  - reflexivity.
  - split; [exact Hvars|exact Hresult].
Defined.

Lemma independent_act_returns_witness :
  ∃ s,
    Model.independent_act_run (Example.model false)
      (Model.core_initialize (Example.model false)) 1
      (Some {["state" := [5]]}) (Some Example.all_valid)
      Model.independent_act_ops
    = inr (Dataflow.Returned s)
    ∧ Model.ind_result s = Some ([0], Some {["state" := [6]]}).
Proof.
  destruct (independent_act_returns (Example.model false)
              (Model.core_initialize (Example.model false)) 1
              (Some {["state" := [5]]}) (Some Example.all_valid)
              Model.independent_act_ops) as (s & Hrun & Hresult).
  - discriminate.
  - discriminate.
  - reflexivity.
  - reflexivity.
  - exists s. split; [exact Hrun|]. rewrite Hresult. simpl.
    rewrite map_fmap_singleton. reflexivity.
Defined.

(** *** More on [Model.save] and [Model.restore] *)

Section persistence_more.

Import Model.

Context {V : Type}.

(** X20. [restore] reads three formats only: whenever it returns, the
    format is 'checkpoint', 'numpy' or 'hdf5'. The fourth format of
    [save] has no way back: [restore] refuses 'saved-model' whatever the
    disk holds, while [save], given a directory, exports one. *)
Theorem restore_formats (m : t V) vars stored latest directory filename :
  (∀ format result,
     restore m vars stored latest directory filename format = inr result →
     format = "checkpoint" ∨ format = "numpy" ∨ format = "hdf5")
  ∧ restore m vars stored latest directory filename "saved-model"
    = inl (Value "Model.load" "format" "saved-model")
  ∧ ∀ target name append,
      ∃ path,
        save m vars (Some target) name "saved-model" append
        = inr (path, SavedModelExport).
Proof.
  split; [|split].
  - intros format result Hrestore. unfold restore in Hrestore.
    destruct (String.eqb format "checkpoint") eqn:Hc;
      [apply String.eqb_eq in Hc; auto|].
    destruct (String.eqb format "saved-model") eqn:Hs; [discriminate|].
    destruct (String.eqb format "numpy") eqn:Hn;
      [apply String.eqb_eq in Hn; auto|].
    destruct (String.eqb format "hdf5") eqn:Hh;
      [apply String.eqb_eq in Hh; auto|].
    discriminate.
  - reflexivity.
  - intros target filename' append. eexists. reflexivity.
Qed.

(** X21. Round trip through an archive: what [save] writes in the format
    'numpy' or 'hdf5', under a directory and a file name, [restore] reads
    back in the same format from the same directory, under the file name
    with the [append] suffix [save] has added: the three counters come
    back, and are returned; the episode reward and the buffers, which are
    not among the saved variables, stay what they are in the model
    restored into. *)
Theorem archive_round_trip (m : t V) (vars vars' : variables V) stored latest
    directory filename format append path written :
  format = "numpy" ∨ format = "hdf5" →
  save m vars (Some directory) (Some filename) format append
  = inr (path, written) →
  stored path = Some written →
  let filename' :=
    match append with
    | Some u => filename +:+ "-" +:+ pretty (units vars u)
    | None => filename
    end in
  ∃ restored,
    restore m vars' stored latest (Some directory) (Some filename') format
    = inr (restored, (timesteps vars, episodes vars, updates vars))
    ∧ timesteps restored = timesteps vars
    ∧ episodes restored = episodes vars
    ∧ updates restored = updates vars
    ∧ episode_reward restored = episode_reward vars'
    ∧ previous_internals restored = previous_internals vars'.
Proof.
  intros [-> | ->]; unfold save; cbn -[take_snapshot];
    intros [= <- <-] Hstored;
    unfold restore; cbn -[take_snapshot load_snapshot];
    rewrite Hstored; try rewrite Hstored;
    rewrite take_snapshot_counters;
    (eexists; split; [reflexivity|]; cbn; auto).
Qed.

(** X22. Without a directory [save] writes nothing, except through the
    saver: a call with no directory that gives a file name, or a format
    other than 'checkpoint', or is made on a model without saver, raises
    "required argument: directory", and does so before the format is
    looked at, whatever it is. *)
Theorem save_requires_directory (m : t V) vars filename format append :
  filename ≠ None ∨ format ≠ "checkpoint" ∨ saver m = None →
  save m vars None filename format append
  = inl (Required "Model.save" "directory").
Proof.
  intros Hcase. unfold save.
  destruct filename as [f|]; [reflexivity|].
  destruct (String.eqb format "checkpoint") eqn:Hc; [|reflexivity].
  apply String.eqb_eq in Hc.
  destruct Hcase as [Hf|[Hf|Hs]]; [congruence|congruence|].
  rewrite Hs. reflexivity.
Qed.

End persistence_more.

Lemma archive_round_trip_witness :
  ∃ restored,
    Model.restore (Example.model true)
      (Model.core_initialize (Example.model true))
      (λ p, if String.eqb p "directory/agent-3.hdf5"
            then Some (Model.ArchiveFile
                         [(Model.Timesteps, Model.IntValue 3);
                          (Model.Episodes, Model.IntValue 1);
                          (Model.Updates, Model.IntValue 0)])
            else None)
      (λ _, None) (Some "directory") (Some "agent-3") "hdf5"
    = inr (restored, (3, 1, 0)%Z).
Proof.
  destruct (archive_round_trip (Example.model true)
              {| Model.timesteps := 3; Model.episodes := 1;
                 Model.updates := 0;
                 Model.episode_reward := [0; 0]%float;
                 Model.previous_internals := {["state" := [7; 7]]} |}
              (Model.core_initialize (Example.model true))
              (λ p, if String.eqb p "directory/agent-3.hdf5"
                    then Some (Model.ArchiveFile
                                 [(Model.Timesteps, Model.IntValue 3);
                                  (Model.Episodes, Model.IntValue 1);
                                  (Model.Updates, Model.IntValue 0)])
                    else None)
              (λ _, None) "directory" "agent" "hdf5"
              (Some Model.UnitTimesteps) "directory/agent-3.hdf5"
              (Model.ArchiveFile
                 [(Model.Timesteps, Model.IntValue 3);
                  (Model.Episodes, Model.IntValue 1);
                  (Model.Updates, Model.IntValue 0)]))
    as (restored & Hrestore & _).
  - right. reflexivity.
  - reflexivity.
  - reflexivity.
  - exists restored. exact Hrestore.
Defined.

Lemma save_requires_directory_witness :
  Model.save (Example.model true)
    (Model.core_initialize (Example.model true)) None None "numpy" None
  = inl (Model.Required "Model.save" "directory").
Proof.
  apply save_requires_directory. right. left. discriminate.
Defined.

(** *** [Model.__init__] *)

Section model_init.

Import ModelInit.

(** Membership in sets and lists, unfolded and decided. *)
Ltac by_membership := set_unfold; intuition (subst; eauto; congruence).

Lemma add_names_inr names (taken taken' : gset string) :
  add_names names taken = inr taken' →
  NoDup names
  ∧ (∀ name, name ∈ names → name ∉ taken)
  ∧ taken' = list_to_set names ∪ taken.
Proof.
  revert taken. induction names as [|name names IH]; intros taken; simpl.
  - intros [= <-]. split; [constructor|]. split; [|by_membership].
    intros name Hin. apply elem_of_nil in Hin. destruct Hin.
  - destruct (bool_decide (name ∈ taken)) eqn:Hname; [discriminate|].
    apply bool_decide_eq_false in Hname.
    intros Hrest. apply IH in Hrest as (Hnodup & Hfresh & ->).
    split; [|split].
    + constructor; [|exact Hnodup].
      intros Hin. apply (Hfresh _ Hin). by_membership.
    + intros name' Hin. apply elem_of_cons in Hin as [->|Hin];
        [exact Hname|].
      intros Htaken. apply (Hfresh _ Hin). by_membership.
    + by_membership.
Qed.

Lemma add_names_inl names (taken : gset string) e :
  add_names names taken = inl e →
  ∃ before name after,
    names = before ++ name :: after
    ∧ e = Exists "value name" name
    ∧ (name ∈ taken ∨ name ∈ before).
Proof.
  revert taken. induction names as [|name names IH]; intros taken; simpl;
    [discriminate|].
  destruct (bool_decide (name ∈ taken)) eqn:Hname.
  - apply bool_decide_eq_true in Hname. intros [= <-].
    exists [], name, names. auto.
  - intros Hrest.
    apply IH in Hrest as (before & name' & after & -> & -> & Hin).
    exists (name :: before), name', after.
    split; [reflexivity|]. split; [reflexivity|].
    destruct Hin as [Hin|Hin]; [|right; by_membership].
    apply elem_of_union in Hin as [Hin|Hin]; [|left; exact Hin].
    right. by_membership.
Qed.

(** What an object that has been built says of each step. *)
Lemma init_inr states actions l2 p config saver' summarizer' b :
  (init states actions l2 p config saver' summarizer').2 = inr b →
  ∃ names,
    add_names (states.*1) (list_to_set reserved) = inr names
    ∧ (actions_check actions).2 = None
    ∧ add_names (actions.*1) names = inr (value_names b)
    ∧ (1 ≤ p)%Z
    ∧ saver_check saver' = inr (saver b)
    ∧ summarizer_check summarizer' = inr (summarizer b, summary_labels b)
    ∧ parallel_interactions b = Z.to_nat p
    ∧ actions_spec b = actions
    ∧ states_spec b = states.
Proof.
  unfold init. destruct l2 as [regularization|]; [|discriminate].
  destruct (add_names (states.*1) (list_to_set reserved)) as [e|names]
    eqn:Hstates; [discriminate|].
  destruct (actions_check actions) as [warnings [e|]]; [discriminate|].
  destruct (add_names (actions.*1) names) as [e|names'] eqn:Hactions;
    [discriminate|].
  destruct (Z.leb 1 p) eqn:Hp; [|discriminate]. apply Z.leb_le in Hp.
  destruct (saver_check saver') as [e|s]; [discriminate|].
  destruct (summarizer_check summarizer') as [e|[s' l]]; [discriminate|].
  simpl. intros [= <-]. exists names. simpl. repeat split; auto.
Qed.

(** X23. An object that has been built has pairwise distinct value
    names: the three reserved names ('terminal', 'reward', 'parallel'),
    the names of the states and the names of the actions share nothing,
    and [value_names] holds exactly these. *)
Theorem init_value_names states actions l2 p config saver' summarizer' b :
  (init states actions l2 p config saver' summarizer').2 = inr b →
  NoDup (reserved ++ states.*1 ++ actions.*1)
  ∧ value_names b = list_to_set (reserved ++ states.*1 ++ actions.*1).
Proof.
  intros Hinit.
  apply init_inr in Hinit as (names & Hstates & _ & Hactions & _).
  apply add_names_inr in Hstates as (Hnodup1 & Hfresh1 & ->).
  apply add_names_inr in Hactions as (Hnodup2 & Hfresh2 & ->).
  split.
  - apply NoDup_app. split; [|split].
    + unfold reserved. repeat constructor; by_membership.
    + intros name Hres Hin. apply elem_of_app in Hin as [Hin|Hin].
      * apply (Hfresh1 _ Hin). by_membership.
      * apply (Hfresh2 _ Hin). by_membership.
    + apply NoDup_app. split; [exact Hnodup1|]. split; [|exact Hnodup2].
      intros name Hst Hac. apply (Hfresh2 _ Hac). by_membership.
  - rewrite !list_to_set_app_L. by_membership.
Qed.

(** X24. The constructor first asserts that a regularization is set:
    without one it raises an [AssertionError] with nothing logged. With
    one, its first error is a name collision among the states: a state
    that carries a reserved name, or the name of a state before it, is
    raised as existing whatever the rest of the arguments, and the
    warnings of all the states are logged by then. *)
Theorem init_state_collision states actions p config saver' summarizer' :
  ¬ NoDup (reserved ++ states.*1) →
  init states actions None p config saver' summarizer'
  = ([], inl AssertionError)
  ∧ ∀ regularization,
      ∃ before name after,
        states.*1 = before ++ name :: after
        ∧ (name ∈ reserved ∨ name ∈ before)
        ∧ init states actions (Some regularization) p config saver'
            summarizer'
          = (states_warnings states, inl (Exists "value name" name)).
Proof.
  intros Hdup. split; [reflexivity|]. intros regularization. unfold init.
  destruct (add_names (states.*1) (list_to_set reserved)) as [e|names]
    eqn:Hnames.
  - apply add_names_inl in Hnames as (before & name & after & Hsplit & ->
                                      & Hin).
    exists before, name, after. split; [exact Hsplit|].
    split; [|reflexivity].
    destruct Hin as [Hin|Hin]; [left; by_membership|right; exact Hin].
  - exfalso. apply Hdup.
    apply add_names_inr in Hnames as (Hnodup & Hfresh & _).
    apply NoDup_app. split; [|split; [|exact Hnodup]].
    + unfold reserved. repeat constructor; by_membership.
    + intros name Hres Hin. apply (Hfresh _ Hin). by_membership.
Qed.

Lemma action_check_inr name spec :
  (∃ warning, action_check name spec = inr warning) ↔ bounds_pass spec.
Proof.
  unfold action_check, bounds_pass.
  destruct (spec_type spec); try (split; [discriminate|eauto]).
  destruct (spec_min_value spec) as [lo|].
  - destruct (any_isinf lo) eqn:Hlo.
    + split; [intros [w Hw]; discriminate|].
      intros Hpass. destruct (Hpass eq_refl lo eq_refl) as [Habs _].
      congruence.
    + destruct (spec_max_value spec) as [hi|].
      * destruct (any_isinf hi) eqn:Hhi.
        -- split; [intros [w Hw]; discriminate|].
           intros Hpass. destruct (Hpass eq_refl lo eq_refl) as [_ Habs].
           specialize (Habs hi eq_refl). congruence.
        -- split; [|eauto]. intros _ _ lo' [= <-].
           split; [exact Hlo|]. intros hi' [= <-]. exact Hhi.
      * split; [|eauto]. intros _ _ lo' [= <-].
        split; [exact Hlo|]. discriminate.
  - split; [|eauto]. intros _ _ lo. discriminate.
Qed.

(** X25. The loop over the actions raises nothing exactly when every
    float action has its bounds in order: a lower bound that is given is
    finite, and an upper bound that is given together with a lower bound
    is finite. The upper bound is looked at only after a lower bound has
    been found: an infinite upper bound passes when no lower bound is
    given. *)
Theorem actions_check_accepts actions :
  (actions_check actions).2 = None
  ↔ ∀ name spec, (name, spec) ∈ actions → bounds_pass spec.
Proof.
  induction actions as [|[name spec] actions IH]; simpl.
  - split; [|reflexivity]. intros _ name spec Hin.
    apply elem_of_nil in Hin. destruct Hin.
  - pose proof (action_check_inr name spec) as Hhead.
    destruct (action_check name spec) as [e|warning].
    + split; [discriminate|]. intros Hall. exfalso.
      assert (bounds_pass spec) as Hpass
        by (apply (Hall name); apply elem_of_cons; auto).
      apply Hhead in Hpass as [w Hw]. discriminate.
    + destruct (actions_check actions) as [log raised]. simpl in *.
      rewrite IH. split.
      * intros Hall name' spec' Hin.
        apply elem_of_cons in Hin as [[= -> ->]|Hin]; [|eauto].
        apply Hhead. eauto.
      * intros Hall name' spec' Hin. apply (Hall name').
        apply elem_of_cons. auto.
Qed.

(** X26. What [initialize] relies on: in an object that has been built
    there is at least one slot; a saver that is given holds no key but
    the seven it may and holds 'directory' and 'frequency'; a summarizer
    that is given holds no key but the four it may and holds
    'directory'. Both dicts are kept as given. *)
Theorem init_arguments states actions l2 p config saver' summarizer' b :
  (init states actions l2 p config saver' summarizer').2 = inr b →
  (1 ≤ Z.of_nat (parallel_interactions b))%Z
  ∧ Z.of_nat (parallel_interactions b) = p
  ∧ saver b = saver'
  ∧ summarizer b = summarizer'
  ∧ (∀ d, saver' = Some d →
       keys d ⊆ saver_keys ∧ "directory" ∈ keys d ∧ "frequency" ∈ keys d)
  ∧ (∀ d, summarizer' = Some d →
       keys d ⊆ summarizer_keys ∧ "directory" ∈ keys d).
Proof.
  intros Hinit.
  apply init_inr in Hinit
    as (names & _ & _ & _ & Hp & Hsaver & Hsummarizer & -> & _).
  rewrite Z2Nat.id by lia.
  split; [exact Hp|]. split; [reflexivity|].
  unfold saver_check in Hsaver. unfold summarizer_check in Hsummarizer.
  split; [|split; [|split]].
  - destruct saver' as [d|]; [|congruence].
    destruct (all_keys_in saver_keys d); [|discriminate].
    destruct (has_key "directory" d); [|discriminate].
    destruct (has_key "frequency" d); [|discriminate].
    simpl in Hsaver. congruence.
  - destruct summarizer' as [d|]; [|congruence].
    destruct (all_keys_in summarizer_keys d); [|discriminate].
    destruct (has_key "directory" d); [|discriminate].
    simpl in Hsummarizer. destruct (labels_check d); congruence.
  - intros d ->.
    destruct (all_keys_in saver_keys d) eqn:Hkeys; [|discriminate].
    destruct (has_key "directory" d) eqn:Hdir; [|discriminate].
    destruct (has_key "frequency" d) eqn:Hfreq; [|discriminate].
    apply bool_decide_eq_true in Hdir, Hfreq.
    split; [|auto]. intros key Hkey.
    unfold all_keys_in in Hkeys. rewrite forallb_forall in Hkeys.
    apply list_elem_of_In, Hkeys, bool_decide_eq_true in Hkey. exact Hkey.
  - intros d ->.
    destruct (all_keys_in summarizer_keys d) eqn:Hkeys; [|discriminate].
    destruct (has_key "directory" d) eqn:Hdir; [|discriminate].
    apply bool_decide_eq_true in Hdir.
    split; [|auto]. intros key Hkey.
    unfold all_keys_in in Hkeys. rewrite forallb_forall in Hkeys.
    apply list_elem_of_In, Hkeys, bool_decide_eq_true in Hkey. exact Hkey.
Qed.

Lemma mapM_as_str_characters (chars : list Ascii.ascii) :
  mapM as_str ((λ c, PyStr (String c EmptyString)) <$> chars)
  = Some ((λ c, String c EmptyString) <$> chars).
Proof.
  induction chars as [|c chars IH]; [reflexivity|].
  rewrite !fmap_cons. cbn [mapM as_str]. rewrite IH. reflexivity.
Qed.

(** X27. Labels given as one string. When [summarizer['labels']] is a
    string other than 'all', the constructor accepts it and reads it
    character by character: the labels of the object are the
    one-character strings of its characters, so that no label of two
    characters or more is enabled, among them 'graph' and 'reward', the
    two labels the model writes summaries under. *)
Theorem init_labels_string states actions l2 p config saver' d s b :
  get "labels" (PySeq [PyStr "graph"]) d = PyStr s →
  s ≠ "all" →
  (init states actions l2 p config saver' (Some d)).2 = inr b →
  summary_labels b
  = Labels (list_to_set ((λ c, String c EmptyString)
                           <$> String.list_ascii_of_string s))
  ∧ (∀ label,
       enabled label (summary_labels b) = true →
       ∃ c, label = String c EmptyString
            ∧ c ∈ String.list_ascii_of_string s)
  ∧ enabled "graph" (summary_labels b) = false
  ∧ enabled "reward" (summary_labels b) = false.
Proof.
  intros Hget Hall Hinit.
  apply init_inr in Hinit
    as (names & _ & _ & _ & _ & _ & Hsummarizer & _).
  unfold summarizer_check in Hsummarizer.
  destruct (all_keys_in summarizer_keys d); [|discriminate].
  destruct (has_key "directory" d); [|discriminate].
  simpl in Hsummarizer. unfold labels_check in Hsummarizer.
  rewrite Hget in Hsummarizer. simpl in Hsummarizer.
  destruct (String.eqb s "all") eqn:Heq;
    [apply String.eqb_eq in Heq; contradiction|].
  rewrite mapM_as_str_characters in Hsummarizer.
  injection Hsummarizer as _ Hlabels.
  assert (∀ label,
            enabled label (summary_labels b) = true →
            ∃ c, label = String c EmptyString
                 ∧ c ∈ String.list_ascii_of_string s) as Hone.
  { intros label. rewrite <- Hlabels. simpl. intros Hin.
    apply bool_decide_eq_true, elem_of_list_to_set, list_elem_of_fmap in Hin
      as (c & -> & Hc).
    eauto. }
  split; [symmetry; exact Hlabels|]. split; [exact Hone|].
  split.
  - destruct (enabled "graph" (summary_labels b)) eqn:He; [|reflexivity].
    apply Hone in He as (c & Hc & _). discriminate Hc.
  - destruct (enabled "reward" (summary_labels b)) eqn:He; [|reflexivity].
    apply Hone in He as (c & Hc & _). discriminate Hc.
Qed.

End model_init.

Lemma init_value_names_witness :
  NoDup (ModelInit.reserved ++ ["position"] ++ ["action"; "force"]).
Proof.
  destruct (ModelInit.init ExampleArguments.states ExampleArguments.actions
              ExampleArguments.l2_regularization 2
              (Example.config_with true) (Some ExampleArguments.saver)
              (Some ExampleArguments.summarizer)).2 as [e|b] eqn:Hinit.
  - vm_compute in Hinit. discriminate Hinit.
  - exact (proj1 (init_value_names _ _ _ _ _ _ _ b Hinit)).
Defined.

Lemma init_state_collision_witness :
  ∃ before name after,
    ["position"; "reward"] = before ++ name :: after
    ∧ (name ∈ ModelInit.reserved ∨ name ∈ before)
    ∧ ModelInit.init
        (ExampleArguments.states
         ++ [("reward",
              {| ModelInit.spec_type := Model.Int;
                 ModelInit.spec_shape := [];
                 ModelInit.spec_min_value := None;
                 ModelInit.spec_max_value := None;
                 ModelInit.spec_num_values := Some 2 |})])
        ExampleArguments.actions ExampleArguments.l2_regularization 2
        (Example.config_with true) None None
      = (["Infinite max_value bound for state position."],
         inl (ModelInit.Exists "value name" name)).
Proof.
  refine (proj2 (init_state_collision
                   (ExampleArguments.states
                    ++ [("reward",
                         {| ModelInit.spec_type := Model.Int;
                            ModelInit.spec_shape := [];
                            ModelInit.spec_min_value := None;
                            ModelInit.spec_max_value := None;
                            ModelInit.spec_num_values := Some 2 |})])
                   ExampleArguments.actions 2 (Example.config_with true)
                   None None _) 0%Q).
  intros Hnodup. simpl in Hnodup.
  apply NoDup_cons in Hnodup as [_ Hnodup].
  apply NoDup_cons in Hnodup as [Hreward _].
  apply Hreward. apply list_elem_of_In. simpl. auto.
Defined.

Lemma init_arguments_witness :
  ModelInit.keys ExampleArguments.saver ⊆ ModelInit.saver_keys
  ∧ "directory" ∈ ModelInit.keys ExampleArguments.saver
  ∧ "frequency" ∈ ModelInit.keys ExampleArguments.saver.
Proof.
  destruct (ModelInit.init ExampleArguments.states ExampleArguments.actions
              ExampleArguments.l2_regularization 2
              (Example.config_with true) (Some ExampleArguments.saver)
              (Some ExampleArguments.summarizer)).2 as [e|b] eqn:Hinit.
  - vm_compute in Hinit. discriminate Hinit.
  - destruct (init_arguments _ _ _ _ _ _ _ b Hinit)
      as (_ & _ & _ & _ & Hsaver & _).
    exact (Hsaver _ eq_refl).
Defined.

Lemma init_labels_string_witness :
  ∃ b,
    (ModelInit.init ExampleArguments.states ExampleArguments.actions
              ExampleArguments.l2_regularization 2
       (Example.config_with true) (Some ExampleArguments.saver)
       (Some ExampleArguments.summarizer)).2 = inr b
    ∧ ModelInit.enabled "reward" (ModelInit.summary_labels b) = false.
Proof.
  destruct (ModelInit.init ExampleArguments.states ExampleArguments.actions
              ExampleArguments.l2_regularization 2
              (Example.config_with true) (Some ExampleArguments.saver)
              (Some ExampleArguments.summarizer)).2 as [e|b] eqn:Hinit.
  - vm_compute in Hinit. discriminate Hinit.
  - exists b. split; [reflexivity|].
    destruct (init_labels_string ExampleArguments.states
                ExampleArguments.actions ExampleArguments.l2_regularization
                2 (Example.config_with true)
                (Some ExampleArguments.saver) ExampleArguments.summarizer
                "reward" b) as (_ & _ & _ & Hreward).
    + reflexivity.
    + discriminate.
    + exact Hinit.
    + exact Hreward.
Defined.

(** *** [Model.initialize]: the summary directories *)

Section summaries.

Import ModelInit.
Import Initialize.

Lemma string_le_cmp a b :
  string_le a b ↔ String_as_OT.lt a b ∨ a = b.
Proof.
  unfold string_le, String.leb.
  pose proof (String_as_OT.cmp_lt a b) as Hlt.
  pose proof (String_as_OT.cmp_eq a b) as Heq.
  unfold String_as_OT.cmp in *.
  destruct (String.compare a b) eqn:Hc.
  - split; [|reflexivity]. intros _. right. apply Heq. reflexivity.
  - split; [|reflexivity]. intros _. left. apply Hlt. reflexivity.
  - split; [discriminate|]. intros [H|H].
    + apply Hlt in H. discriminate.
    + apply Heq in H. discriminate.
Qed.

Lemma string_le_trans : Transitive string_le.
Proof.
  intros a b c Hab Hbc. apply string_le_cmp in Hab, Hbc.
  apply string_le_cmp.
  destruct Hab as [Hab| ->]; [|exact Hbc].
  destruct Hbc as [Hbc| <-]; [|left; exact Hab].
  left. eapply String_as_OT.lt_trans; eauto.
Qed.

Lemma string_le_total : Total string_le.
Proof. intros a b. apply String.leb_total. Qed.

Lemma directories_Permutation fs :
  directories fs
  ≡ₚ (filter (λ e, is_summary e = true) (map_to_list fs)).*1.
Proof. apply merge_sort_Permutation. Qed.

Lemma NoDup_directories fs : NoDup (directories fs).
Proof.
  rewrite directories_Permutation.
  apply (NoDup_fmap_fst _).
  - intros name e1 e2 H1 H2.
    apply list_elem_of_filter in H1 as [_ H1], H2 as [_ H2].
    apply elem_of_map_to_list in H1, H2. congruence.
  - apply NoDup_filter, NoDup_map_to_list.
Qed.

(** The summary directories are the directories whose name starts with
    'summary-'. *)
Lemma elem_of_directories fs name :
  name ∈ directories fs
  ↔ ∃ content,
      fs !! name = Some (Directory content)
      ∧ String.prefix "summary-" name = true.
Proof.
  rewrite directories_Permutation, list_elem_of_fmap. split.
  - intros ([name' e] & -> & Hin).
    apply list_elem_of_filter in Hin as [Hsum Hin].
    apply elem_of_map_to_list in Hin. unfold is_summary in Hsum.
    simpl in *. destruct e as [|content]; [discriminate|]. eauto.
  - intros (content & Hlookup & Hprefix).
    exists (name, Directory content). split; [reflexivity|].
    apply list_elem_of_filter. split; [exact Hprefix|].
    apply elem_of_map_to_list. exact Hlookup.
Qed.

Lemma NoDup_pruned k fs : NoDup (pruned k fs).
Proof.
  unfold pruned. destruct (Z.ltb _ _); [|constructor].
  apply (sublist_NoDup _ (directories fs));
    [apply NoDup_directories|apply sublist_take].
Qed.

(** A summary directory that holds one file and nothing else. *)
Lemma remove_summary_None subdir fs :
  (remove_summary subdir fs).2 = None
  ↔ ∃ file, fs !! subdir = Some (Directory [(file, IsFile)]).
Proof.
  unfold remove_summary.
  destruct (fs !! subdir) as [[|[|[file []] [|second rest]]]|]; simpl;
    try (split; [discriminate|intros [file' [=]]]).
  split; [eauto|reflexivity].
Qed.

Lemma remove_summary_delete subdir fs :
  (remove_summary subdir fs).2 = None →
  (remove_summary subdir fs).1 = delete subdir fs.
Proof.
  intros Hnone. pose proof Hnone as Hfile.
  apply remove_summary_None in Hfile as [file Hfile].
  unfold remove_summary. rewrite Hfile. reflexivity.
Qed.

Lemma remove_summaries_None subdirs fs :
  NoDup subdirs →
  (remove_summaries subdirs fs).2 = None
  ↔ ∀ subdir, subdir ∈ subdirs →
      ∃ file, fs !! subdir = Some (Directory [(file, IsFile)]).
Proof.
  revert fs. induction subdirs as [|subdir subdirs IH]; intros fs Hnodup;
    simpl.
  - split; [|reflexivity]. intros _ subdir Hin.
    apply elem_of_nil in Hin. destruct Hin.
  - apply NoDup_cons in Hnodup as [Hfresh Hnodup].
    pose proof (remove_summary_None subdir fs) as Hhead.
    pose proof (remove_summary_delete subdir fs) as Hdelete.
    destruct (remove_summary subdir fs) as [fs' [e|]]; simpl in *.
    + split; [discriminate|]. intros Hall.
      assert (Some e = None) as Habs; [|discriminate Habs].
      apply Hhead, Hall, elem_of_cons. auto.
    + rewrite (Hdelete eq_refl), (IH _ Hnodup). split.
      * intros Hall subdir' Hin.
        apply elem_of_cons in Hin as [->|Hin]; [apply Hhead; reflexivity|].
        destruct (Hall _ Hin) as [file Hfile]. exists file.
        rewrite (lookup_delete_ne fs) in Hfile by congruence. exact Hfile.
      * intros Hall subdir' Hin.
        destruct (Hall subdir') as [file Hfile];
          [apply elem_of_cons; auto|].
        exists file. rewrite (lookup_delete_ne fs) by congruence.
        exact Hfile.
Qed.

Lemma remove_summaries_lookup subdirs fs name :
  (remove_summaries subdirs fs).2 = None →
  (remove_summaries subdirs fs).1 !! name
  = if bool_decide (name ∈ subdirs) then None else fs !! name.
Proof.
  revert fs. induction subdirs as [|subdir subdirs IH]; intros fs;
    cbn [remove_summaries].
  - intros _. rewrite bool_decide_eq_false_2; [reflexivity|].
    apply not_elem_of_nil.
  - pose proof (remove_summary_delete subdir fs) as Hdelete.
    destruct (remove_summary subdir fs) as [fs' [e|]]; cbn [fst snd] in *;
      [discriminate|].
    intros Hnone. rewrite (IH _ Hnone), (Hdelete eq_refl).
    destruct (decide (name = subdir)) as [->|Hne].
    + rewrite (bool_decide_eq_true_2 (subdir ∈ subdir :: subdirs))
        by (apply elem_of_cons; auto).
      rewrite (lookup_delete_eq fs). destruct (bool_decide _); reflexivity.
    + rewrite (lookup_delete_ne fs) by congruence.
      destruct (decide (name ∈ subdirs)) as [Hin|Hnin].
      * rewrite !bool_decide_eq_true_2;
          [reflexivity|apply elem_of_cons; auto|exact Hin].
      * rewrite !bool_decide_eq_false_2; [reflexivity| |exact Hnin].
        intros Hin. apply elem_of_cons in Hin as [?|?]; auto.
Qed.

Lemma StronglySorted_app_le (l1 l2 : list string) a b :
  StronglySorted string_le (l1 ++ l2) → a ∈ l1 → b ∈ l2 → string_le a b.
Proof.
  induction l1 as [|x l1 IH]; simpl; intros Hsorted Ha Hb.
  - apply elem_of_nil in Ha. destruct Ha.
  - apply StronglySorted_inv in Hsorted as [Hsorted Hall].
    apply elem_of_cons in Ha as [->|Ha]; [|eauto].
    rewrite Forall_forall in Hall. apply Hall.
    apply elem_of_app. auto.
Qed.

(** X28. [initialize] removes the oldest summaries. When the pruning
    raises nothing: the summary directories split, in the order of their
    names, into those removed and those kept; every one removed comes
    before every one kept; fewer than [max_summaries] are kept (none for
    a [max_summaries] of 1 or less, all when there are fewer than
    [max_summaries]); and the summarizer directory has lost the removed
    directories, each a directory named 'summary-...', and nothing
    else. *)
Theorem initialize_removes_oldest summarizer fs k :
  max_summaries summarizer = Some k →
  (initialize summarizer (Some fs)).2 = None →
  ∃ kept,
    directories fs = pruned k fs ++ kept
    ∧ Z.of_nat (length kept)
      = Z.min (Z.of_nat (length (directories fs))) (Z.max (k - 1) 0)
    ∧ (∀ a b, a ∈ pruned k fs → b ∈ kept → string_le a b ∧ a ≠ b)
    ∧ (∀ a, a ∈ pruned k fs →
         String.prefix "summary-" a = true
         ∧ ∃ content, fs !! a = Some (Directory content))
    ∧ ∀ name,
        (initialize summarizer (Some fs)).1 !! name
        = if bool_decide (name ∈ pruned k fs) then None else fs !! name.
Proof.
  unfold initialize. intros ->. simpl. intros Hnone.
  assert (∃ r, pruned k fs = take r (directories fs)
               ∧ Z.of_nat (length (drop r (directories fs)))
                 = Z.min (Z.of_nat (length (directories fs)))
                     (Z.max (k - 1) 0)) as (r & Hpruned & Hcount).
  { unfold pruned. destruct (Z.ltb_spec (k - 1)
                               (Z.of_nat (length (directories fs)))).
    - eexists. split; [reflexivity|]. rewrite length_drop. lia.
    - exists 0. split; [reflexivity|]. rewrite drop_0. lia. }
  exists (drop r (directories fs)).
  split; [rewrite Hpruned; symmetry; apply take_drop|].
  split; [exact Hcount|]. split; [|split].
  - intros a b Ha Hb. rewrite Hpruned in Ha.
    pose proof (@StronglySorted_merge_sort _ string_le _ string_le_trans
                  string_le_total
                  (filter (λ e, is_summary e = true) (map_to_list fs)).*1)
      as Hsorted.
    fold (directories fs) in Hsorted.
    pose proof (NoDup_directories fs) as Hnodup.
    rewrite <- (take_drop r (directories fs)) in Hsorted, Hnodup.
    split; [eapply StronglySorted_app_le; eauto|].
    intros ->. apply NoDup_app in Hnodup as (_ & Hdisjoint & _).
    exact (Hdisjoint _ Ha Hb).
  - intros a Ha. rewrite Hpruned in Ha.
    apply (subseteq_take r), elem_of_directories in Ha
      as (content & Hlookup & Hprefix).
    eauto.
  - intros name. apply remove_summaries_lookup. exact Hnone.
Qed.

(** X29. The pruning raises nothing exactly when every summary directory
    it is to remove holds one file and nothing else: the loop removes
    the first entry of a directory as a file and then the directory, so
    an empty summary directory, one with a second entry, or one whose
    first entry is a directory, makes [initialize] raise. *)
Theorem initialize_prunes_single_files summarizer fs k :
  max_summaries summarizer = Some k →
  (initialize summarizer (Some fs)).2 = None
  ↔ ∀ subdir, subdir ∈ pruned k fs →
      ∃ file, fs !! subdir = Some (Directory [(file, IsFile)]).
Proof.
  unfold initialize. intros ->. simpl.
  apply remove_summaries_None, NoDup_pruned.
Qed.

End summaries.

Lemma initialize_removes_oldest_witness :
  ∃ kept,
    Initialize.directories ExampleArguments.summaries
    = Initialize.pruned 2 ExampleArguments.summaries ++ kept
    ∧ Z.of_nat (length kept) = 1%Z
    ∧ Initialize.pruned 2 ExampleArguments.summaries
      = ["summary-20200101-120000"; "summary-20200102-120000"].
Proof.
  destruct (initialize_removes_oldest
              [("directory", ModelInit.PyStr "summaries");
               ("max_summaries", ModelInit.PyInt 2)]
              ExampleArguments.summaries 2)
    as (kept & Hsplit & Hcount & _).
  - reflexivity.
  - vm_compute. reflexivity.
  - exists kept. split; [exact Hsplit|]. split.
    + rewrite Hcount. vm_compute. reflexivity.
    + vm_compute. reflexivity.
Defined.

Lemma initialize_prunes_single_files_witness :
  (Initialize.initialize
     [("directory", ModelInit.PyStr "summaries");
      ("max_summaries", ModelInit.PyInt 2)]
     (Some ExampleArguments.summaries)).2 = None
  ↔ ∀ subdir,
      subdir ∈ Initialize.pruned 2 ExampleArguments.summaries →
      ∃ file,
        ExampleArguments.summaries !! subdir
        = Some (Initialize.Directory [(file, Initialize.IsFile)]).
Proof.
  apply (initialize_prunes_single_files
           [("directory", ModelInit.PyStr "summaries");
            ("max_summaries", ModelInit.PyInt 2)]
           ExampleArguments.summaries 2).
  reflexivity.
Defined.

(** *** [InstanceNormalization] *)

Section instance_normalization.

Import ExponentialNormalization.
Import InstanceNormalization.

Lemma apply_row_default (eps : float) (row : list float) :
  PrimFloat.mul 0 (rsqrt (maximum 0 eps)) = 0%float →
  Forall (λ v, PrimFloat.is_finite v = true) row →
  zip_with PrimFloat.mul (zip_with PrimFloat.sub row row)
    ((λ v, rsqrt (maximum v eps))
       <$> zip_with (λ v m, PrimFloat.mul (PrimFloat.sub v m)
                              (PrimFloat.sub v m)) row row)
  = (λ _, 0%float) <$> row.
Proof.
  intros Heps Hrow. induction Hrow as [|v row Hv Hrow IH]; [reflexivity|].
  cbn [zip_with]. rewrite !fmap_cons. cbn [zip_with].
  rewrite IH, (sub_diag_finite v Hv).
  change (PrimFloat.mul 0 0) with 0%float. rewrite Heps. reflexivity.
Qed.

(** X30. With [axes] left out, on inputs of rank 1, the moments are taken
    over no axis ([range(1, rank)] is empty): the mean of an entry is the
    entry itself and its variance 0, so every finite entry is mapped to
    0, whatever the batch. ([epsilon] is taken such that [0 *
    rsqrt(max(0, epsilon))] is 0, as any positive [epsilon] gives.) *)
Theorem instance_default_axes (l : t) (x : list (list float)) :
  axes l = None →
  PrimFloat.mul 0 (rsqrt (maximum 0 (epsilon l))) = 0%float →
  Forall (Forall (λ v, PrimFloat.is_finite v = true)) x →
  apply l x = inr ((λ row : list float, (λ _, 0%float) <$> row) <$> x).
Proof.
  intros Haxes Heps Hx. unfold apply, reduction_axes. rewrite Haxes.
  change (seq 1 (rank - 1)) with (@nil nat). cbn [invalid_axis].
  unfold moments.
  assert (∀ y, reduce_mean [] y = y) as Hid by reflexivity.
  rewrite !Hid. unfold squared_difference. f_equal.
  induction Hx as [|row x Hrow Hx IH]; [reflexivity|].
  cbn [zip_with]. rewrite !fmap_cons. cbn [zip_with].
  rewrite IH. f_equal. apply apply_row_default; assumption.
Qed.

Lemma instance_default_axes_witness :
  apply {| axes := None; epsilon := 0x1p-20 |} [[2; 4]; [-1; 0]]%float
  = inr [[0; 0]; [0; 0]]%float.
Proof.
  apply (instance_default_axes {| axes := None; epsilon := 0x1p-20 |}
           [[2; 4]; [-1; 0]]%float).
  - reflexivity.
  - reflexivity.
  - repeat constructor.
Defined.

End instance_normalization.
